(** * The block-based table format of X-Engine: footer, block handles,
      raw blocks, and the table builder

    A shallow embedding of
    - [table/format.cc]: [BlockHandle], [Footer], [ReadFooterFromFile],
      [ReadBlock], [ReadBlockContents],
      [UncompressBlockContentsForCompressionType],
      [UncompressBlockContents], [unzip_data];
    - [table/block_based_table_builder.cc]: [CompressBlock], [WriteBlock],
      [WriteRawBlock], [Add], [Flush], [Finish];
    - [table/index_builder.cc]: [PartitionedIndexBuilder];
    - [util/slice.cc]: the hex conversions and the prefix extractors;
    - [db/table_properties_collector.cc]:
      [InternalKeyPropertiesCollector].

    Conventions.  A [uintN_t] is a [Z] in [0, 2^N) with the wrap-around
    written where the C++ wraps.  A [std::string] or a [Slice] is a
    [list byte].  A [Slice*] argument that is advanced by the callee is
    returned as the remaining bytes.  The functions follow the release
    build: an [assert] is not executed; the conditions of the assertions
    that matter are stated as separate predicates.  [abort()] is executed
    and shows as the outcome [Aborted]. *)

From Stdlib Require Import ZArith Lia List String Bool.
From coqutil Require Import Byte Word.LittleEndianList.
Import ListNotations.
Local Open Scope Z_scope.

Definition bytes := list byte.

Definition wrap32 (z : Z) : Z := z mod 2 ^ 32.
Definition wrap64 (z : Z) : Z := z mod 2 ^ 64.

Definition uint32 (z : Z) : Prop := 0 <= z < 2 ^ 32.
Definition uint64 (z : Z) : Prop := 0 <= z < 2 ^ 64.

(** [size_t] is 64 bits wide on the supported platforms. *)
Definition size (s : bytes) : Z := Z.of_nat (List.length s).

(** ** Status *)

Module Status.

Inductive Code : Type :=
| kOk | kNotFound | kCorruption | kNotSupported | kInvalidArgument
| kIOError | kIncomplete | kMemoryLimit.

(** Modelled from the spec: [common::Status] ([xengine/status.h]) is
    not part of the sources at hand.  The spec's taxonomy is
    Corruption, IOError, MemoryLimit, NotSupported and the control
    signal Incomplete; a status carries its code and a message. *)
Record t : Type := mk { code : Code; message : string }.

Definition OK : t := mk kOk EmptyString.
Definition Corruption (msg : string) : t := mk kCorruption msg.
Definition IOError (msg : string) : t := mk kIOError msg.
Definition Incomplete : t := mk kIncomplete EmptyString.
Definition MemoryLimit : t := mk kMemoryLimit EmptyString.

Definition ok (s : t) : bool :=
  match code s with kOk => true | _ => false end.
Definition IsIncomplete (s : t) : bool :=
  match code s with kIncomplete => true | _ => false end.
Definition IsCorruption (s : t) : bool :=
  match code s with kCorruption => true | _ => false end.
Definition IsNotFound (s : t) : bool :=
  match code s with kNotFound => true | _ => false end.

End Status.

(** What a call can come to: it returns, it reaches [abort()], or it was
    entered against a REQUIRES clause that the body relies on for its
    memory accesses. *)
Inductive Outcome (A : Type) : Type :=
| Returned (a : A)
| Aborted
| OutOfContract.
Arguments Returned {A} a.
Arguments Aborted {A}.
Arguments OutOfContract {A}.

(** ** util/coding.h *)

Module Coding.

(** Modelled from the spec: [util/coding.h] is not part of the sources
    at hand.  Fixed-width integers are little-endian; a
    variable-length integer carries seven bits per byte, least
    significant group first, and the high bit of a byte says that
    another byte follows. *)
Definition EncodeFixed32 (v : Z) : bytes := le_split 4 v.
Definition EncodeFixed64 (v : Z) : bytes := le_split 8 v.
Definition PutFixed32 (dst : bytes) (v : Z) : bytes := dst ++ EncodeFixed32 v.
Definition PutFixed64 (dst : bytes) (v : Z) : bytes := dst ++ EncodeFixed64 v.
Definition DecodeFixed32 (p : bytes) : Z := le_combine (firstn 4 p).
Definition DecodeFixed64 (p : bytes) : Z := le_combine (firstn 8 p).

Definition GetFixed32 (input : bytes) : option (Z * bytes) :=
  if size input <? 4 then None
  else Some (DecodeFixed32 input, skipn 4 input).

Definition GetFixed64 (input : bytes) : option (Z * bytes) :=
  if size input <? 8 then None
  else Some (DecodeFixed64 input, skipn 8 input).

(** [while (v >= 128) { *ptr++ = (v & 127) | 128; v >>= 7; }
    *ptr++ = v;]  A 64-bit value leaves the loop after at most nine
    rounds, which is the first argument. *)
Fixpoint EncodeVarint64_loop (rounds : nat) (v : Z) : bytes :=
  match rounds with
  | O => [byte.of_Z v]
  | S rounds' =>
      if 128 <=? v
      then byte.of_Z (Z.lor (Z.land v 127) 128)
             :: EncodeVarint64_loop rounds' (Z.shiftr v 7)
      else [byte.of_Z v]
  end.

Definition EncodeVarint64 (v : Z) : bytes := EncodeVarint64_loop 9 v.

Definition PutVarint64 (dst : bytes) (v : Z) : bytes :=
  dst ++ EncodeVarint64 v.

Definition PutVarint64Varint64 (dst : bytes) (v1 v2 : Z) : bytes :=
  dst ++ EncodeVarint64 v1 ++ EncodeVarint64 v2.

(** [for (shift = 0; shift <= limit_shift && p < limit; shift += 7)]:
    the first argument counts the rounds that are left, [wrap] is the
    width of the accumulator. *)
Fixpoint GetVarintPtr_loop (wrap : Z -> Z) (rounds : nat) (shift result : Z)
         (p : bytes) : option (Z * bytes) :=
  match rounds with
  | O => None
  | S rounds' =>
      match p with
      | [] => None
      | b :: p' =>
          let byte := byte.unsigned b in
          if Z.land byte 128 =? 0
          then Some (Z.lor result (wrap (Z.shiftl byte shift)), p')
          else GetVarintPtr_loop wrap rounds' (shift + 7)
                 (Z.lor result (wrap (Z.shiftl (Z.land byte 127) shift))) p'
      end
  end.

(** [shift <= 63]: ten rounds. *)
Definition GetVarint64 (input : bytes) : option (Z * bytes) :=
  GetVarintPtr_loop wrap64 10 0 0 input.

(** [shift <= 28]: five rounds, after the one-byte fast path. *)
Definition GetVarint32 (input : bytes) : option (Z * bytes) :=
  match input with
  | b :: p' =>
      if Z.land (byte.unsigned b) 128 =? 0
      then Some (byte.unsigned b, p')
      else GetVarintPtr_loop wrap32 5 0 0 input
  | [] => GetVarintPtr_loop wrap32 5 0 0 input
  end.

(** [std::string::resize(n)]: cut, or pad with zero bytes. *)
Definition resize (n : Z) (s : bytes) : bytes :=
  firstn (Z.to_nat n) s ++ repeat Byte.x00 (Z.to_nat n - List.length s).

End Coding.

(** ** table/format.h, table/format.cc *)

Module Format.
Import Coding.

(** Modelled from the spec: the enumerations [ChecksumType] and
    [CompressionType] are declared in [xengine/table.h] and
    [xengine/options.h], which are not part of the sources at hand.
    An enumerator is the byte that the file stores for it; CRC32C is
    the default checksum, the 32-bit hash the other one. *)
Definition kNoChecksum : Z := 0.
Definition kCRC32c : Z := 1.
Definition kxxHash : Z := 2.

Definition kNoCompression : Z := 0.
Definition kSnappyCompression : Z := 1.
Definition kZlibCompression : Z := 2.
Definition kBZip2Compression : Z := 3.
Definition kLZ4Compression : Z := 4.
Definition kLZ4HCCompression : Z := 5.
Definition kXpressCompression : Z := 6.
Definition kZSTD : Z := 7.
Definition kZSTDNotFinalCompression : Z := 64.

(** [1-byte type + 32-bit checksum] *)
Definition kBlockTrailerSize : Z := 5.
Definition kMagicNumberLengthByte : Z := 8.

(** block_based_table_builder.cc, lines 194 and 197. *)
Definition kBlockBasedTableMagicNumber : Z := 0x88e241b785f4cff7.
Definition kLegacyBlockBasedTableMagicNumber : Z := 0xdb4775248b80fb57.

(** The magic numbers that format.cc only declares [extern]. *)
Record MagicNumbers : Type := {
  kLegacyPlainTableMagicNumber : Z;
  kPlainTableMagicNumber : Z;
  kExtentBasedTableMagicNumber : Z
}.

(** *** BlockHandle *)

Record BlockHandle : Type := mkBlockHandle { offset_ : Z; size_ : Z }.

(** [~static_cast<uint64_t>(0)], the value of a field that was never
    set. *)
Definition kUnset : Z := 2 ^ 64 - 1.

(** Modelled from the spec: the class declarations of [table/format.h]
    are not part of the sources at hand.  A handle is two varint64,
    ten bytes each at most; a fresh handle has both fields unset. *)
Definition BlockHandle_kMaxEncodedLength : Z := 10 + 10.
Definition BlockHandle_new : BlockHandle := mkBlockHandle kUnset kUnset.
Definition kNullBlockHandle : BlockHandle := mkBlockHandle 0 0.

(** The two assertions that open [BlockHandle::EncodeTo]. *)
Definition BlockHandle_is_set (h : BlockHandle) : bool :=
  negb (offset_ h =? kUnset) && negb (size_ h =? kUnset).

Definition BlockHandle_EncodeTo (h : BlockHandle) (dst : bytes) : bytes :=
  PutVarint64Varint64 dst (offset_ h) (size_ h).

Definition BlockHandle_DecodeFrom (h : BlockHandle) (input : bytes)
  : Status.t * BlockHandle * bytes :=
  match GetVarint64 input with
  | Some (offset, input1) =>
      match GetVarint64 input1 with
      | Some (size, input2) =>
          (Status.OK, mkBlockHandle offset size, input2)
      | None =>
          (Status.Corruption "bad block handle", mkBlockHandle 0 0, input1)
      end
  | None =>
      (Status.Corruption "bad block handle", mkBlockHandle 0 0, input)
  end.

(** *** Footer *)

Record Footer : Type := mkFooter {
  version_ : Z;
  valid_size_ : Z;
  next_extent_ : Z;
  checksum_ : Z;
  metaindex_handle_ : BlockHandle;
  index_handle_ : BlockHandle;
  table_magic_number_ : Z
}.

Definition set_version (f : Footer) (v : Z) : Footer :=
  mkFooter v (valid_size_ f) (next_extent_ f) (checksum_ f)
           (metaindex_handle_ f) (index_handle_ f) (table_magic_number_ f).
Definition set_valid_size (f : Footer) (v : Z) : Footer :=
  mkFooter (version_ f) v (next_extent_ f) (checksum_ f)
           (metaindex_handle_ f) (index_handle_ f) (table_magic_number_ f).
Definition set_next_extent (f : Footer) (v : Z) : Footer :=
  mkFooter (version_ f) (valid_size_ f) v (checksum_ f)
           (metaindex_handle_ f) (index_handle_ f) (table_magic_number_ f).
Definition set_checksum (f : Footer) (c : Z) : Footer :=
  mkFooter (version_ f) (valid_size_ f) (next_extent_ f) c
           (metaindex_handle_ f) (index_handle_ f) (table_magic_number_ f).
Definition set_metaindex_handle (f : Footer) (h : BlockHandle) : Footer :=
  mkFooter (version_ f) (valid_size_ f) (next_extent_ f) (checksum_ f)
           h (index_handle_ f) (table_magic_number_ f).
Definition set_index_handle (f : Footer) (h : BlockHandle) : Footer :=
  mkFooter (version_ f) (valid_size_ f) (next_extent_ f) (checksum_ f)
           (metaindex_handle_ f) h (table_magic_number_ f).
Definition set_table_magic_number (f : Footer) (m : Z) : Footer :=
  mkFooter (version_ f) (valid_size_ f) (next_extent_ f) (checksum_ f)
           (metaindex_handle_ f) (index_handle_ f) m.

(** Modelled from the spec: the lengths of the three layouts, declared
    in [table/format.h].  The legacy and the versioned length are the
    ones of the layout comment above [Footer::EncodeTo]; the extent
    layout puts [valid_size(4)] and [next_extent(8)] in front of the
    versioned one. *)
Definition kVersion0EncodedLength : Z := 2 * BlockHandle_kMaxEncodedLength + 8.
Definition kNewVersionsEncodedLength : Z :=
  1 + 2 * BlockHandle_kMaxEncodedLength + 4 + 8.
Definition kVersion3EncodedLength : Z :=
  4 + 8 + 1 + 2 * BlockHandle_kMaxEncodedLength + 4 + 8.
Definition kMinEncodedLength : Z := kVersion0EncodedLength.
Definition kMaxEncodedLength : Z := kVersion3EncodedLength.
Definition kInvalidTableMagicNumber : Z := 0.

Section WithMagic.
Variable M : MagicNumbers.

Definition IsLegacyFooterFormat (magic_number : Z) : bool :=
  (magic_number =? kLegacyBlockBasedTableMagicNumber)
  || (magic_number =? kLegacyPlainTableMagicNumber M).

(** The last two lines are behind [assert(false)]. *)
Definition UpconvertLegacyFooterFormat (magic_number : Z) : Z :=
  if magic_number =? kLegacyBlockBasedTableMagicNumber
  then kBlockBasedTableMagicNumber
  else if magic_number =? kLegacyPlainTableMagicNumber M
  then kPlainTableMagicNumber M
  else 0.

(** [Footer::Footer(magic, version)]; [valid_size_] and
    [next_extent_] are left without a value by this constructor,
    which the model shows as 0. *)
Definition Footer_new (_table_magic_number _version : Z) : Footer :=
  mkFooter _version 0 0 kCRC32c BlockHandle_new BlockHandle_new
           _table_magic_number.

Definition Footer_new_extent
           (_table_magic_number _valid_size _next_extent _version : Z)
  : Footer :=
  mkFooter _version _valid_size _next_extent kCRC32c
           BlockHandle_new BlockHandle_new _table_magic_number.

(** The assertion of both constructors. *)
Definition Footer_new_assert (_table_magic_number _version : Z) : bool :=
  negb (IsLegacyFooterFormat _table_magic_number) || (_version =? 0).

Definition HasInitializedTableMagicNumber (f : Footer) : bool :=
  negb (table_magic_number_ f =? kInvalidTableMagicNumber).

(** [assert(checksum_ == kCRC32c)] of the legacy branch of
    [Footer::EncodeTo]. *)
Definition EncodeTo_legacy_assert (f : Footer) : bool :=
  negb (IsLegacyFooterFormat (table_magic_number_ f))
  || (checksum_ f =? kCRC32c).

Definition Footer_EncodeTo (f : Footer) (dst : bytes) : bytes :=
  let magic := table_magic_number_ f in
  let original_size := size dst in
  if IsLegacyFooterFormat magic then
    let dst := BlockHandle_EncodeTo (metaindex_handle_ f) dst in
    let dst := BlockHandle_EncodeTo (index_handle_ f) dst in
    let dst :=
      resize (original_size + 2 * BlockHandle_kMaxEncodedLength) dst in
    let dst := PutFixed32 dst (wrap32 (Z.land magic 0xffffffff)) in
    PutFixed32 dst (wrap32 (Z.shiftr magic 32))
  else if magic =? kBlockBasedTableMagicNumber then
    let dst := dst ++ [byte.of_Z (checksum_ f)] in
    let dst := BlockHandle_EncodeTo (metaindex_handle_ f) dst in
    let dst := BlockHandle_EncodeTo (index_handle_ f) dst in
    let dst :=
      resize (original_size + kNewVersionsEncodedLength - 12) dst in
    let dst := PutFixed32 dst (version_ f) in
    let dst := PutFixed32 dst (wrap32 (Z.land magic 0xffffffff)) in
    PutFixed32 dst (wrap32 (Z.shiftr magic 32))
  else
    let dst := PutFixed32 dst (valid_size_ f) in
    let dst := PutFixed64 dst (next_extent_ f) in
    let dst := dst ++ [byte.of_Z (checksum_ f)] in
    let dst := BlockHandle_EncodeTo (metaindex_handle_ f) dst in
    let dst := BlockHandle_EncodeTo (index_handle_ f) dst in
    let dst := resize (original_size + kVersion3EncodedLength - 12) dst in
    let dst := PutFixed32 dst (version_ f) in
    let dst := PutFixed32 dst (wrap32 (Z.land magic 0xffffffff)) in
    PutFixed32 dst (wrap32 (Z.shiftr magic 32)).

(** The tail of [Footer::DecodeFrom], from
    [metaindex_handle_.DecodeFrom(input)] on. *)
Definition DecodeFrom_handles (f : Footer) (input : bytes)
  : Status.t * Footer * bytes :=
  let '(result, mh, input) :=
    BlockHandle_DecodeFrom (metaindex_handle_ f) input in
  let f := set_metaindex_handle f mh in
  if Status.ok result then
    let '(result, ih, input) :=
      BlockHandle_DecodeFrom (index_handle_ f) input in
    let f := set_index_handle f ih in
    if Status.ok result
    then (result, f, [])  (* the slice is moved to the end of the footer *)
    else (result, f, input)
  else (result, f, input).

(** [static_cast<ChecksumType>(chksum)], an enumeration over [char]. *)
Definition to_ChecksumType (chksum : Z) : Z := chksum mod 2 ^ 8.

Definition remove_prefix (n : Z) (input : bytes) : bytes :=
  skipn (Z.to_nat n) input.

Definition Footer_DecodeFrom (f : Footer) (input : bytes)
  : Outcome (Status.t * Footer * bytes) :=
  (* assert(input->size() >= kMinEncodedLength) *)
  if size input <? kMinEncodedLength then OutOfContract else
  let magic_ptr := remove_prefix (size input - kMagicNumberLengthByte) input in
  let magic_lo := DecodeFixed32 magic_ptr in
  let magic_hi := DecodeFixed32 (skipn 4 magic_ptr) in
  let magic := Z.lor (Z.shiftl magic_hi 32) magic_lo in
  let legacy := IsLegacyFooterFormat magic in
  let magic := if legacy then UpconvertLegacyFooterFormat magic else magic in
  let f := set_table_magic_number f magic in
  let version_at :=
    DecodeFixed32
      (remove_prefix (size input - kMagicNumberLengthByte - 4) input) in
  if legacy then
    let input := remove_prefix (size input - kVersion0EncodedLength) input in
    let f := set_checksum (set_version f 0) kCRC32c in
    Returned (DecodeFrom_handles f input)
  else if magic =? kBlockBasedTableMagicNumber then
    let f := set_version f version_at in
    if size input <? kNewVersionsEncodedLength then
      Returned
        (Status.Corruption "input is too short to be an sstable", f, input)
    else
      let input :=
        remove_prefix (size input - kNewVersionsEncodedLength) input in
      match GetVarint32 input with
      | None => Returned (Status.Corruption "bad checksum type", f, input)
      | Some (chksum, input) =>
          let f := set_checksum f (to_ChecksumType chksum) in
          Returned (DecodeFrom_handles f input)
      end
  else if magic =? kExtentBasedTableMagicNumber M then
    let f := set_version f version_at in
    if size input <? kVersion3EncodedLength then
      Returned
        (Status.Corruption "input is too short to be an extent sstable",
         f, input)
    else
      let input :=
        remove_prefix (size input - kVersion3EncodedLength) input in
      let '(f, input) :=
        match GetFixed32 input with
        | Some (v, input') => (set_valid_size f v, input')
        | None => (f, input)
        end in
      let '(f, input) :=
        match GetFixed64 input with
        | Some (v, input') => (set_next_extent f v, input')
        | None => (f, input)
        end in
      match GetVarint32 input with
      | None => Returned (Status.Corruption "bad checksum type", f, input)
      | Some (chksum, input) =>
          let f := set_checksum f (to_ChecksumType chksum) in
          Returned (DecodeFrom_handles f input)
      end
  else
    (* abort(); return Status::Corruption("unknown magic"); *)
    Aborted.

End WithMagic.

End Format.

(** ** Checksums: util/crc32c.h, util/xxhash.h *)

Module Checksum.

(** The two checksum libraries, which are not part of the sources at
    hand.  [crc32c_Value data] is the CRC32C of [data],
    [crc32c_Extend init data] continues a CRC32C, [crc32c_Mask] and
    [crc32c_Unmask] are the masking of a stored CRC, [XXH32 data seed]
    is the 32-bit hash. *)
Record Lib : Type := {
  crc32c_Value : bytes -> Z;
  crc32c_Extend : Z -> bytes -> Z;
  crc32c_Mask : Z -> Z;
  crc32c_Unmask : Z -> Z;
  XXH32 : bytes -> Z -> Z
}.

(** Modelled from the spec: the streaming interface of the 32-bit hash
    ([XXH32_init], [XXH32_update], [XXH32_digest]).  The checksum
    covers the bytes of all updates, one after the other. *)
Record XXH32_state : Type := { xxh_seed : Z; xxh_input : bytes }.

Definition XXH32_init (seed : Z) : XXH32_state :=
  {| xxh_seed := seed; xxh_input := [] |}.
Definition XXH32_update (st : XXH32_state) (data : bytes) : XXH32_state :=
  {| xxh_seed := xxh_seed st; xxh_input := xxh_input st ++ data |}.
Definition XXH32_digest (L : Lib) (st : XXH32_state) : Z :=
  XXH32 L (xxh_input st) (xxh_seed st).

(** The contract of [crc32c::Extend]: the CRC32C of [concat(A, data)]
    from the CRC32C of [A]; and the two maskings undo each other. *)
Record Lib_ok (L : Lib) : Prop := {
  Value_range : forall a, uint32 (crc32c_Value L a);
  Extend_Value :
    forall a b, crc32c_Extend L (crc32c_Value L a) b = crc32c_Value L (a ++ b);
  Unmask_Mask :
    forall c,
      uint32 c -> wrap32 (crc32c_Unmask L (wrap32 (crc32c_Mask L c))) = c
}.

End Checksum.

(** ** Reading a block: table/format.cc *)

Module Reader.
Import Coding Format Checksum.

(** Modelled from the spec: [RandomAccessFileReader::read(offset, n,
    &result, scratch)] hands back a status and the bytes it could
    deliver, which may be fewer than [n]. *)
Definition RandomAccessFileReader : Type := Z -> Z -> Status.t * bytes.

Record ReadOptions : Type := { verify_checksums : bool; fill_cache : bool }.

(** [static_cast<int>(n)] *)
Definition static_cast_int (n : Z) : Z :=
  let m := n mod 2 ^ 32 in if m <? 2 ^ 31 then m else m - 2 ^ 32.

Definition INT_MAX : Z := 2 ^ 31 - 1.

(** [ReadBlock].  [n + kBlockTrailerSize] and [n + 1] are sums of
    [size_t] and wrap around.  The stored checksum and the bytes that
    the checksum covers are read at [data + n + 1] and from [data]:
    beyond the bytes that the read delivered the call is out of
    contract.  [static_cast<int>(n) + 1] is a sum of [int], whose
    overflow is undefined, and a negative length is nothing that
    [XXH32] takes. *)
Definition ReadBlock (L : Lib) (file : RandomAccessFileReader)
           (footer : Footer) (options : ReadOptions) (handle : BlockHandle)
  : Outcome (Status.t * bytes) :=
  let n := size_ handle in
  let '(s, contents) :=
    file (offset_ handle) (wrap64 (n + kBlockTrailerSize)) in
  if negb (Status.ok s) then Returned (s, contents)
  else if negb (size contents =? wrap64 (n + kBlockTrailerSize)) then
    Returned (Status.Corruption "truncated block read", contents)
  else
    let data := contents in
    if verify_checksums options then
      let end_of_block := wrap64 (n + 1) in
      if size data <? end_of_block + 4 then OutOfContract
      else
        let value := DecodeFixed32 (skipn (Z.to_nat end_of_block) data) in
        let checked : Outcome (Status.t * Z * Z) :=
          if checksum_ footer =? kCRC32c then
            Returned
              (s, wrap32 (crc32c_Unmask L value),
               wrap32
                 (crc32c_Value L (firstn (Z.to_nat end_of_block) data)))
          else if checksum_ footer =? kxxHash then
            if (static_cast_int n =? INT_MAX) || (static_cast_int n + 1 <? 0)
            then OutOfContract
            else
              Returned
                (s, value,
                 wrap32
                   (XXH32 L (firstn (Z.to_nat (static_cast_int n + 1)) data)
                          0))
          else Returned (Status.Corruption "unknown checksum type", value, 0) in
        match checked with
        | Returned (s, value, actual) =>
            if Status.ok s && negb (actual =? value)
            then Returned (Status.Corruption "block checksum mismatch", contents)
            else Returned (s, contents)
        | Aborted => Aborted
        | OutOfContract => OutOfContract
        end
    else Returned (s, contents).

End Reader.

(** ** Compression: util/compression.h, and its use in
       block_based_table_builder.cc and format.cc *)

Module Compression.
Import Format.

(** Modelled from the spec: the codecs of [util/compression.h], which
    is not part of the sources at hand.  Each one reports success or
    failure and its output; [base_malloc] says whether an allocation
    of the given size succeeds. *)
Record CompressionOptions : Type := {
  window_bits : Z; level : Z; strategy : Z; max_dict_bytes : Z
}.

Record Lib : Type := {
  GetCompressFormatForVersion : Z -> Z -> Z;
  Snappy_Compress : CompressionOptions -> bytes -> option bytes;
  Zlib_Compress : CompressionOptions -> Z -> bytes -> bytes -> option bytes;
  BZip2_Compress : CompressionOptions -> Z -> bytes -> option bytes;
  LZ4_Compress : CompressionOptions -> Z -> bytes -> bytes -> option bytes;
  LZ4HC_Compress : CompressionOptions -> Z -> bytes -> bytes -> option bytes;
  XPRESS_Compress : bytes -> option bytes;
  ZSTD_Compress : CompressionOptions -> bytes -> bytes -> option bytes;
  Snappy_GetUncompressedLength : bytes -> option Z;
  Snappy_Uncompress : bytes -> Z -> option bytes;
  Zlib_Uncompress : bytes -> Z -> bytes -> option bytes;
  BZip2_Uncompress : bytes -> Z -> option bytes;
  LZ4_Uncompress : bytes -> Z -> bytes -> option bytes;
  XPRESS_Uncompress : bytes -> option bytes;
  ZSTD_Uncompress : bytes -> bytes -> option bytes;
  base_malloc : Z -> bool
}.

Section WithLib.
Variable L : Lib.

Definition GoodCompressionRatio (compressed_size raw_size : Z) : bool :=
  compressed_size <? raw_size - raw_size / 8.

(** What the [switch] of [CompressBlock] asks of the codec of
    [type]; [None] for a codec that fails and for a type that the
    [switch] does not know. *)
Definition codec_Compress (opts : CompressionOptions) (type : Z)
           (format_version : Z) (raw compression_dict : bytes)
  : option bytes :=
  if type =? kSnappyCompression then Snappy_Compress L opts raw
  else if type =? kZlibCompression then
    Zlib_Compress L opts
      (GetCompressFormatForVersion L kZlibCompression format_version)
      raw compression_dict
  else if type =? kBZip2Compression then
    BZip2_Compress L opts
      (GetCompressFormatForVersion L kBZip2Compression format_version) raw
  else if type =? kLZ4Compression then
    LZ4_Compress L opts
      (GetCompressFormatForVersion L kLZ4Compression format_version)
      raw compression_dict
  else if type =? kLZ4HCCompression then
    LZ4HC_Compress L opts
      (GetCompressFormatForVersion L kLZ4HCCompression format_version)
      raw compression_dict
  else if type =? kXpressCompression then XPRESS_Compress L raw
  else if (type =? kZSTD) || (type =? kZSTDNotFinalCompression) then
    ZSTD_Compress L opts raw compression_dict
  else None.

(** [CompressBlock]: the block to store and the value left in
    [*type]. *)
Definition CompressBlock (raw : bytes) (compression_options : CompressionOptions)
           (type : Z) (format_version : Z) (compression_dict : bytes)
  : bytes * Z :=
  if type =? kNoCompression then (raw, type)
  else
    match codec_Compress compression_options type format_version raw
                         compression_dict with
    | Some compressed_output =>
        if GoodCompressionRatio (size compressed_output) (size raw)
        then (compressed_output, type)
        else (raw, kNoCompression)
    | None => (raw, kNoCompression)
    end.

Definition corrupt (name : string) : Status.t :=
  Status.Corruption
    (String.append
       name
       (String.append " not supported or corrupted "
                      (String.append name " compressed block contents"))).

Definition uncompressed (name : string) (ubuf : option bytes)
  : Status.t * option bytes :=
  match ubuf with
  | Some contents => (Status.OK, Some contents)
  | None => (corrupt name, None)
  end.

(** [UncompressBlockContentsForCompressionType]: the status and what
    it stored in [*contents]. *)
Definition UncompressBlockContentsForCompressionType
           (data : bytes) (format_version : Z) (compression_dict : bytes)
           (compression_type : Z) : Status.t * option bytes :=
  if compression_type =? kSnappyCompression then
    match Snappy_GetUncompressedLength L data with
    | None => (corrupt "Snappy", None)
    | Some ulength =>
        if negb (base_malloc L ulength) then (Status.MemoryLimit, None)
        else uncompressed "Snappy" (Snappy_Uncompress L data ulength)
    end
  else if compression_type =? kZlibCompression then
    uncompressed "Zlib"
      (Zlib_Uncompress L data
         (GetCompressFormatForVersion L kZlibCompression format_version)
         compression_dict)
  else if compression_type =? kBZip2Compression then
    uncompressed "Bzip2"
      (BZip2_Uncompress L data
         (GetCompressFormatForVersion L kBZip2Compression format_version))
  else if compression_type =? kLZ4Compression then
    uncompressed "LZ4"
      (LZ4_Uncompress L data
         (GetCompressFormatForVersion L kLZ4Compression format_version)
         compression_dict)
  else if compression_type =? kLZ4HCCompression then
    uncompressed "LZ4HC"
      (LZ4_Uncompress L data
         (GetCompressFormatForVersion L kLZ4HCCompression format_version)
         compression_dict)
  else if compression_type =? kXpressCompression then
    uncompressed "XPRESS" (XPRESS_Uncompress L data)
  else if (compression_type =? kZSTD)
          || (compression_type =? kZSTDNotFinalCompression) then
    uncompressed "ZSTD" (ZSTD_Uncompress L data compression_dict)
  else (Status.Corruption "bad block type", None).

End WithLib.

End Compression.

(** ** The table builder: table/block_based_table_builder.cc,
       table/index_builder.cc *)

Module Builder.
Import Coding Format Checksum Compression.

(** *** What the builder is given *)

(** Modelled from the spec: [BlockBuilder] ([table/block_builder.h]) is
    not part of the sources at hand.  A block builder holds the entries
    added since the last [Reset]; how [Finish] lays them out is a
    function of the library record below. *)
Definition BlockBuilder : Type := list (bytes * bytes).

Definition BlockBuilder_Add (b : BlockBuilder) (key value : bytes)
  : BlockBuilder := b ++ [(key, value)].

Definition BlockBuilder_empty (b : BlockBuilder) : bool :=
  match b with [] => true | _ :: _ => false end.

Definition BlockBuilder_Reset : BlockBuilder := [].

(** [IndexBuilder::IndexBlocks] *)
Record IndexBlocks : Type := mkIndexBlocks {
  index_block_contents : bytes;
  meta_blocks : list (string * bytes)
}.

Inductive IndexType : Type :=
| kBinarySearch | kHashSearch | kTwoLevelIndexSearch.

Record FilterPolicy : Type := {
  filter_policy_Name : string;
  (** whether [GetFilterBitsBuilder()] gives a builder *)
  has_filter_bits_builder : bool
}.

(** The fields of [BlockBasedTableOptions] that the builder reads. *)
Record BlockBasedTableOptions : Type := mkBlockBasedTableOptions {
  format_version : Z;
  checksum : Z;
  verify_compression : bool;
  index_type : IndexType;
  partition_filters : bool;
  whole_key_filtering : bool;
  metadata_block_size : Z;
  block_size_deviation : Z;
  filter_policy : option FilterPolicy
}.

(** The fields of [ImmutableCFOptions] that the builder reads: the
    names of the plugged-in objects, [None] for a null pointer. *)
Record ImmutableCFOptions : Type := {
  user_comparator : option string;
  merge_operator : option string;
  prefix_extractor : option string;
  table_properties_collector_factories : list string
}.

Record TableProperties : Type := mkTableProperties {
  num_entries : Z;
  raw_key_size : Z;
  raw_value_size : Z;
  data_size : Z;
  num_data_blocks : Z;
  filter_size : Z;
  index_size : Z;
  column_family_id : Z;
  column_family_name : string;
  filter_policy_name : string;
  comparator_name : string;
  merge_operator_name : string;
  compression_name : string;
  prefix_extractor_name : string;
  property_collectors_names : string
}.

Definition set_num_entries (r : TableProperties) v : TableProperties :=
  mkTableProperties v (raw_key_size r) (raw_value_size r) (data_size r)
    (num_data_blocks r) (filter_size r) (index_size r) (column_family_id r)
    (column_family_name r) (filter_policy_name r) (comparator_name r)
    (merge_operator_name r) (compression_name r) (prefix_extractor_name r)
    (property_collectors_names r).
Definition set_raw_key_size (r : TableProperties) v : TableProperties :=
  mkTableProperties (num_entries r) v (raw_value_size r) (data_size r)
    (num_data_blocks r) (filter_size r) (index_size r) (column_family_id r)
    (column_family_name r) (filter_policy_name r) (comparator_name r)
    (merge_operator_name r) (compression_name r) (prefix_extractor_name r)
    (property_collectors_names r).
Definition set_raw_value_size (r : TableProperties) v : TableProperties :=
  mkTableProperties (num_entries r) (raw_key_size r) v (data_size r)
    (num_data_blocks r) (filter_size r) (index_size r) (column_family_id r)
    (column_family_name r) (filter_policy_name r) (comparator_name r)
    (merge_operator_name r) (compression_name r) (prefix_extractor_name r)
    (property_collectors_names r).
Definition set_data_size (r : TableProperties) v : TableProperties :=
  mkTableProperties (num_entries r) (raw_key_size r) (raw_value_size r) v
    (num_data_blocks r) (filter_size r) (index_size r) (column_family_id r)
    (column_family_name r) (filter_policy_name r) (comparator_name r)
    (merge_operator_name r) (compression_name r) (prefix_extractor_name r)
    (property_collectors_names r).
Definition set_num_data_blocks (r : TableProperties) v : TableProperties :=
  mkTableProperties (num_entries r) (raw_key_size r) (raw_value_size r)
    (data_size r) v (filter_size r) (index_size r) (column_family_id r)
    (column_family_name r) (filter_policy_name r) (comparator_name r)
    (merge_operator_name r) (compression_name r) (prefix_extractor_name r)
    (property_collectors_names r).
Definition set_filter_size (r : TableProperties) v : TableProperties :=
  mkTableProperties (num_entries r) (raw_key_size r) (raw_value_size r)
    (data_size r) (num_data_blocks r) v (index_size r) (column_family_id r)
    (column_family_name r) (filter_policy_name r) (comparator_name r)
    (merge_operator_name r) (compression_name r) (prefix_extractor_name r)
    (property_collectors_names r).
Definition set_index_size (r : TableProperties) v : TableProperties :=
  mkTableProperties (num_entries r) (raw_key_size r) (raw_value_size r)
    (data_size r) (num_data_blocks r) (filter_size r) v (column_family_id r)
    (column_family_name r) (filter_policy_name r) (comparator_name r)
    (merge_operator_name r) (compression_name r) (prefix_extractor_name r)
    (property_collectors_names r).
Definition set_column_family_id (r : TableProperties) v : TableProperties :=
  mkTableProperties (num_entries r) (raw_key_size r) (raw_value_size r)
    (data_size r) (num_data_blocks r) (filter_size r) (index_size r) v
    (column_family_name r) (filter_policy_name r) (comparator_name r)
    (merge_operator_name r) (compression_name r) (prefix_extractor_name r)
    (property_collectors_names r).
Definition set_column_family_name (r : TableProperties) v : TableProperties :=
  mkTableProperties (num_entries r) (raw_key_size r) (raw_value_size r)
    (data_size r) (num_data_blocks r) (filter_size r) (index_size r)
    (column_family_id r) v (filter_policy_name r) (comparator_name r)
    (merge_operator_name r) (compression_name r) (prefix_extractor_name r)
    (property_collectors_names r).
Definition set_filter_policy_name (r : TableProperties) v : TableProperties :=
  mkTableProperties (num_entries r) (raw_key_size r) (raw_value_size r)
    (data_size r) (num_data_blocks r) (filter_size r) (index_size r)
    (column_family_id r) (column_family_name r) v (comparator_name r)
    (merge_operator_name r) (compression_name r) (prefix_extractor_name r)
    (property_collectors_names r).
Definition set_comparator_name (r : TableProperties) v : TableProperties :=
  mkTableProperties (num_entries r) (raw_key_size r) (raw_value_size r)
    (data_size r) (num_data_blocks r) (filter_size r) (index_size r)
    (column_family_id r) (column_family_name r) (filter_policy_name r) v
    (merge_operator_name r) (compression_name r) (prefix_extractor_name r)
    (property_collectors_names r).
Definition set_merge_operator_name (r : TableProperties) v : TableProperties :=
  mkTableProperties (num_entries r) (raw_key_size r) (raw_value_size r)
    (data_size r) (num_data_blocks r) (filter_size r) (index_size r)
    (column_family_id r) (column_family_name r) (filter_policy_name r)
    (comparator_name r) v (compression_name r) (prefix_extractor_name r)
    (property_collectors_names r).
Definition set_compression_name (r : TableProperties) v : TableProperties :=
  mkTableProperties (num_entries r) (raw_key_size r) (raw_value_size r)
    (data_size r) (num_data_blocks r) (filter_size r) (index_size r)
    (column_family_id r) (column_family_name r) (filter_policy_name r)
    (comparator_name r) (merge_operator_name r) v (prefix_extractor_name r)
    (property_collectors_names r).
Definition set_prefix_extractor_name (r : TableProperties) v : TableProperties :=
  mkTableProperties (num_entries r) (raw_key_size r) (raw_value_size r)
    (data_size r) (num_data_blocks r) (filter_size r) (index_size r)
    (column_family_id r) (column_family_name r) (filter_policy_name r)
    (comparator_name r) (merge_operator_name r) (compression_name r) v
    (property_collectors_names r).
Definition set_property_collectors_names (r : TableProperties) v :
    TableProperties :=
  mkTableProperties (num_entries r) (raw_key_size r) (raw_value_size r)
    (data_size r) (num_data_blocks r) (filter_size r) (index_size r)
    (column_family_id r) (column_family_name r) (filter_policy_name r)
    (comparator_name r) (merge_operator_name r) (compression_name r)
    (prefix_extractor_name r) v.

(** A notification that the property collectors were given. *)
Record Collected : Type := {
  collected_key : bytes; collected_value : bytes; collected_file_size : Z
}.

(** Modelled from the spec: the parts of the engine that the builder
    calls and that are not part of the sources at hand: the layout of a
    block, the flush policies, the comparator's key shortening, the
    internal-key format, the property and meta-index blocks, the filter
    bits, and the constants declared in headers. *)
Record Lib : Type := {
  BlockBuilder_Finish : BlockBuilder -> bytes;
  BlockBuilder_CurrentSizeEstimate : BlockBuilder -> Z;
  FlushBlockPolicy_Update : BlockBuilder -> bytes -> bytes -> bool;
  FlushBlockBySizePolicy_Update :
    Z -> Z -> BlockBuilder -> bytes -> bytes -> bool;
  FindShortestSeparator : bytes -> bytes -> bytes;
  FindShortSuccessor : bytes -> bytes;
  ExtractValueType : bytes -> Z;
  IsValueType : Z -> bool;
  kTypeRangeDeletion : Z;
  ExtractUserKey : bytes -> bytes;
  kCompressionSizeLimit : Z;
  PropertyBlockBuilder_Finish : TableProperties -> list Collected -> bytes;
  MetaIndexBuilder_Finish : list (string * BlockHandle) -> bytes;
  CompressionTypeToString : Z -> string;
  FilterBitsBuilder_Finish : list bytes -> bytes;
  BlockBasedFilter_Finish : list Z -> list bytes -> bytes;
  HashIndexPrefixes : list bytes -> bytes;
  HashIndexPrefixesMetadata : list bytes -> bytes;
  kHashIndexPrefixesBlock : string;
  kHashIndexPrefixesMetadataBlock : string;
  kPropertiesBlock : string;
  kCompressionDictBlock : string;
  kRangeDelBlock : string
}.

Record Env : Type := {
  magic : MagicNumbers;
  cksum : Checksum.Lib;
  codec : Compression.Lib;
  lib : Lib
}.

(** Modelled from the spec: [WritableFileWriter]
    ([util/file_reader_writer.h]).  The file is the bytes appended so
    far; [faults] scripts the status of the appends to come, OK once the
    script is used up.  An append that fails adds nothing. *)
Record WritableFileWriter : Type := mkFile {
  written : bytes;
  faults : list Status.t
}.

Definition Append (f : WritableFileWriter) (data : bytes)
  : Status.t * WritableFileWriter :=
  match faults f with
  | [] => (Status.OK, mkFile (written f ++ data) [])
  | s :: rest =>
      if Status.ok s then (s, mkFile (written f ++ data) rest)
      else (s, mkFile (written f) rest)
  end.

(** Modelled from the spec: the compressed block cache, keyed by
    [cache_key_prefix ++ varint(offset)]; an entry is the block and its
    type. *)
Definition Cache : Type := list (bytes * (bytes * Z)).

Fixpoint bytes_eqb (a b : bytes) : bool :=
  match a, b with
  | [], [] => true
  | x :: a', y :: b' => Byte.eqb x y && bytes_eqb a' b'
  | _, _ => false
  end.

(** *** Index builders *)

(** Modelled from the spec: the flat index builder
    ([ShortenedIndexBuilder] of [table/index_builder.h]) appends
    [(shortened separator, handle)] to one growing index block, and its
    [Finish] is done in one call.  [AddIndexEntry] shortens the caller's
    key in place, which shows as the second component. *)
Record ShortenedIndexBuilder : Type := mkShortened {
  index_block_builder_ : BlockBuilder
}.

(** Modelled from the spec: the hash-assisted builder records the keys
    for its prefix table and hands the table out as two meta blocks. *)
Record HashIndexBuilder : Type := mkHash {
  primary_index_builder_ : ShortenedIndexBuilder;
  hash_keys : list bytes
}.

Record Entry : Type := mkEntry {
  key : bytes;
  value : ShortenedIndexBuilder
}.

(** The members of [PartitionedIndexBuilder] that index_builder.cc
    uses; the builder starts with [finishing_indexes = false]. *)
Record PartitionedIndexBuilder : Type := mkPartitioned {
  top_index_block_builder_ : BlockBuilder;
  sub_index_builder_ : option ShortenedIndexBuilder;
  entries_ : list Entry;
  sub_index_last_key_ : bytes;
  finishing_indexes : bool;
  cut_filter_block : bool;
  table_opt_ : BlockBasedTableOptions
}.

Inductive IndexBuilder : Type :=
| Shortened (b : ShortenedIndexBuilder)
| Hashed (b : HashIndexBuilder)
| Partitioned (b : PartitionedIndexBuilder).

(** *** Filter builders *)

Inductive FilterKind : Type :=
| BlockBasedFilter | FullFilter | PartitionedFilter.

(** Modelled from the spec: the three filter builders
    ([table/*filter_block.h]).  [Finish] is done in one call for the
    block-based and the full filter; the partitioned filter hands out
    one sealed partition per call, with Incomplete, and the index on the
    partitions at the end, with OK. *)
Record FilterBlockBuilder : Type := mkFilter {
  filter_kind : FilterKind;
  filter_starts : list Z;
  filter_keys : list bytes;
  filter_sealed : list bytes;
  filter_index : list BlockHandle;
  finishing_filters : bool
}.

Record Rep : Type := mkRep {
  table_options : BlockBasedTableOptions;
  ioptions : ImmutableCFOptions;
  file : WritableFileWriter;
  offset : Z;
  status : Status.t;
  data_block : BlockBuilder;
  range_del_block : BlockBuilder;
  index_builder : IndexBuilder;
  last_key : bytes;
  first_key : bytes;
  compression_type : Z;
  compression_opts : CompressionOptions;
  compression_dict : option bytes;
  props : TableProperties;
  closed : bool;
  filter_builder : option FilterBlockBuilder;
  compressed_cache_key_prefix : bytes;
  block_cache_compressed : option Cache;
  pending_handle : BlockHandle;
  compressed_output : bytes;
  column_family_id_ : Z;
  column_family_name_ : string;
  table_properties_collectors : list Collected
}.

Definition set_table_options (r : Rep) v : Rep :=
  mkRep v (ioptions r) (file r) (offset r) (status r) (data_block r)
    (range_del_block r) (index_builder r) (last_key r) (first_key r)
    (compression_type r) (compression_opts r) (compression_dict r) (props r)
    (closed r) (filter_builder r) (compressed_cache_key_prefix r)
    (block_cache_compressed r) (pending_handle r) (compressed_output r)
    (column_family_id_ r) (column_family_name_ r)
    (table_properties_collectors r).
Definition set_ioptions (r : Rep) v : Rep :=
  mkRep (table_options r) v (file r) (offset r) (status r) (data_block r)
    (range_del_block r) (index_builder r) (last_key r) (first_key r)
    (compression_type r) (compression_opts r) (compression_dict r) (props r)
    (closed r) (filter_builder r) (compressed_cache_key_prefix r)
    (block_cache_compressed r) (pending_handle r) (compressed_output r)
    (column_family_id_ r) (column_family_name_ r)
    (table_properties_collectors r).
Definition set_file (r : Rep) v : Rep :=
  mkRep (table_options r) (ioptions r) v (offset r) (status r) (data_block r)
    (range_del_block r) (index_builder r) (last_key r) (first_key r)
    (compression_type r) (compression_opts r) (compression_dict r) (props r)
    (closed r) (filter_builder r) (compressed_cache_key_prefix r)
    (block_cache_compressed r) (pending_handle r) (compressed_output r)
    (column_family_id_ r) (column_family_name_ r)
    (table_properties_collectors r).
Definition set_offset (r : Rep) v : Rep :=
  mkRep (table_options r) (ioptions r) (file r) v (status r) (data_block r)
    (range_del_block r) (index_builder r) (last_key r) (first_key r)
    (compression_type r) (compression_opts r) (compression_dict r) (props r)
    (closed r) (filter_builder r) (compressed_cache_key_prefix r)
    (block_cache_compressed r) (pending_handle r) (compressed_output r)
    (column_family_id_ r) (column_family_name_ r)
    (table_properties_collectors r).
Definition set_status (r : Rep) v : Rep :=
  mkRep (table_options r) (ioptions r) (file r) (offset r) v (data_block r)
    (range_del_block r) (index_builder r) (last_key r) (first_key r)
    (compression_type r) (compression_opts r) (compression_dict r) (props r)
    (closed r) (filter_builder r) (compressed_cache_key_prefix r)
    (block_cache_compressed r) (pending_handle r) (compressed_output r)
    (column_family_id_ r) (column_family_name_ r)
    (table_properties_collectors r).
Definition set_data_block (r : Rep) v : Rep :=
  mkRep (table_options r) (ioptions r) (file r) (offset r) (status r) v
    (range_del_block r) (index_builder r) (last_key r) (first_key r)
    (compression_type r) (compression_opts r) (compression_dict r) (props r)
    (closed r) (filter_builder r) (compressed_cache_key_prefix r)
    (block_cache_compressed r) (pending_handle r) (compressed_output r)
    (column_family_id_ r) (column_family_name_ r)
    (table_properties_collectors r).
Definition set_range_del_block (r : Rep) v : Rep :=
  mkRep (table_options r) (ioptions r) (file r) (offset r) (status r)
    (data_block r) v (index_builder r) (last_key r) (first_key r)
    (compression_type r) (compression_opts r) (compression_dict r) (props r)
    (closed r) (filter_builder r) (compressed_cache_key_prefix r)
    (block_cache_compressed r) (pending_handle r) (compressed_output r)
    (column_family_id_ r) (column_family_name_ r)
    (table_properties_collectors r).
Definition set_index_builder (r : Rep) v : Rep :=
  mkRep (table_options r) (ioptions r) (file r) (offset r) (status r)
    (data_block r) (range_del_block r) v (last_key r) (first_key r)
    (compression_type r) (compression_opts r) (compression_dict r) (props r)
    (closed r) (filter_builder r) (compressed_cache_key_prefix r)
    (block_cache_compressed r) (pending_handle r) (compressed_output r)
    (column_family_id_ r) (column_family_name_ r)
    (table_properties_collectors r).
Definition set_last_key (r : Rep) v : Rep :=
  mkRep (table_options r) (ioptions r) (file r) (offset r) (status r)
    (data_block r) (range_del_block r) (index_builder r) v (first_key r)
    (compression_type r) (compression_opts r) (compression_dict r) (props r)
    (closed r) (filter_builder r) (compressed_cache_key_prefix r)
    (block_cache_compressed r) (pending_handle r) (compressed_output r)
    (column_family_id_ r) (column_family_name_ r)
    (table_properties_collectors r).
Definition set_first_key (r : Rep) v : Rep :=
  mkRep (table_options r) (ioptions r) (file r) (offset r) (status r)
    (data_block r) (range_del_block r) (index_builder r) (last_key r) v
    (compression_type r) (compression_opts r) (compression_dict r) (props r)
    (closed r) (filter_builder r) (compressed_cache_key_prefix r)
    (block_cache_compressed r) (pending_handle r) (compressed_output r)
    (column_family_id_ r) (column_family_name_ r)
    (table_properties_collectors r).
Definition set_compression_type (r : Rep) v : Rep :=
  mkRep (table_options r) (ioptions r) (file r) (offset r) (status r)
    (data_block r) (range_del_block r) (index_builder r) (last_key r)
    (first_key r) v (compression_opts r) (compression_dict r) (props r)
    (closed r) (filter_builder r) (compressed_cache_key_prefix r)
    (block_cache_compressed r) (pending_handle r) (compressed_output r)
    (column_family_id_ r) (column_family_name_ r)
    (table_properties_collectors r).
Definition set_compression_opts (r : Rep) v : Rep :=
  mkRep (table_options r) (ioptions r) (file r) (offset r) (status r)
    (data_block r) (range_del_block r) (index_builder r) (last_key r)
    (first_key r) (compression_type r) v (compression_dict r) (props r)
    (closed r) (filter_builder r) (compressed_cache_key_prefix r)
    (block_cache_compressed r) (pending_handle r) (compressed_output r)
    (column_family_id_ r) (column_family_name_ r)
    (table_properties_collectors r).
Definition set_compression_dict (r : Rep) v : Rep :=
  mkRep (table_options r) (ioptions r) (file r) (offset r) (status r)
    (data_block r) (range_del_block r) (index_builder r) (last_key r)
    (first_key r) (compression_type r) (compression_opts r) v (props r)
    (closed r) (filter_builder r) (compressed_cache_key_prefix r)
    (block_cache_compressed r) (pending_handle r) (compressed_output r)
    (column_family_id_ r) (column_family_name_ r)
    (table_properties_collectors r).
Definition set_props (r : Rep) v : Rep :=
  mkRep (table_options r) (ioptions r) (file r) (offset r) (status r)
    (data_block r) (range_del_block r) (index_builder r) (last_key r)
    (first_key r) (compression_type r) (compression_opts r)
    (compression_dict r) v (closed r) (filter_builder r)
    (compressed_cache_key_prefix r) (block_cache_compressed r)
    (pending_handle r) (compressed_output r) (column_family_id_ r)
    (column_family_name_ r) (table_properties_collectors r).
Definition set_closed (r : Rep) v : Rep :=
  mkRep (table_options r) (ioptions r) (file r) (offset r) (status r)
    (data_block r) (range_del_block r) (index_builder r) (last_key r)
    (first_key r) (compression_type r) (compression_opts r)
    (compression_dict r) (props r) v (filter_builder r)
    (compressed_cache_key_prefix r) (block_cache_compressed r)
    (pending_handle r) (compressed_output r) (column_family_id_ r)
    (column_family_name_ r) (table_properties_collectors r).
Definition set_filter_builder (r : Rep) v : Rep :=
  mkRep (table_options r) (ioptions r) (file r) (offset r) (status r)
    (data_block r) (range_del_block r) (index_builder r) (last_key r)
    (first_key r) (compression_type r) (compression_opts r)
    (compression_dict r) (props r) (closed r) v (compressed_cache_key_prefix
    r) (block_cache_compressed r) (pending_handle r) (compressed_output r)
    (column_family_id_ r) (column_family_name_ r)
    (table_properties_collectors r).
Definition set_compressed_cache_key_prefix (r : Rep) v : Rep :=
  mkRep (table_options r) (ioptions r) (file r) (offset r) (status r)
    (data_block r) (range_del_block r) (index_builder r) (last_key r)
    (first_key r) (compression_type r) (compression_opts r)
    (compression_dict r) (props r) (closed r) (filter_builder r) v
    (block_cache_compressed r) (pending_handle r) (compressed_output r)
    (column_family_id_ r) (column_family_name_ r)
    (table_properties_collectors r).
Definition set_block_cache_compressed (r : Rep) v : Rep :=
  mkRep (table_options r) (ioptions r) (file r) (offset r) (status r)
    (data_block r) (range_del_block r) (index_builder r) (last_key r)
    (first_key r) (compression_type r) (compression_opts r)
    (compression_dict r) (props r) (closed r) (filter_builder r)
    (compressed_cache_key_prefix r) v (pending_handle r) (compressed_output
    r) (column_family_id_ r) (column_family_name_ r)
    (table_properties_collectors r).
Definition set_pending_handle (r : Rep) v : Rep :=
  mkRep (table_options r) (ioptions r) (file r) (offset r) (status r)
    (data_block r) (range_del_block r) (index_builder r) (last_key r)
    (first_key r) (compression_type r) (compression_opts r)
    (compression_dict r) (props r) (closed r) (filter_builder r)
    (compressed_cache_key_prefix r) (block_cache_compressed r) v
    (compressed_output r) (column_family_id_ r) (column_family_name_ r)
    (table_properties_collectors r).
Definition set_compressed_output (r : Rep) v : Rep :=
  mkRep (table_options r) (ioptions r) (file r) (offset r) (status r)
    (data_block r) (range_del_block r) (index_builder r) (last_key r)
    (first_key r) (compression_type r) (compression_opts r)
    (compression_dict r) (props r) (closed r) (filter_builder r)
    (compressed_cache_key_prefix r) (block_cache_compressed r)
    (pending_handle r) v (column_family_id_ r) (column_family_name_ r)
    (table_properties_collectors r).
Definition set_column_family_id_ (r : Rep) v : Rep :=
  mkRep (table_options r) (ioptions r) (file r) (offset r) (status r)
    (data_block r) (range_del_block r) (index_builder r) (last_key r)
    (first_key r) (compression_type r) (compression_opts r)
    (compression_dict r) (props r) (closed r) (filter_builder r)
    (compressed_cache_key_prefix r) (block_cache_compressed r)
    (pending_handle r) (compressed_output r) v (column_family_name_ r)
    (table_properties_collectors r).
Definition set_column_family_name_ (r : Rep) v : Rep :=
  mkRep (table_options r) (ioptions r) (file r) (offset r) (status r)
    (data_block r) (range_del_block r) (index_builder r) (last_key r)
    (first_key r) (compression_type r) (compression_opts r)
    (compression_dict r) (props r) (closed r) (filter_builder r)
    (compressed_cache_key_prefix r) (block_cache_compressed r)
    (pending_handle r) (compressed_output r) (column_family_id_ r) v
    (table_properties_collectors r).
Definition set_table_properties_collectors (r : Rep) v : Rep :=
  mkRep (table_options r) (ioptions r) (file r) (offset r) (status r)
    (data_block r) (range_del_block r) (index_builder r) (last_key r)
    (first_key r) (compression_type r) (compression_opts r)
    (compression_dict r) (props r) (closed r) (filter_builder r)
    (compressed_cache_key_prefix r) (block_cache_compressed r)
    (pending_handle r) (compressed_output r) (column_family_id_ r)
    (column_family_name_ r) v.

Section WithEnv.
Variable E : Env.

Definition ok (r : Rep) : bool := Status.ok (status r).

(** *** table/index_builder.cc *)

Definition ShortenedIndexBuilder_AddIndexEntry
           (b : ShortenedIndexBuilder) (last_key_in_current_block : bytes)
           (first_key_in_next_block : option bytes) (block_handle : BlockHandle)
  : ShortenedIndexBuilder * bytes :=
  let last_key :=
    match first_key_in_next_block with
    | Some next =>
        FindShortestSeparator (lib E) last_key_in_current_block next
    | None => FindShortSuccessor (lib E) last_key_in_current_block
    end in
  let handle_encoding := BlockHandle_EncodeTo block_handle [] in
  (mkShortened (BlockBuilder_Add (index_block_builder_ b) last_key
                                 handle_encoding),
   last_key).

Definition ShortenedIndexBuilder_Finish
           (b : ShortenedIndexBuilder) (index_blocks : IndexBlocks)
  : Status.t * IndexBlocks :=
  (Status.OK,
   mkIndexBlocks (BlockBuilder_Finish (lib E) (index_block_builder_ b))
                 (meta_blocks index_blocks)).

Definition ShortenedIndexBuilder_EstimatedSize (b : ShortenedIndexBuilder)
  : Z :=
  BlockBuilder_CurrentSizeEstimate (lib E) (index_block_builder_ b).

(** [MakeNewSubIndexBuilder]: a fresh flat builder; its flush policy
    goes by size over the block of that builder. *)
Definition MakeNewSubIndexBuilder : ShortenedIndexBuilder := mkShortened [].

Definition flush_policy_Update (b : PartitionedIndexBuilder)
           (sub : ShortenedIndexBuilder) (key value : bytes) : bool :=
  FlushBlockBySizePolicy_Update (lib E)
    (metadata_block_size (table_opt_ b)) (block_size_deviation (table_opt_ b))
    (index_block_builder_ sub) key value.

Definition PartitionedIndexBuilder_AddIndexEntry
           (b : PartitionedIndexBuilder) (last_key_in_current_block : bytes)
           (first_key_in_next_block : option bytes) (block_handle : BlockHandle)
  : PartitionedIndexBuilder * bytes :=
  match first_key_in_next_block with
  | None =>
      (* no more keys *)
      let sub :=
        match sub_index_builder_ b with
        | None => MakeNewSubIndexBuilder
        | Some sub => sub
        end in
      let '(sub, last_key) :=
        ShortenedIndexBuilder_AddIndexEntry sub last_key_in_current_block
                                            None block_handle in
      (mkPartitioned (top_index_block_builder_ b) None
                     (entries_ b ++ [mkEntry last_key sub])
                     last_key (finishing_indexes b) true (table_opt_ b),
       last_key)
  | Some next =>
      (* apply flush policy only to non-empty sub_index_builder_ *)
      let '(sub_index_builder, entries, cut) :=
        match sub_index_builder_ b with
        | Some sub =>
            let handle_encoding := BlockHandle_EncodeTo block_handle [] in
            let do_flush :=
              flush_policy_Update b sub last_key_in_current_block
                                  handle_encoding in
            if do_flush
            then (None, entries_ b ++ [mkEntry (sub_index_last_key_ b) sub],
                  true)
            else (Some sub, entries_ b, cut_filter_block b)
        | None => (None, entries_ b, cut_filter_block b)
        end in
      let sub :=
        match sub_index_builder with
        | None => MakeNewSubIndexBuilder
        | Some sub => sub
        end in
      let '(sub, last_key) :=
        ShortenedIndexBuilder_AddIndexEntry sub last_key_in_current_block
                                            (Some next) block_handle in
      (mkPartitioned (top_index_block_builder_ b) (Some sub) entries
                     last_key (finishing_indexes b) cut (table_opt_ b),
       last_key)
  end.

(** The two assertions that open [PartitionedIndexBuilder::Finish]. *)
Definition PartitionedIndexBuilder_Finish_asserts
           (b : PartitionedIndexBuilder) : bool :=
  negb (match entries_ b with [] => true | _ => false end)
  && match sub_index_builder_ b with None => true | Some _ => false end.

(** [PartitionedIndexBuilder::Finish(index_blocks,
    last_partition_block_handle)].  [entries_.front()] of an empty list
    is behind the first assertion; the model leaves the builder as it
    is there. *)
Definition PartitionedIndexBuilder_Finish
           (b : PartitionedIndexBuilder) (index_blocks : IndexBlocks)
           (last_partition_block_handle : BlockHandle)
  : Status.t * IndexBlocks * PartitionedIndexBuilder :=
  let b :=
    if finishing_indexes b then
      match entries_ b with
      | last_entry :: rest =>
          let handle_encoding :=
            BlockHandle_EncodeTo last_partition_block_handle [] in
          mkPartitioned
            (BlockBuilder_Add (top_index_block_builder_ b) (key last_entry)
                              handle_encoding)
            (sub_index_builder_ b) rest (sub_index_last_key_ b)
            (finishing_indexes b) (cut_filter_block b) (table_opt_ b)
      | [] => b
      end
    else b in
  (* If there is no sub_index left, then return the 2nd level index. *)
  match entries_ b with
  | [] =>
      (Status.OK,
       mkIndexBlocks (BlockBuilder_Finish (lib E) (top_index_block_builder_ b))
                     (meta_blocks index_blocks),
       b)
  | entry :: _ =>
      (* Finish the next partition index in line and Incomplete() to
         indicate we expect more calls to Finish *)
      let '(s, index_blocks) :=
        ShortenedIndexBuilder_Finish (value entry) index_blocks in
      let b :=
        mkPartitioned (top_index_block_builder_ b) (sub_index_builder_ b)
                      (entries_ b) (sub_index_last_key_ b) true
                      (cut_filter_block b) (table_opt_ b) in
      (if Status.ok s then Status.Incomplete else s, index_blocks, b)
  end.

Definition PartitionedIndexBuilder_EstimatedSize
           (b : PartitionedIndexBuilder) : Z :=
  let total :=
    fold_left
      (fun total e => wrap64 (total + ShortenedIndexBuilder_EstimatedSize (value e)))
      (entries_ b) 0 in
  let total :=
    wrap64 (total + BlockBuilder_CurrentSizeEstimate
                      (lib E) (top_index_block_builder_ b)) in
  wrap64 (total + match sub_index_builder_ b with
                  | None => 0
                  | Some sub => ShortenedIndexBuilder_EstimatedSize sub
                  end).

(** [ShouldCutFilterBlock()]: reads the request and clears it. *)
Definition ShouldCutFilterBlock (b : PartitionedIndexBuilder)
  : bool * PartitionedIndexBuilder :=
  if cut_filter_block b
  then (true,
        mkPartitioned (top_index_block_builder_ b) (sub_index_builder_ b)
                      (entries_ b) (sub_index_last_key_ b)
                      (finishing_indexes b) false (table_opt_ b))
  else (false, b).

(** The virtual calls on [r->index_builder]. *)
Definition IndexBuilder_AddIndexEntry
           (ib : IndexBuilder) (last_key_in_current_block : bytes)
           (first_key_in_next_block : option bytes) (block_handle : BlockHandle)
  : IndexBuilder * bytes :=
  match ib with
  | Shortened b =>
      let '(b, k) :=
        ShortenedIndexBuilder_AddIndexEntry
          b last_key_in_current_block first_key_in_next_block block_handle in
      (Shortened b, k)
  | Hashed b =>
      let '(p, k) :=
        ShortenedIndexBuilder_AddIndexEntry
          (primary_index_builder_ b) last_key_in_current_block
          first_key_in_next_block block_handle in
      (Hashed (mkHash p (hash_keys b)), k)
  | Partitioned b =>
      let '(b, k) :=
        PartitionedIndexBuilder_AddIndexEntry
          b last_key_in_current_block first_key_in_next_block block_handle in
      (Partitioned b, k)
  end.

Definition IndexBuilder_OnKeyAdded (ib : IndexBuilder) (k : bytes)
  : IndexBuilder :=
  match ib with
  | Hashed b => Hashed (mkHash (primary_index_builder_ b) (hash_keys b ++ [k]))
  | _ => ib
  end.

Definition IndexBuilder_Finish
           (ib : IndexBuilder) (index_blocks : IndexBlocks)
           (last_partition_block_handle : BlockHandle)
  : Status.t * IndexBlocks * IndexBuilder :=
  match ib with
  | Shortened b =>
      let '(s, index_blocks) := ShortenedIndexBuilder_Finish b index_blocks in
      (s, index_blocks, ib)
  | Hashed b =>
      let '(s, index_blocks) :=
        ShortenedIndexBuilder_Finish (primary_index_builder_ b) index_blocks in
      (s,
       mkIndexBlocks
         (index_block_contents index_blocks)
         (meta_blocks index_blocks
            ++ [(kHashIndexPrefixesBlock (lib E),
                 HashIndexPrefixes (lib E) (hash_keys b));
                (kHashIndexPrefixesMetadataBlock (lib E),
                 HashIndexPrefixesMetadata (lib E) (hash_keys b))]),
       ib)
  | Partitioned b =>
      let '(s, index_blocks, b) :=
        PartitionedIndexBuilder_Finish b index_blocks
                                       last_partition_block_handle in
      (s, index_blocks, Partitioned b)
  end.

(** The [Finish] of one argument: the first call, with a handle that
    was never set. *)
Definition IndexBuilder_Finish_first
           (ib : IndexBuilder) (index_blocks : IndexBlocks)
  : Status.t * IndexBlocks * IndexBuilder :=
  IndexBuilder_Finish ib index_blocks BlockHandle_new.

Definition IndexBuilder_EstimatedSize (ib : IndexBuilder) : Z :=
  match ib with
  | Shortened b => ShortenedIndexBuilder_EstimatedSize b
  | Hashed b =>
      wrap64 (ShortenedIndexBuilder_EstimatedSize (primary_index_builder_ b)
              + size (HashIndexPrefixes (lib E) (hash_keys b))
              + size (HashIndexPrefixesMetadata (lib E) (hash_keys b)))
  | Partitioned b => PartitionedIndexBuilder_EstimatedSize b
  end.

(** The calls of [Finish] that a builder may still answer with
    Incomplete. *)
Definition IndexBuilder_partitions (ib : IndexBuilder) : nat :=
  match ib with
  | Partitioned b => List.length (entries_ b)
  | _ => O
  end.

Definition CreateIndexBuilder (table_opt : BlockBasedTableOptions)
  : IndexBuilder :=
  match index_type table_opt with
  | kBinarySearch => Shortened (mkShortened [])
  | kHashSearch => Hashed (mkHash (mkShortened []) [])
  | kTwoLevelIndexSearch =>
      Partitioned (mkPartitioned [] None [] [] false false table_opt)
  end.

(** *** Filter builders *)

Definition FilterBlockBuilder_StartBlock (fb : FilterBlockBuilder)
           (block_offset : Z) : FilterBlockBuilder :=
  mkFilter (filter_kind fb) (filter_starts fb ++ [block_offset])
           (filter_keys fb) (filter_sealed fb) (filter_index fb)
           (finishing_filters fb).

(** The partitioned filter cuts a partition when the partitioned index
    builder has asked for it. *)
Definition FilterBlockBuilder_Add (fb : FilterBlockBuilder)
           (ib : IndexBuilder) (k : bytes)
  : FilterBlockBuilder * IndexBuilder :=
  match filter_kind fb, ib with
  | PartitionedFilter, Partitioned pib =>
      let '(cut, pib) := ShouldCutFilterBlock pib in
      if cut then
        (mkFilter (filter_kind fb) (filter_starts fb) [k]
                  (filter_sealed fb
                     ++ [FilterBitsBuilder_Finish (lib E) (filter_keys fb)])
                  (filter_index fb) (finishing_filters fb),
         Partitioned pib)
      else
        (mkFilter (filter_kind fb) (filter_starts fb) (filter_keys fb ++ [k])
                  (filter_sealed fb) (filter_index fb) (finishing_filters fb),
         Partitioned pib)
  | _, _ =>
      (mkFilter (filter_kind fb) (filter_starts fb) (filter_keys fb ++ [k])
                (filter_sealed fb) (filter_index fb) (finishing_filters fb),
       ib)
  end.

Definition FilterBlockBuilder_Finish (fb : FilterBlockBuilder)
           (last_partition_block_handle : BlockHandle)
  : bytes * Status.t * FilterBlockBuilder :=
  match filter_kind fb with
  | BlockBasedFilter =>
      (BlockBasedFilter_Finish (lib E) (filter_starts fb) (filter_keys fb),
       Status.OK, fb)
  | FullFilter =>
      (FilterBitsBuilder_Finish (lib E) (filter_keys fb), Status.OK, fb)
  | PartitionedFilter =>
      let fb :=
        if finishing_filters fb then
          mkFilter (filter_kind fb) (filter_starts fb) (filter_keys fb)
                   (tl (filter_sealed fb))
                   (filter_index fb ++ [last_partition_block_handle])
                   true
        else
          match filter_keys fb with
          | [] => fb
          | _ :: _ =>
              mkFilter (filter_kind fb) (filter_starts fb) []
                       (filter_sealed fb
                          ++ [FilterBitsBuilder_Finish (lib E) (filter_keys fb)])
                       (filter_index fb) false
          end in
      match filter_sealed fb with
      | [] =>
          (if finishing_filters fb
           then BlockBuilder_Finish (lib E)
                  (map (fun h => ([], BlockHandle_EncodeTo h []))
                       (filter_index fb))
           else [],
           Status.OK, fb)
      | partition :: _ =>
          (partition, Status.Incomplete,
           mkFilter (filter_kind fb) (filter_starts fb) (filter_keys fb)
                    (filter_sealed fb) (filter_index fb) true)
      end
  end.

Definition FilterBlockBuilder_IsBlockBased (fb : FilterBlockBuilder) : bool :=
  match filter_kind fb with BlockBasedFilter => true | _ => false end.

(** [CreateFilterBlockBuilder] *)
Definition CreateFilterBlockBuilder (table_opt : BlockBasedTableOptions)
  : option FilterBlockBuilder :=
  match filter_policy table_opt with
  | None => None
  | Some policy =>
      let kind :=
        if negb (has_filter_bits_builder policy) then BlockBasedFilter
        else if partition_filters table_opt then PartitionedFilter
        else FullFilter in
      Some (mkFilter kind [] [] [] [] false)
  end.

(** *** Writing blocks *)

(** [InsertBlockInCache] *)
Definition InsertBlockInCache (r : Rep) (block_contents : bytes) (type : Z)
           (handle : BlockHandle) : Status.t * Rep :=
  match block_cache_compressed r with
  | Some cache =>
      if negb (type =? kNoCompression) then
        let size := size block_contents in
        if negb (base_malloc (codec E) (size + 1)) then (Status.MemoryLimit, r)
        else
          (* make cache key by appending the file offset to the cache
             prefix id *)
          let key :=
            compressed_cache_key_prefix r ++ EncodeVarint64 (offset_ handle) in
          (Status.OK,
           set_block_cache_compressed
             r (Some ((key, (block_contents, type)) :: cache)))
      else (Status.OK, r)
  | None => (Status.OK, r)
  end.

(** The four checksum bytes of a trailer.  [kNoChecksum] falls through
    to CRC32C behind an [assert(false)]; for a value outside the
    enumeration the [switch] stores nothing and the bytes are
    indeterminate, which the model shows as zeroes. *)
Definition trailer_checksum (checksum : Z) (block_contents : bytes)
           (trailer0 : byte) : bytes :=
  if (checksum =? kNoChecksum) || (checksum =? kCRC32c) then
    let crc := wrap32 (crc32c_Value (cksum E) block_contents) in
    (* Extend to cover block type *)
    let crc := wrap32 (crc32c_Extend (cksum E) crc [trailer0]) in
    EncodeFixed32 (wrap32 (crc32c_Mask (cksum E) crc))
  else if checksum =? kxxHash then
    let xxh := XXH32_init 0 in
    let xxh :=
      XXH32_update
        xxh (firstn (Z.to_nat (wrap32 (size block_contents))) block_contents) in
    let xxh := XXH32_update xxh [trailer0] in
    EncodeFixed32 (wrap32 (XXH32_digest (cksum E) xxh))
  else repeat Byte.x00 4.

(** [WriteRawBlock]: the builder after the call and the handle that it
    filled in. *)
Definition WriteRawBlock (r : Rep) (block_contents : bytes) (type : Z)
  : Rep * BlockHandle :=
  let handle := mkBlockHandle (offset r) (size block_contents) in
  let '(s, f) := Append (file r) block_contents in
  let r := set_status (set_file r f) s in
  if Status.ok (status r) then
    let trailer0 := byte.of_Z type in
    let trailer :=
      trailer0
        :: trailer_checksum (checksum (table_options r)) block_contents
                            trailer0 in
    let '(s, f) := Append (file r) trailer in
    let r := set_status (set_file r f) s in
    let r :=
      if Status.ok (status r) then
        let '(s, r) := InsertBlockInCache r block_contents type handle in
        set_status r s
      else r in
    let r :=
      if Status.ok (status r)
      then set_offset r (wrap64 (offset r + size block_contents
                                 + kBlockTrailerSize))
      else r in
    (r, handle)
  else (r, handle).

(** [WriteBlock(const Slice&, BlockHandle*, bool)] *)
Definition WriteBlock (r : Rep) (raw_block_contents : bytes)
           (is_data_block : bool) : Rep * BlockHandle :=
  let type := compression_type r in
  let '(r, block_contents, type, abort_compression) :=
    if size raw_block_contents <? kCompressionSizeLimit (lib E) then
      let compression_dict :=
        match compression_dict r with
        | Some dict =>
            if is_data_block && negb (size dict =? 0) then dict else []
        | None => []
        end in
      let '(block_contents, type) :=
        CompressBlock (codec E) raw_block_contents (compression_opts r) type
                      (format_version (table_options r)) compression_dict in
      (* Some of the compression algorithms are known to be unreliable.
         If the verify_compression flag is set then try to de-compress
         the compressed data and compare to the input. *)
      if negb (type =? kNoCompression)
         && verify_compression (table_options r) then
        let '(stat, contents) :=
          UncompressBlockContentsForCompressionType
            (codec E) block_contents (format_version (table_options r))
            compression_dict type in
        if Status.ok stat then
          let compressed_ok :=
            match contents with
            | Some data => bytes_eqb data raw_block_contents
            | None => false
            end in
          if negb compressed_ok then
            (* The result of the compression was invalid. abort. *)
            (set_status
               r (Status.Corruption "Decompressed block did not match raw block"),
             block_contents, type, true)
          else (r, block_contents, type, false)
        else
          (* Decompression reported an error. abort. *)
          (set_status r (Status.Corruption "Could not decompress"),
           block_contents, type, true)
      else (r, block_contents, type, false)
    else
      (* Block is too big to be compressed. *)
      (r, [], type, true) in
  (* Abort compression if the block is too big, or did not pass
     verification. *)
  let '(type, block_contents) :=
    if abort_compression then (kNoCompression, raw_block_contents)
    else (type, block_contents) in
  let '(r, handle) := WriteRawBlock r block_contents type in
  (set_compressed_output r [], handle).

(** The assertion that opens [WriteBlock]. *)
Definition WriteBlock_assert (r : Rep) : bool := ok r.

(** [Flush] *)
Definition Flush (r : Rep) : Rep :=
  if negb (ok r) then r
  else if BlockBuilder_empty (data_block r) then r
  else
    let '(r, handle) :=
      WriteBlock r (BlockBuilder_Finish (lib E) (data_block r)) true in
    let r := set_data_block (set_pending_handle r handle) BlockBuilder_Reset in
    let r :=
      match filter_builder r with
      | Some fb =>
          set_filter_builder r (Some (FilterBlockBuilder_StartBlock fb (offset r)))
      | None => r
      end in
    let r := set_props r (set_data_size (props r) (offset r)) in
    set_props r (set_num_data_blocks
                   (props r) (wrap64 (num_data_blocks (props r) + 1))).

Definition NotifyCollectTableCollectorsOnAdd (r : Rep) (k v : bytes) : Rep :=
  set_table_properties_collectors
    r (table_properties_collectors r
         ++ [{| collected_key := k; collected_value := v;
                collected_file_size := offset r |}]).

Definition count_entry (r : Rep) (k v : bytes) : Rep :=
  let p := props r in
  let p := set_num_entries p (wrap64 (num_entries p + 1)) in
  let p := set_raw_key_size p (wrap64 (raw_key_size p + size k)) in
  let p := set_raw_value_size p (wrap64 (raw_value_size p + size v)) in
  set_props r p.

(** [Add]: the code that it returns and the builder after the call. *)
Definition Add (r : Rep) (k v : bytes) : Status.Code * Rep :=
  if negb (ok r) then (Status.code (status r), r)
  else
    let value_type := ExtractValueType (lib E) k in
    if IsValueType (lib E) value_type then
      let r :=
        if 0 <? num_entries (props r) then r
        else if num_entries (props r) =? 0 then set_first_key r k
        else r in
      let should_flush := FlushBlockPolicy_Update (lib E) (data_block r) k v in
      let r :=
        if should_flush then
          let r := Flush r in
          (* Add item to index block. *)
          if ok r then
            let '(ib, last_key) :=
              IndexBuilder_AddIndexEntry (index_builder r) (last_key r)
                                         (Some k) (pending_handle r) in
            set_first_key (set_last_key (set_index_builder r ib) last_key) k
          else r
        else r in
      let r :=
        match filter_builder r with
        | Some fb =>
            let '(fb, ib) :=
              FilterBlockBuilder_Add fb (index_builder r)
                                     (ExtractUserKey (lib E) k) in
            set_index_builder (set_filter_builder r (Some fb)) ib
        | None => r
        end in
      let r := set_last_key r k in
      let r := set_data_block r (BlockBuilder_Add (data_block r) k v) in
      let r := count_entry r k v in
      let r :=
        set_index_builder r (IndexBuilder_OnKeyAdded (index_builder r) k) in
      (Status.kOk, NotifyCollectTableCollectorsOnAdd r k v)
    else if value_type =? kTypeRangeDeletion (lib E) then
      let r :=
        set_range_del_block r (BlockBuilder_Add (range_del_block r) k v) in
      let r := count_entry r k v in
      (Status.kOk, NotifyCollectTableCollectorsOnAdd r k v)
    else (Status.kOk, r).

(** *** Finish *)

(** The filter block: [while (s.IsIncomplete())] of lines 649-654.  The
    first argument bounds the rounds; the partitioned filter leaves the
    loop after one round per sealed partition and one more. *)
Fixpoint WriteFilterBlocks (rounds : nat) (r : Rep) (fb : FilterBlockBuilder)
         (filter_block_handle : BlockHandle) : Rep * BlockHandle :=
  match rounds with
  | O => (set_filter_builder r (Some fb), filter_block_handle)
  | S rounds' =>
      let '(filter_content, s, fb) :=
        FilterBlockBuilder_Finish fb filter_block_handle in
      let r :=
        set_props r (set_filter_size
                       (props r)
                       (wrap64 (filter_size (props r) + size filter_content))) in
      let '(r, filter_block_handle) :=
        WriteRawBlock r filter_content kNoCompression in
      if Status.IsIncomplete s
      then WriteFilterBlocks rounds' r fb filter_block_handle
      else (set_filter_builder r (Some fb), filter_block_handle)
  end.

Definition filter_rounds (fb : FilterBlockBuilder) : nat :=
  S (S (List.length (filter_sealed fb))).

(** [for (const auto& item : index_blocks.meta_blocks)] *)
Fixpoint WriteMetaBlocks (r : Rep) (items : list (string * bytes))
         (meta_index_builder : list (string * BlockHandle))
  : Rep * list (string * BlockHandle) :=
  match items with
  | [] => (r, meta_index_builder)
  | item :: items' =>
      let '(r, block_handle) := WriteBlock r (snd item) false in
      WriteMetaBlocks r items' (meta_index_builder ++ [(fst item, block_handle)])
  end.

Definition property_collectors_names_of (names : list string) : string :=
  String.append "[" (String.append (String.concat "," names) "]").

Definition name_or_nullptr (n : option string) : string :=
  match n with Some s => s | None => "nullptr" end.

(** The properties that [Finish] fills in before it writes the
    properties block. *)
Definition FinishProperties (r : Rep) : Rep :=
  let p := props r in
  let p := set_column_family_id p (column_family_id_ r) in
  let p := set_column_family_name p (column_family_name_ r) in
  let p :=
    set_filter_policy_name
      p match filter_policy (table_options r) with
        | Some policy => filter_policy_Name policy
        | None => EmptyString
        end in
  let p :=
    set_index_size
      p (wrap64 (IndexBuilder_EstimatedSize (index_builder r)
                 + kBlockTrailerSize)) in
  let p := set_comparator_name p (name_or_nullptr (user_comparator (ioptions r))) in
  let p :=
    set_merge_operator_name p (name_or_nullptr (merge_operator (ioptions r))) in
  let p :=
    set_compression_name p (CompressionTypeToString (lib E) (compression_type r)) in
  let p :=
    set_prefix_extractor_name
      p (name_or_nullptr (prefix_extractor (ioptions r))) in
  let p :=
    set_property_collectors_names
      p (property_collectors_names_of
           (table_properties_collector_factories (ioptions r))) in
  set_props r p.

Definition kFilterBlockPrefix : string := "filter.".
Definition kFullFilterBlockPrefix : string := "fullfilter.".
Definition kPartitionedFilterBlockPrefix : string := "partitionedfilter.".

(** The index partitions: [while (s.IsIncomplete())] of lines 772-780.
    The result is an early [return s.code()] if there was one, the
    builder, the last index handle, and the statuses that the index
    builder returned, in order. *)
Fixpoint WriteIndexPartitions (rounds : nat) (r : Rep)
         (index_blocks : IndexBlocks) (index_block_handle : BlockHandle)
         (s : Status.t)
  : option Status.Code * Rep * BlockHandle * list Status.t :=
  match rounds with
  | O => (None, r, index_block_handle, [])
  | S rounds' =>
      if Status.IsIncomplete s then
        let '(s, index_blocks, ib) :=
          IndexBuilder_Finish (index_builder r) index_blocks
                              index_block_handle in
        let r := set_index_builder r ib in
        if negb (Status.ok s) && negb (Status.IsIncomplete s)
        then (Some (Status.code s), r, index_block_handle, [s])
        else
          let '(r, index_block_handle) :=
            WriteBlock r (index_block_contents index_blocks) false in
          (* The last index_block_handle will be for the partition
             index block *)
          let '(ret, r, index_block_handle, statuses) :=
            WriteIndexPartitions rounds' r index_blocks index_block_handle s in
          (ret, r, index_block_handle, s :: statuses)
      else (None, r, index_block_handle, [])
  end.

(** The footer that [Finish] writes. *)
Definition MakeFooter (table_options : BlockBasedTableOptions)
           (metaindex_block_handle index_block_handle : BlockHandle) : Footer :=
  let legacy := format_version table_options =? 0 in
  let footer :=
    Footer_new (if legacy then kLegacyBlockBasedTableMagicNumber
                else kBlockBasedTableMagicNumber)
               (format_version table_options) in
  let footer := set_metaindex_handle footer metaindex_block_handle in
  let footer := set_index_handle footer index_block_handle in
  set_checksum footer (checksum table_options).

(** The assertion in front of the footer: "this is guaranteed by
    BlockBasedTableBuilder's constructor". *)
Definition Finish_footer_assert (r : Rep) : bool :=
  (checksum (table_options r) =? kCRC32c)
  || negb (format_version (table_options r) =? 0).

Definition WriteFooter (r : Rep)
           (metaindex_block_handle index_block_handle : BlockHandle) : Rep :=
  let footer :=
    MakeFooter (table_options r) metaindex_block_handle index_block_handle in
  let footer_encoding := Footer_EncodeTo (magic E) footer [] in
  let '(s, f) := Append (file r) footer_encoding in
  let r := set_status (set_file r f) s in
  if Status.ok (status r)
  then set_offset r (wrap64 (offset r + size footer_encoding))
  else r.

(** The start of [Finish]: the last data block is flushed, the builder
    is closed, and the index entry of the last block is added. *)
Definition Finish_data (r : Rep) : Rep :=
  let empty_data_block := BlockBuilder_empty (data_block r) in
  let r := Flush r in
  let r := set_closed r true in
  (* To make sure properties block is able to keep the accurate size of
     index block, we will finish writing all index entries here and
     flush them to storage after metaindex block is written. *)
  let r :=
    if ok r && negb empty_data_block then
      let '(ib, last_key) :=
        IndexBuilder_AddIndexEntry (index_builder r) (last_key r) None
                                   (pending_handle r) in
      set_last_key (set_index_builder r ib) last_key
    else r in
  set_first_key r [].

(** Write filter block *)
Definition Finish_filter (r : Rep) : Rep * BlockHandle :=
  let filter_block_handle := BlockHandle_new in
  match filter_builder r with
  | Some fb =>
      if ok r
      then WriteFilterBlocks (filter_rounds fb) r fb filter_block_handle
      else (r, filter_block_handle)
  | None => (r, filter_block_handle)
  end.

(** Write meta blocks: the meta blocks of the index builder, then, if
    the builder is ok, the properties, the compression dictionary and
    the range deletions.  The result has the entries of the meta-index
    block. *)
Definition Finish_meta (r : Rep) (index_blocks : IndexBlocks)
           (filter_block_handle : BlockHandle)
  : Rep * list (string * BlockHandle) :=
  let '(r, meta_index_builder) :=
    WriteMetaBlocks r (meta_blocks index_blocks) [] in
  if ok r then
    let meta_index_builder :=
      match filter_builder r with
      | Some fb =>
          (* Add mapping from "<filter_block_prefix>.Name" to location
             of filter data. *)
          let prefix :=
            if FilterBlockBuilder_IsBlockBased fb then kFilterBlockPrefix
            else if partition_filters (table_options r)
            then kPartitionedFilterBlockPrefix
            else kFullFilterBlockPrefix in
          meta_index_builder
            ++ [(String.append
                   prefix
                   match filter_policy (table_options r) with
                   | Some policy => filter_policy_Name policy
                   | None => EmptyString
                   end,
                 filter_block_handle)]
      | None => meta_index_builder
      end in
    (* Write properties and compression dictionary blocks. *)
    let r := FinishProperties r in
    let '(r, properties_block_handle) :=
      WriteRawBlock
        r (PropertyBlockBuilder_Finish (lib E) (props r)
             (table_properties_collectors r))
        kNoCompression in
    let meta_index_builder :=
      meta_index_builder
        ++ [(kPropertiesBlock (lib E), properties_block_handle)] in
    (* Write compression dictionary block *)
    let '(r, meta_index_builder) :=
      match compression_dict r with
      | Some dict =>
          if negb (size dict =? 0) then
            let '(r, compression_dict_block_handle) :=
              WriteRawBlock r dict kNoCompression in
            (r, meta_index_builder
                  ++ [(kCompressionDictBlock (lib E),
                       compression_dict_block_handle)])
          else (r, meta_index_builder)
      | None => (r, meta_index_builder)
      end in
    (* range deletion tombstone meta block *)
    if ok r && negb (BlockBuilder_empty (range_del_block r)) then
      let '(r, range_del_block_handle) :=
        WriteRawBlock r (BlockBuilder_Finish (lib E) (range_del_block r))
                      kNoCompression in
      (r, meta_index_builder
            ++ [(kRangeDelBlock (lib E), range_del_block_handle)])
    else (r, meta_index_builder)
  else (r, meta_index_builder).

(** Write index block: the meta-index block, the index block, and the
    index partitions that are left. *)
Definition Finish_index (rounds : nat) (r : Rep)
           (meta_index_builder : list (string * BlockHandle))
           (index_blocks : IndexBlocks) (index_builder_status : Status.t)
  : option Status.Code * Rep * BlockHandle * BlockHandle * list Status.t :=
  if ok r then
    (* flush the meta index block *)
    let '(r, metaindex_block_handle) :=
      WriteRawBlock r (MetaIndexBuilder_Finish (lib E) meta_index_builder)
                    kNoCompression in
    let '(r, index_block_handle) :=
      WriteBlock r (index_block_contents index_blocks) false in
    (* If there are more index partitions, finish them and write them
       out *)
    let '(ret, r, index_block_handle, statuses) :=
      WriteIndexPartitions rounds r index_blocks index_block_handle
                           index_builder_status in
    (ret, r, metaindex_block_handle, index_block_handle, statuses)
  else (None, r, BlockHandle_new, BlockHandle_new, []).

(** [Finish] up to the footer: an early [return] if there was one, the
    builder, the handles of the meta-index and of the index block, and
    the statuses that the index builder returned, in order. *)
Definition Finish_blocks (r : Rep)
  : option Status.Code * Rep * BlockHandle * BlockHandle * list Status.t :=
  let r := Finish_data r in
  let '(r, filter_block_handle) := Finish_filter r in
  let rounds := S (IndexBuilder_partitions (index_builder r)) in
  let '(index_builder_status, index_blocks, ib) :=
    IndexBuilder_Finish_first (index_builder r) (mkIndexBlocks [] []) in
  let r := set_index_builder r ib in
  if negb (Status.IsIncomplete index_builder_status)
     && negb (Status.ok index_builder_status)
  then (Some (Status.code index_builder_status), r, BlockHandle_new,
        BlockHandle_new, [index_builder_status])
  else
    let '(r, meta_index_builder) :=
      Finish_meta r index_blocks filter_block_handle in
    let '(ret, r, metaindex_block_handle, index_block_handle, statuses) :=
      Finish_index rounds r meta_index_builder index_blocks
                   index_builder_status in
    (ret, r, metaindex_block_handle, index_block_handle,
     index_builder_status :: statuses).

(** [Finish]: the code that it returns, the builder after the call, and
    the statuses that the index builder returned, in order. *)
Definition Finish_traced (r : Rep) : Status.Code * Rep * list Status.t :=
  let '(ret, r, metaindex_block_handle, index_block_handle, statuses) :=
    Finish_blocks r in
  match ret with
  | Some c => (c, r, statuses)
  | None =>
      (* Write footer *)
      let r :=
        if ok r
        then WriteFooter r metaindex_block_handle index_block_handle
        else r in
      (Status.code (status r), r, statuses)
  end.

Definition Finish (r : Rep) : Status.Code * Rep :=
  let '(c, r, _) := Finish_traced r in (c, r).

(** [Abandon] *)
Definition Abandon (r : Rep) : Status.Code * Rep :=
  (Status.kOk, set_closed r true).

Definition NumEntries (r : Rep) : Z := num_entries (props r).
Definition FileSize (r : Rep) : Z := offset r.

(** *** The constructor *)

(** The sanitizing of the table options in the constructor of
    [BlockBasedTableBuilder]. *)
Definition sanitized_table_options (table_options : BlockBasedTableOptions)
  : BlockBasedTableOptions :=
  if (format_version table_options =? 0)
     && negb (checksum table_options =? kCRC32c)
  then
    (* silently convert format_version to 1 to keep consistent with
       current behavior *)
    mkBlockBasedTableOptions
      1 (checksum table_options) (verify_compression table_options)
      (index_type table_options) (partition_filters table_options)
      (whole_key_filtering table_options) (metadata_block_size table_options)
      (block_size_deviation table_options) (filter_policy table_options)
  else table_options.

Definition empty_properties : TableProperties :=
  mkTableProperties 0 0 0 0 0 0 0 0 EmptyString EmptyString EmptyString EmptyString EmptyString EmptyString EmptyString.

(** [new Rep(...)] and the two steps that follow it in the constructor.
    [compressed_cache] is the compressed block cache of the table
    options, if there is one, with the prefix that
    [GenerateCachePrefix] makes for the file. *)
Definition BlockBasedTableBuilder_new
           (ioptions : ImmutableCFOptions)
           (table_options : BlockBasedTableOptions)
           (column_family_id : Z) (file : WritableFileWriter)
           (compression_type : Z) (compression_opts : CompressionOptions)
           (compression_dict : option bytes) (skip_filters : bool)
           (column_family_name : string)
           (compressed_cache : option (Cache * bytes)) : Rep :=
  let table_options := sanitized_table_options table_options in
  let filter_builder :=
    if skip_filters then None else CreateFilterBlockBuilder table_options in
  let filter_builder :=
    match filter_builder with
    | Some fb => Some (FilterBlockBuilder_StartBlock fb 0)
    | None => None
    end in
  mkRep table_options ioptions file 0 Status.OK [] []
        (CreateIndexBuilder table_options) [] []
        compression_type compression_opts compression_dict
        empty_properties false filter_builder
        (match compressed_cache with Some (_, prefix) => prefix | None => [] end)
        (match compressed_cache with Some (c, _) => Some c | None => None end)
        BlockHandle_new [] column_family_id column_family_name [].

End WithEnv.
End Builder.
(** ** Words of the specification *)

Module Wording.
Import Coding Format.

(** The high bit of a byte of a varint: another byte follows. *)
Definition continues (b : byte) : Prop :=
  Z.testbit (byte.unsigned b) 7 = true.

(** A complete varint64: at most nine bytes that continue, and one
    that does not. *)
Definition complete_varint64 (bs : bytes) : Prop :=
  exists body last,
    bs = body ++ [last] /\ (List.length body < 10)%nat /\
    Forall continues body /\ ~ continues last.

Definition two_varint64s (input : bytes) : Prop :=
  exists v1 v2 rest,
    input = v1 ++ v2 ++ rest /\ complete_varint64 v1 /\ complete_varint64 v2.

Definition valid_handle (h : BlockHandle) : Prop :=
  uint64 (offset_ h) /\ uint64 (size_ h).

(** What the code relies on about the magic numbers that are defined
    elsewhere: they are 64-bit values, and the extent magic and the
    block-based magic are no legacy magic and differ. *)
Record MagicNumbers_ok (M : MagicNumbers) : Prop := {
  legacy_plain_range : uint64 (kLegacyPlainTableMagicNumber M);
  plain_range : uint64 (kPlainTableMagicNumber M);
  extent_range : uint64 (kExtentBasedTableMagicNumber M);
  block_based_not_legacy :
    kLegacyPlainTableMagicNumber M <> kBlockBasedTableMagicNumber;
  extent_not_legacy :
    IsLegacyFooterFormat M (kExtentBasedTableMagicNumber M) = false;
  extent_not_block_based :
    kExtentBasedTableMagicNumber M <> kBlockBasedTableMagicNumber
}.

(** The three layouts and their valid field combinations.  The legacy
    layout stores neither version nor checksum type: the constructor
    asserts version 0 for it, [EncodeTo] asserts CRC32C. *)
Inductive Layout : Type := Legacy | Versioned | ExtentBased.

Definition layout_of (M : MagicNumbers) (f : Footer) : option Layout :=
  let magic := table_magic_number_ f in
  if IsLegacyFooterFormat M magic then Some Legacy
  else if magic =? kBlockBasedTableMagicNumber then Some Versioned
  else if magic =? kExtentBasedTableMagicNumber M then Some ExtentBased
  else None.

Definition valid_checksum (c : Z) : Prop :=
  c = kNoChecksum \/ c = kCRC32c \/ c = kxxHash.

Definition valid_footer (M : MagicNumbers) (l : Layout) (f : Footer) : Prop :=
  layout_of M f = Some l /\
  valid_handle (metaindex_handle_ f) /\ valid_handle (index_handle_ f) /\
  match l with
  | Legacy => version_ f = 0 /\ checksum_ f = kCRC32c
  | Versioned => uint32 (version_ f) /\ valid_checksum (checksum_ f)
  | ExtentBased =>
      uint32 (version_ f) /\ valid_checksum (checksum_ f) /\
      uint32 (valid_size_ f) /\ uint64 (next_extent_ f)
  end.

(** The canonical magic number of a magic number, in the words of the
    specification: the legacy block-based magic number
    [0xdb4775248b80fb57] upgrades to the canonical block-based one,
    [0x88e241b785f4cff7], the legacy plain-table magic number to the
    plain-table one, and every other magic number is canonical. *)
Definition canonical_magic (M : MagicNumbers) (magic : Z) : Z :=
  if magic =? 0xdb4775248b80fb57 then 0x88e241b785f4cff7
  else if magic =? kLegacyPlainTableMagicNumber M
       then kPlainTableMagicNumber M
       else magic.

(** Equality of footers as the round trip can show it: the legacy
    magic comes back as its canonical magic, and [valid_size] and
    [next_extent] belong to the extent layout only. *)
Definition same_footer (M : MagicNumbers) (l : Layout) (f g : Footer) : Prop :=
  table_magic_number_ g = canonical_magic M (table_magic_number_ f) /\
  version_ g = version_ f /\
  checksum_ g = checksum_ f /\
  metaindex_handle_ g = metaindex_handle_ f /\
  index_handle_ g = index_handle_ f /\
  match l with
  | ExtentBased =>
      valid_size_ g = valid_size_ f /\ next_extent_ g = next_extent_ f
  | _ => True
  end.

(** The magic number in the last eight bytes of an input. *)
Definition trailing_magic (input : bytes) : Z :=
  le_combine (skipn (List.length input - 8) input).

Definition recognized_magic (M : MagicNumbers) (magic : Z) : bool :=
  IsLegacyFooterFormat M magic
  || (magic =? kBlockBasedTableMagicNumber)
  || (magic =? kExtentBasedTableMagicNumber M).

End Wording.

(** ** The three layouts of the footer, byte by byte *)

Module Layout.
Import Coding Format.

Definition handles_bytes (f : Footer) : bytes :=
  EncodeVarint64 (offset_ (metaindex_handle_ f))
  ++ EncodeVarint64 (size_ (metaindex_handle_ f))
  ++ EncodeVarint64 (offset_ (index_handle_ f))
  ++ EncodeVarint64 (size_ (index_handle_ f)).

Definition magic_bytes (magic : Z) : bytes :=
  EncodeFixed32 (wrap32 (Z.land magic 0xffffffff))
  ++ EncodeFixed32 (wrap32 (Z.shiftr magic 32)).

Definition padding (n : Z) (body : bytes) : bytes :=
  repeat Byte.x00 (Z.to_nat (n - size body)).

Definition legacy_bytes (f : Footer) : bytes :=
  (handles_bytes f ++ padding 40 (handles_bytes f))
  ++ magic_bytes (table_magic_number_ f).

Definition versioned_body (f : Footer) : bytes :=
  byte.of_Z (checksum_ f) :: handles_bytes f.

Definition versioned_bytes (f : Footer) : bytes :=
  (versioned_body f ++ padding 41 (versioned_body f))
  ++ EncodeFixed32 (version_ f) ++ magic_bytes (table_magic_number_ f).

Definition extent_body (f : Footer) : bytes :=
  EncodeFixed32 (valid_size_ f) ++ EncodeFixed64 (next_extent_ f)
  ++ byte.of_Z (checksum_ f) :: handles_bytes f.

Definition extent_bytes (f : Footer) : bytes :=
  (extent_body f ++ padding 53 (extent_body f))
  ++ EncodeFixed32 (version_ f) ++ magic_bytes (table_magic_number_ f).

End Layout.

(** ** Words of the specification about blocks and the builder *)

Module BlockWording.
Import Coding Format Checksum Reader Compression Builder.

(** The checksum of a block as the footer's algorithm computes it over
    [payload], the block contents followed by the type byte: the masked
    CRC32C, or the 32-bit hash with seed 0. *)
Definition block_checksum (L : Checksum.Lib) (algorithm : Z) (payload : bytes)
  : Z :=
  if algorithm =? kxxHash then wrap32 (XXH32 L payload 0)
  else wrap32 (crc32c_Mask L (wrap32 (crc32c_Value L payload))).

(** The trailer of a block: the type byte and the four bytes of the
    checksum. *)
Definition block_trailer (L : Checksum.Lib) (algorithm : Z)
           (contents : bytes) (type : Z) : bytes :=
  byte.of_Z type
    :: EncodeFixed32
         (block_checksum L algorithm (contents ++ [byte.of_Z type])).

(** The bytes of a block that was read, the type byte included, and the
    checksum that is stored behind them. *)
Definition payload_of (data : bytes) (n : Z) : bytes :=
  firstn (Z.to_nat (n + 1)) data.
Definition stored_checksum (data : bytes) (n : Z) : Z :=
  DecodeFixed32 (skipn (Z.to_nat (n + 1)) data).

(** The stored checksum differs from the recomputed one: for CRC32C the
    comparison is between the unmasked stored value and the CRC. *)
Definition checksum_differs (L : Checksum.Lib) (algorithm : Z)
           (data : bytes) (n : Z) : Prop :=
  if algorithm =? kCRC32c then
    wrap32 (crc32c_Unmask L (stored_checksum data n))
    <> wrap32 (crc32c_Value L (payload_of data n))
  else
    stored_checksum data n <> wrap32 (XXH32 L (payload_of data n) 0).

Definition recognized_checksum (algorithm : Z) : bool :=
  (algorithm =? kCRC32c) || (algorithm =? kxxHash).

(** [payload] with bit [k] of its byte [i] flipped. *)
Definition flip_bit (payload : bytes) (i : nat) (k : Z) : bytes :=
  firstn i payload
  ++ match skipn i payload with
     | b :: rest => byte.of_Z (Z.lxor (byte.unsigned b) (2 ^ k)) :: rest
     | [] => []
     end.

(** The checksum that [ReadBlock] recomputes: the CRC32C, or the 32-bit
    hash with seed 0. *)
Definition recomputed_checksum (L : Checksum.Lib) (algorithm : Z)
           (payload : bytes) : Z :=
  if algorithm =? kxxHash then wrap32 (XXH32 L payload 0)
  else wrap32 (crc32c_Value L payload).

(** A checksum function that tells a payload from every payload that
    differs from it in one bit. *)
Definition detects_bit_flips (L : Checksum.Lib) (algorithm : Z) : Prop :=
  forall payload i k,
    (i < List.length payload)%nat -> 0 <= k < 8 ->
    recomputed_checksum L algorithm (flip_bit payload i k)
    <> recomputed_checksum L algorithm payload.

(** Every append to the file of the builder succeeds. *)
Definition appends_succeed (r : Rep) : Prop := faults (file r) = [].

(** A builder on a file whose appends succeed and without a compressed
    block cache: no write can fail. *)
Definition healthy (r : Rep) : Prop :=
  faults (file r) = [] /\ block_cache_compressed r = None.

(** A step from [r] to [r'] that leaves the builder healthy and ok and
    does not touch the index builder. *)
Definition sound (r r' : Rep) : Prop :=
  healthy r' /\ Builder.ok r' = true /\ index_builder r' = index_builder r.

(** The copy into the compressed block cache, if there is one,
    succeeds. *)
Definition cache_insert_succeeds (E : Env) (r : Rep) (contents : bytes)
           (type : Z) : Prop :=
  block_cache_compressed r = None \/ type = kNoCompression
  \/ base_malloc (codec E) (size contents + 1) = true.

(** The dictionary that [WriteBlock] hands to the codec. *)
Definition dict_for (r : Rep) (is_data_block : bool) : bytes :=
  match compression_dict r with
  | Some dict => if is_data_block && negb (size dict =? 0) then dict else []
  | None => []
  end.

(** The check of [verify_compression] fails for the compressed block:
    the decompression reports an error, or what it gives is not the raw
    block. *)
Definition verification_fails (E : Env) (r : Rep) (raw compressed : bytes)
           (type : Z) (is_data_block : bool) : Prop :=
  let '(stat, contents) :=
    UncompressBlockContentsForCompressionType
      (codec E) compressed (format_version (table_options r))
      (dict_for r is_data_block) type in
  Status.ok stat = false
  \/ match contents with
     | Some data => bytes_eqb data raw = false
     | None => True
     end.

(** A partitioned index builder at the time of [Finish]: [partitions]
    sealed partitions, no partition in the making, no call of [Finish]
    so far. *)
Definition sealed_partitions (ib : IndexBuilder) (partitions : nat) : Prop :=
  exists b,
    ib = Partitioned b /\ List.length (entries_ b) = partitions
    /\ sub_index_builder_ b = None /\ finishing_indexes b = false.

(** The statuses that the index builder returns to the loop of [Finish]
    over the index partitions (lines 772-780), whose calls feed back
    the handle of the block just written.  The loop is entered after
    the call of line 658, which is made without a handle and hands out
    the first block, and after the write of that block. *)
Definition Finish_loop_statuses (E : Env) (r : Rep) : list Status.t :=
  let '(s, index_blocks, ib) :=
    IndexBuilder_Finish_first E (index_builder r) (mkIndexBlocks [] []) in
  let r := set_index_builder r ib in
  let '(r, index_block_handle) :=
    WriteBlock E r (index_block_contents index_blocks) false in
  let '(_, _, _, statuses) :=
    WriteIndexPartitions E (S (IndexBuilder_partitions (index_builder r)))
                         r index_blocks index_block_handle s in
  statuses.

(** The trace of [Finish] lists the status of the call of line 658
    first; what follows are the statuses of the loop. *)
Definition loop_statuses (trace : list Status.t) : list Status.t := tl trace.

(** What a call leaves alone when it is a no-op: the file, the offset,
    the data block, the counters and the status. *)
Definition untouched (r r' : Rep) : Prop :=
  file r' = file r /\ offset r' = offset r /\ data_block r' = data_block r
  /\ props r' = props r /\ status r' = status r.

(** The builders that the constructor and the calls [Add] and [Flush]
    lead to. *)
Inductive built (E : Env) (r0 : Rep) : Rep -> Prop :=
| built_new : built E r0 r0
| built_Add r k v : built E r0 r -> built E r0 (snd (Add E r k v))
| built_Flush r : built E r0 r -> built E r0 (Flush E r).

End BlockWording.

(** ** Instances for running the definitions *)

Module Sample.
Import Format.

(** The plain-table magic numbers are the ones of the upstream table
    format; the extent magic is not fixed by the sources at hand, the
    instance takes a value that is distinct from the other four. *)
Definition magic : MagicNumbers := {|
  kLegacyPlainTableMagicNumber := 0x4f3418eb7a8f13b8;
  kPlainTableMagicNumber := 0x8242229663bf9564;
  kExtentBasedTableMagicNumber := 0x7b8a0c91d5e3f246
|}.

Definition handle1 : BlockHandle := mkBlockHandle 300 70000.
Definition handle2 : BlockHandle := mkBlockHandle (2 ^ 64 - 2) 127.

Definition legacy_footer : Footer :=
  mkFooter 0 0 0 kCRC32c handle1 handle2 kLegacyBlockBasedTableMagicNumber.
Definition versioned_footer : Footer :=
  mkFooter 2 0 0 kxxHash handle1 handle2 kBlockBasedTableMagicNumber.
Definition extent_footer : Footer :=
  mkFooter 3 4096 77 kCRC32c handle2 handle1
           (kExtentBasedTableMagicNumber magic).

(** A footer-sized input that ends in eight zero bytes. *)
Definition zero_footer : bytes := repeat Byte.x00 48.

(** *** A checksum library *)

(** CRC32C, bit by bit, with the reflected Castagnoli polynomial. *)
Definition crc32c_poly : Z := 0x82F63B78.

Fixpoint crc_bits (n : nat) (crc : Z) : Z :=
  match n with
  | O => crc
  | S n' =>
      crc_bits n' (if Z.testbit crc 0
                   then Z.lxor (Z.shiftr crc 1) crc32c_poly
                   else Z.shiftr crc 1)
  end.

Definition crc_byte (l : Z) (b : byte) : Z :=
  crc_bits 8 (Z.lxor l (byte.unsigned b)).

Definition crc32c_Extend (init : Z) (data : bytes) : Z :=
  Z.lxor (fold_left crc_byte data (Z.lxor init 0xffffffff)) 0xffffffff.

Definition crc32c_Value (data : bytes) : Z := crc32c_Extend 0 data.

Definition kMaskDelta : Z := 0xa282ead8.

(** A rotation right by 15 bits and an offset, and back. *)
Definition crc32c_Mask (crc : Z) : Z :=
  wrap32 (Z.lor (Z.shiftr crc 15) (wrap32 (Z.shiftl crc 17)) + kMaskDelta).

Definition crc32c_Unmask (masked_crc : Z) : Z :=
  let rot := wrap32 (masked_crc - kMaskDelta) in
  Z.lor (Z.shiftr rot 17) (wrap32 (Z.shiftl rot 15)).

(** The instance takes the CRC32C that starts from the seed in the place
    of the 32-bit hash. *)
Definition checksums : Checksum.Lib := {|
  Checksum.crc32c_Value := crc32c_Value;
  Checksum.crc32c_Extend := crc32c_Extend;
  Checksum.crc32c_Mask := crc32c_Mask;
  Checksum.crc32c_Unmask := crc32c_Unmask;
  Checksum.XXH32 := fun data seed => crc32c_Extend (wrap32 seed) data
|}.

(** *** A compression library *)

(** Run-length coding: a block is a sequence of pairs (count, byte). *)
Fixpoint rle_Compress (raw : bytes) : list (Z * byte) :=
  match raw with
  | [] => []
  | b :: raw' =>
      match rle_Compress raw' with
      | (n, c) :: runs =>
          if Byte.eqb b c && (n <? 255) then (n + 1, c) :: runs
          else (1, b) :: (n, c) :: runs
      | [] => [(1, b)]
      end
  end.

Definition rle_bytes (runs : list (Z * byte)) : bytes :=
  flat_map (fun run => [byte.of_Z (fst run); snd run]) runs.

Fixpoint rle_Uncompress (data : bytes) : bytes :=
  match data with
  | n :: c :: data' => repeat c (Z.to_nat (byte.unsigned n)) ++ rle_Uncompress data'
  | _ => []
  end.

(** Snappy stands for a codec that works, XPRESS for one whose
    decompression loses the last byte, ZSTD for one whose decompression
    reports an error; the other codecs are not supported. *)
Definition codecs : Compression.Lib := {|
  Compression.GetCompressFormatForVersion :=
    fun _ format_version => if format_version =? 2 then 2 else 1;
  Compression.Snappy_Compress := fun _ raw => Some (rle_bytes (rle_Compress raw));
  Compression.Zlib_Compress := fun _ _ _ _ => None;
  Compression.BZip2_Compress := fun _ _ _ => None;
  Compression.LZ4_Compress := fun _ _ _ _ => None;
  Compression.LZ4HC_Compress := fun _ _ _ _ => None;
  Compression.XPRESS_Compress := fun raw => Some (rle_bytes (rle_Compress raw));
  Compression.ZSTD_Compress := fun _ raw _ => Some (rle_bytes (rle_Compress raw));
  Compression.Snappy_GetUncompressedLength :=
    fun data => Some (size (rle_Uncompress data));
  Compression.Snappy_Uncompress := fun data _ => Some (rle_Uncompress data);
  Compression.Zlib_Uncompress := fun _ _ _ => None;
  Compression.BZip2_Uncompress := fun _ _ => None;
  Compression.LZ4_Uncompress := fun _ _ _ => None;
  Compression.XPRESS_Uncompress :=
    fun data => Some (removelast (rle_Uncompress data));
  Compression.ZSTD_Uncompress := fun _ _ => None;
  Compression.base_malloc := fun _ => true
|}.

Definition compression_options : Compression.CompressionOptions := {|
  Compression.window_bits := -14; Compression.level := -1;
  Compression.strategy := 0; Compression.max_dict_bytes := 0
|}.

(** *** The rest of the engine *)

Fixpoint bytes_of_string (s : string) : bytes :=
  match s with
  | EmptyString => []
  | String c s' => byte.of_Z (Z.of_nat (Ascii.nat_of_ascii c)) :: bytes_of_string s'
  end.

Definition block_layout (b : Builder.BlockBuilder) : bytes :=
  flat_map (fun e => byte.of_Z (size (fst e)) :: fst e
                     ++ byte.of_Z (size (snd e)) :: snd e) b
  ++ Coding.EncodeFixed32 (Z.of_nat (List.length b)).

(** An internal key ends in eight bytes, the first of which is the
    value type. *)
Definition value_type_of (k : bytes) : Z :=
  byte.unsigned (nth (List.length k - 8) k Byte.x00).

Definition builder_lib : Builder.Lib := {|
  Builder.BlockBuilder_Finish := block_layout;
  Builder.BlockBuilder_CurrentSizeEstimate := fun b => size (block_layout b);
  Builder.FlushBlockPolicy_Update := fun b _ _ => (2 <=? List.length b)%nat;
  Builder.FlushBlockBySizePolicy_Update :=
    fun block_size _ b _ _ => block_size <=? size (block_layout b);
  Builder.FindShortestSeparator := fun start _ => start;
  Builder.FindShortSuccessor := fun k => k;
  Builder.ExtractValueType := value_type_of;
  Builder.IsValueType := fun t => (t <=? 2) || (t =? 7);
  Builder.kTypeRangeDeletion := 15;
  Builder.ExtractUserKey := fun k => firstn (List.length k - 8) k;
  Builder.kCompressionSizeLimit := 2 ^ 31 - 1;
  Builder.PropertyBlockBuilder_Finish :=
    fun p _ =>
      Coding.EncodeFixed64 (Builder.num_entries p)
      ++ Coding.EncodeFixed64 (Builder.data_size p)
      ++ Coding.EncodeFixed64 (Builder.index_size p);
  Builder.MetaIndexBuilder_Finish :=
    flat_map (fun e => bytes_of_string (fst e) ++ BlockHandle_EncodeTo (snd e) []);
  Builder.CompressionTypeToString := fun _ => "compression"%string;
  Builder.FilterBitsBuilder_Finish := fun keys => List.concat keys;
  Builder.BlockBasedFilter_Finish := fun _ keys => List.concat keys;
  Builder.HashIndexPrefixes := fun keys => List.concat keys;
  Builder.HashIndexPrefixesMetadata :=
    fun keys => Coding.EncodeFixed32 (Z.of_nat (List.length keys));
  Builder.kHashIndexPrefixesBlock := "hashindex.prefixes"%string;
  Builder.kHashIndexPrefixesMetadataBlock := "hashindex.metadata"%string;
  Builder.kPropertiesBlock := "properties"%string;
  Builder.kCompressionDictBlock := "compression_dict"%string;
  Builder.kRangeDelBlock := "range_del"%string
|}.

Definition env : Builder.Env := {|
  Builder.magic := magic;
  Builder.cksum := checksums;
  Builder.codec := codecs;
  Builder.lib := builder_lib
|}.

Definition ioptions : Builder.ImmutableCFOptions := {|
  Builder.user_comparator := Some "bytewise"%string;
  Builder.merge_operator := None;
  Builder.prefix_extractor := None;
  Builder.table_properties_collector_factories := []
|}.

Definition table_options (index_type : Builder.IndexType)
           (format_version checksum : Z) (verify_compression : bool)
  : Builder.BlockBasedTableOptions :=
  Builder.mkBlockBasedTableOptions
    format_version checksum verify_compression index_type
    false true 1 10 None.

(** A builder over an empty file; [faults] scripts the appends. *)
Definition builder (index_type : Builder.IndexType)
           (format_version checksum : Z) (verify_compression : bool)
           (compression_type : Z) (faults : list Status.t) : Builder.Rep :=
  Builder.BlockBasedTableBuilder_new
    ioptions (table_options index_type format_version checksum verify_compression)
    0 (Builder.mkFile [] faults) compression_type compression_options None
    true "default"%string None.

(** The internal key of a put: the user key, then the value type 1 and
    a sequence number of seven bytes. *)
Definition put_key (user_key : string) : bytes :=
  bytes_of_string user_key ++ Byte.x01 :: repeat Byte.x00 7.

Definition add (user_key v : string) (r : Builder.Rep) : Builder.Rep :=
  snd (Builder.Add env r (put_key user_key) (bytes_of_string v)).

(** A builder with the five keys a to e; the flush policy of the
    instance cuts a data block after two entries. *)
Definition five_keys (index_type : Builder.IndexType)
           (faults : list Status.t) : Builder.Rep :=
  add "e" "5"
      (add "d" "4"
           (add "c" "3"
                (add "b" "2"
                     (add "a" "1"
                          (builder index_type 2 kCRC32c false kNoCompression
                                   faults))))).

Definition partitioned_of (r : Builder.Rep) : Builder.PartitionedIndexBuilder :=
  match Builder.index_builder r with
  | Builder.Partitioned b => b
  | _ => Builder.mkPartitioned [] None [] [] false false
                               (Builder.table_options r)
  end.

Definition top_level_entries (r : Builder.Rep) : nat :=
  List.length (Builder.top_index_block_builder_ (partitioned_of r)).

(** A builder with one key on a file whose fifth append fails: in
    [Finish] the appends are the data block and its trailer, the
    properties block and its trailer, and then the meta-index block. *)
Definition one_key_fifth_append_fails : Builder.Rep :=
  add "a" "1"
      (builder Builder.kBinarySearch 2 kCRC32c false kNoCompression
               [Status.OK; Status.OK; Status.OK; Status.OK;
                Status.IOError "append"]).

(** A builder with a hash index on a file whose first append fails: the
    third key cuts the first data block, and the write of that block
    fails. *)
Definition hash_index_first_append_fails : Builder.Rep :=
  add "c" "3"
      (add "b" "2"
           (add "a" "1"
                (builder Builder.kHashSearch 2 kCRC32c false kNoCompression
                         [Status.IOError "append"]))).

(** A builder with a flat index on a file whose first append fails. *)
Definition flat_index_first_append_fails : Builder.Rep :=
  add "c" "3"
      (add "b" "2"
           (add "a" "1"
                (builder Builder.kBinarySearch 2 kCRC32c false kNoCompression
                         [Status.IOError "append"]))).

(** A block of sixteen equal bytes, which the run-length codec brings
    down to two. *)
Definition sixteen : bytes := repeat Byte.x61 16.

Definition read_options (verify : bool) : Reader.ReadOptions :=
  {| Reader.verify_checksums := verify; Reader.fill_cache := false |}.

(** A file to read from: the bytes from [offset] on, [n] of them at
    most. *)
Definition file_of (data : bytes) : Reader.RandomAccessFileReader :=
  fun offset n => (Status.OK, firstn (Z.to_nat n) (skipn (Z.to_nat offset) data)).

End Sample.


(** ** Slices: util/slice.cc *)

Module Slice.

(** The characters that the hex conversions compare with. *)
Definition chr_0 : Z := 48.
Definition chr_9 : Z := 57.
Definition chr_A : Z := 65.
Definition chr_F : Z := 70.
Definition chr_a : Z := 97.
Definition chr_f : Z := 102.

(** The value of a byte as a [char], which is signed on the supported
    platforms. *)
Definition char_of (b : byte) : Z :=
  let u := byte.unsigned b in if u <? 128 then u else u - 256.

(** [toHex(unsigned char v)] *)
Definition toHex (v : Z) : byte :=
  if v <=? 9 then byte.of_Z (chr_0 + v) else byte.of_Z (chr_A + v - 10).

(** [fromHex(char c)] *)
Definition fromHex (c : Z) : Z :=
  (* toupper: *)
  let c := if (chr_a <=? c) && (c <=? chr_f) then c - (chr_a - chr_A) else c in
  (* validation *)
  if (c <? chr_0) || ((chr_9 <? c) && ((c <? chr_A) || (chr_F <? c))) then -1
  else if c <=? chr_9 then c - chr_0
  else c - chr_A + 10.

(** [Slice::ToString(bool hex)] *)
Definition ToString (data_ : bytes) (hex : bool) : bytes :=
  if hex then
    flat_map (fun b =>
                let c := byte.unsigned b in
                [toHex (Z.shiftr c 4); toHex (Z.land c 15)])
             data_
  else data_.

(** The loop of [Slice::DecodeHex]: two characters a round. *)
Fixpoint DecodeHex_loop (data_ result : bytes) : bool * bytes :=
  match data_ with
  | c1 :: c2 :: rest =>
      let h1 := fromHex (char_of c1) in
      if h1 <? 0 then (false, result)
      else
        let h2 := fromHex (char_of c2) in
        if h2 <? 0 then (false, result)
        else
          DecodeHex_loop
            rest (result ++ [byte.of_Z (Z.lor (Z.shiftl h1 4) h2)])
  | _ => (true, result)
  end.

(** [Slice::DecodeHex(std::string* result)]: the answer and the string
    behind [result] after the call, [None] for a null pointer. *)
Definition DecodeHex (data_ : bytes) (result : option bytes)
  : bool * option bytes :=
  if negb (size data_ mod 2 =? 0) then
    (* Hex string must be even number of hex digits to get complete
       bytes back *)
    (false, result)
  else
    match result with
    | None => (false, None)
    | Some _ =>
        let '(answer, result) := DecodeHex_loop data_ [] in
        (answer, Some result)
    end.

(** [Slice::Slice(const SliceParts& parts, std::string* buf)]: the
    parts are appended to [buf], and the slice is all of [buf]. *)
Definition of_parts (parts : list bytes) (buf : bytes) : bytes * bytes :=
  let buf := fold_left (fun buf part => buf ++ part) parts buf in
  (buf, buf).

(** The three prefix extractors. *)
Record SliceTransform : Type := {
  Transform : bytes -> bytes;
  InDomain : bytes -> bool;
  InRange : bytes -> bool;
  SameResultWhenAppended : bytes -> bool
}.

Definition FixedPrefixTransform (prefix_len_ : Z) : SliceTransform := {|
  Transform := fun src => firstn (Z.to_nat prefix_len_) src;
  InDomain := fun src => prefix_len_ <=? size src;
  InRange := fun dst => size dst =? prefix_len_;
  SameResultWhenAppended := fun prefix => prefix_len_ <=? size prefix
|}.

Definition CappedPrefixTransform (cap_len_ : Z) : SliceTransform := {|
  Transform := fun src => firstn (Z.to_nat (Z.min cap_len_ (size src))) src;
  InDomain := fun _ => true;
  InRange := fun dst => size dst <=? cap_len_;
  SameResultWhenAppended := fun prefix => cap_len_ <=? size prefix
|}.

Definition NoopTransform : SliceTransform := {|
  Transform := fun src => src;
  InDomain := fun _ => true;
  InRange := fun _ => true;
  SameResultWhenAppended := fun _ => false
|}.

End Slice.

(** ** table/format.cc: printing a handle, reading the footer and the
       contents of a block *)

Module TableFile.
Import Coding Format Checksum Reader Compression.

(** [BlockHandle::ToString(bool hex)] *)
Definition BlockHandle_ToString (h : BlockHandle) (hex : bool) : bytes :=
  let handle_str := BlockHandle_EncodeTo h [] in
  if hex then Slice.ToString handle_str true else handle_str.






Section WithLibs.
Variable M : MagicNumbers.
Variable L : Checksum.Lib.
Variable C : Compression.Lib.
(** [storage::MAX_EXTENT_SIZE] *)
Variable MAX_EXTENT_SIZE : Z.

(** [ReadFooterFromFile]: the status and the footer after the call. *)
Definition ReadFooterFromFile (file : RandomAccessFileReader) (file_size : Z)
           (footer : Footer) (enforce_table_magic_number : Z)
  : Outcome (Status.t * Footer) :=
  if file_size <? kMinEncodedLength then
    Returned (Status.Corruption "file is too short to be an sstable", footer)
  else
    (* the footer is always at the end of Extent *)
    let read_offset := wrap64 (MAX_EXTENT_SIZE - kMaxEncodedLength) in
    let '(s, footer_input) := file read_offset kMaxEncodedLength in
    if negb (Status.ok s) then Returned (s, footer)
    else if size footer_input <? kMinEncodedLength then
      Returned (Status.Corruption "file is too short to be an sstable", footer)
    else
      match Footer_DecodeFrom M footer footer_input with
      | Returned (s, footer, _) =>
          if negb (Status.ok s) then Returned (s, footer)
          else if negb (enforce_table_magic_number =? 0)
                  && negb (enforce_table_magic_number
                           =? table_magic_number_ footer)
          then Returned (Status.Corruption "Bad table magic number", footer)
          else Returned (Status.OK, footer)
      | Aborted => Aborted
      | OutOfContract => OutOfContract
      end.

(** The byte behind the [n] bytes of a block: its compression type. *)
Definition type_at (page : bytes) (n : Z) : Z :=
  byte.unsigned (nth (Z.to_nat n) page Byte.x00).


(** The assertion of [UncompressBlockContents]. *)
Definition UncompressBlockContents_assert (page : bytes) (n : Z) : bool :=
  negb (type_at page n =? kNoCompression).

(** [unzip_data]: the code, and the buffer when the code is [kOk]. *)
Definition unzip_data (data : bytes) (format_version : Z)
           (compression_type : Z) : Status.Code * option bytes :=
  let '(s, contents) :=
    UncompressBlockContentsForCompressionType
      C data format_version [] compression_type in
  if negb (Status.ok s) then (Status.code s, None)
  else (Status.kOk, contents).



End WithLibs.

End TableFile.

(** ** Properties collectors of the internal keys:
       db/table_properties_collector.cc *)

Module Collector.
Import Coding.

(** [UserCollectedProperties] is a [std::map] from names to values;
    [insert] leaves a name that is there as it is. *)
Definition UserCollectedProperties : Type := list (string * bytes).

Fixpoint find (props : UserCollectedProperties) (name : string)
  : option bytes :=
  match props with
  | [] => None
  | (k, v) :: props' => if String.eqb k name then Some v else find props' name
  end.

Definition insert (props : UserCollectedProperties) (name : string)
           (val : bytes) : UserCollectedProperties :=
  match find props name with
  | Some _ => props
  | None => props ++ [(name, val)]
  end.

Definition kDeletedKeys : string := "rocksdb.deleted.keys".
Definition kMergeOperands : string := "rocksdb.merge.operands".

(** Modelled from the spec: the parsed internal key and the value
    types of [db/dbformat.h], which is not part of the sources at
    hand.  [ParseInternalKey] splits a key into the user key, the
    sequence number and the type, or fails. *)
Record ParsedInternalKey : Type := {
  user_key : bytes;
  sequence : Z;
  type : Z
}.

Record ValueTypes : Type := {
  kTypeValue : Z;
  kTypeDeletion : Z;
  kTypeSingleDeletion : Z;
  kTypeMerge : Z
}.

Inductive EntryType : Type :=
| kEntryPut | kEntryDelete | kEntrySingleDelete | kEntryMerge | kEntryOther.

Record BlockStats : Type := { entry_deletes_ : Z; entry_merges_ : Z }.

Record InternalKeyPropertiesCollector : Type := mkCollector {
  deleted_keys_ : Z;
  merge_operands_ : Z
}.

Definition InvalidArgument (msg : string) : Status.t :=
  Status.mk Status.kInvalidArgument msg.

Section WithKeys.
Variable V : ValueTypes.
Variable ParseInternalKey : bytes -> option ParsedInternalKey.

(** [InternalKeyPropertiesCollector::InternalAdd] *)
Definition InternalAdd (c : InternalKeyPropertiesCollector)
           (key value : bytes) (file_size : Z)
  : Status.t * InternalKeyPropertiesCollector :=
  match ParseInternalKey key with
  | None => (InvalidArgument "Invalid internal key", c)
  | Some ikey =>
      (* Note: We count both, deletions and single deletions here. *)
      if (type ikey =? kTypeDeletion V) || (type ikey =? kTypeSingleDeletion V)
      then (Status.OK,
            mkCollector (wrap64 (deleted_keys_ c + 1)) (merge_operands_ c))
      else if type ikey =? kTypeMerge V
      then (Status.OK,
            mkCollector (deleted_keys_ c) (wrap64 (merge_operands_ c + 1)))
      else (Status.OK, c)
  end.

(** [InternalKeyPropertiesCollector::InternalAddBlock] *)
Definition InternalAddBlock (c : InternalKeyPropertiesCollector)
           (block_stats : BlockStats) (file_size : Z)
  : Status.t * InternalKeyPropertiesCollector :=
  (Status.OK,
   mkCollector (wrap64 (deleted_keys_ c + entry_deletes_ block_stats))
               (wrap64 (merge_operands_ c + entry_merges_ block_stats))).

(** The keys of a file, one [InternalAdd] each; the statuses are the
    caller's to look at. *)
Definition InternalAdd_all (c : InternalKeyPropertiesCollector)
           (keys : list (bytes * bytes)) : InternalKeyPropertiesCollector :=
  fold_left (fun c kv => snd (InternalAdd c (fst kv) (snd kv) 0)) keys c.

(** [GetEntryType] *)
Definition GetEntryType (value_type : Z) : EntryType :=
  if value_type =? kTypeValue V then kEntryPut
  else if value_type =? kTypeDeletion V then kEntryDelete
  else if value_type =? kTypeSingleDeletion V then kEntrySingleDelete
  else if value_type =? kTypeMerge V then kEntryMerge
  else kEntryOther.

End WithKeys.

(** The two assertions of [InternalKeyPropertiesCollector::Finish]. *)
Definition Finish_assert (properties : UserCollectedProperties) : bool :=
  match find properties kDeletedKeys, find properties kMergeOperands with
  | None, None => true
  | _, _ => false
  end.

(** [InternalKeyPropertiesCollector::Finish] *)
Definition Finish (c : InternalKeyPropertiesCollector)
           (properties : UserCollectedProperties)
  : Status.t * UserCollectedProperties :=
  let val_deleted_keys := PutVarint64 [] (deleted_keys_ c) in
  let properties := insert properties kDeletedKeys val_deleted_keys in
  let val_merge_operands := PutVarint64 [] (merge_operands_ c) in
  let properties := insert properties kMergeOperands val_merge_operands in
  (Status.OK, properties).

(** [GetUint64Property]: the value and [*property_present]. *)
Definition GetUint64Property (props : UserCollectedProperties)
           (property_name : string) : Z * bool :=
  match find props property_name with
  | None => (0, false)
  | Some raw =>
      (match GetVarint64 raw with
       | Some (val, _) => val
       | None => 0
       end,
       true)
  end.

Definition GetDeletedKeys (props : UserCollectedProperties) : Z :=
  fst (GetUint64Property props kDeletedKeys).

Definition GetMergeOperands (props : UserCollectedProperties) : Z * bool :=
  GetUint64Property props kMergeOperands.

End Collector.

(** ** Words for the properties of the hex conversions and of the
       reading side *)

Module ReadWording.
Import Coding Format Reader.

(** A hexadecimal digit, in either case. *)
Definition hex_digit (b : byte) : bool :=
  let u := byte.unsigned b in
  ((48 <=? u) && (u <=? 57)) || ((65 <=? u) && (u <=? 70))
  || ((97 <=? u) && (u <=? 102)).

(** The upper-case letter of a lower-case letter; every other byte as
    it is. *)
Definition toupper (b : byte) : byte :=
  let u := byte.unsigned b in
  if (97 <=? u) && (u <=? 122) then byte.of_Z (u - 32) else b.

(** The values of a hex digit, and whether a byte made of two of them
    splits into the two again. *)
Definition nibbles : list Z := map Z.of_nat (seq 0 16).

Definition splits_back (h1 h2 : Z) : bool :=
  let u := byte.unsigned (byte.of_Z (Z.lor (Z.shiftl h1 4) h2)) in
  (Z.shiftr u 4 =? h1) && (Z.land u 15 =? h2).

(** The messages of the Corruption statuses of [Footer::DecodeFrom]. *)
Definition DecodeFrom_messages : list string :=
  ["bad block handle"; "bad checksum type";
   "input is too short to be an sstable";
   "input is too short to be an extent sstable"]%string.

(** The compression types that the two [switch] statements know. *)
Definition known_types : list Z :=
  [kSnappyCompression; kZlibCompression; kBZip2Compression; kLZ4Compression;
   kLZ4HCCompression; kXpressCompression; kZSTD; kZSTDNotFinalCompression].

(** One list is the beginning of another. *)
Definition prefix_of (p s : bytes) : Prop := exists rest, s = p ++ rest.

(** A file that holds [data] and serves every read in full as far as
    the bytes go. *)
Definition reader_of (data : bytes) : RandomAccessFileReader :=
  fun offset n =>
    (Status.OK, firstn (Z.to_nat n) (skipn (Z.to_nat offset) data)).

End ReadWording.

(** ** Instances for running the reading side *)

Module ReadSample.
Import Format ReadWording.

(** A small extent: zero bytes, and the footer at its end. *)
Definition MAX_EXTENT_SIZE : Z := 128.

Definition extent_of (f : Footer) : bytes :=
  let footer_encoding := Footer_EncodeTo Sample.magic f [] in
  repeat Byte.x00 (Z.to_nat (MAX_EXTENT_SIZE - size footer_encoding))
  ++ footer_encoding.

End ReadSample.

(** ** Words for reading back what the builder wrote *)

Module RoundTripWording.
Import Coding Format Reader Compression Builder TableFile.




End RoundTripWording.

(** ** Words for the invariants of the builder *)

Module BuilderWording.
Import Builder.

(** The offset of the builder is the number of bytes in its file, as a
    64-bit number. *)
Definition counted (r : Rep) : Prop :=
  offset r = wrap64 (size (written (file r))).

(** From the bytes [w] of a file and the offset [o] to the bytes [w']
    and the offset [o']: the file was appended to at most, and the
    offset is still a 64-bit number. *)
Record grows (w : bytes) (o : Z) (w' : bytes) (o' : Z) : Prop := {
  grows_prefix : ReadWording.prefix_of w w';
  grows_offset : uint64 o -> uint64 o'
}.

Definition extends (r r' : Rep) : Prop :=
  grows (written (file r)) (offset r) (written (file r')) (offset r').

(** The index entries that a partitioned index builder holds: the
    ones of the sealed partitions and the ones of the partition in the
    making. *)
Definition index_entries (b : PartitionedIndexBuilder) : nat :=
  fold_right (fun e n => List.length (index_block_builder_ (value e)) + n)%nat
             O (entries_ b)
  + match sub_index_builder_ b with
    | Some sub => List.length (index_block_builder_ sub)
    | None => O
    end.

(** No partition of the builder is empty. *)
Definition no_empty_partition (b : PartitionedIndexBuilder) : Prop :=
  Forall (fun e => index_block_builder_ (value e) <> []) (entries_ b)
  /\ forall sub,
      sub_index_builder_ b = Some sub -> index_block_builder_ sub <> [].

(** A handle of a block of the file of [r]. *)
Definition handle_in (h : Format.BlockHandle) (r : Rep) : Prop :=
  uint64 (Format.offset_ h)
  /\ 0 <= Format.size_ h <= size (written (file r)).

End BuilderWording.

(** ** Words for the properties collectors *)

Module CollectorWording.
Import Collector.

(** The value types of the enumeration differ. *)
Definition ValueTypes_distinct (V : ValueTypes) : Prop :=
  kTypeMerge V <> kTypeDeletion V /\ kTypeMerge V <> kTypeSingleDeletion V.

(** The keys of a list that parse and whose type passes [pick]. *)
Definition count_keys (ParseInternalKey : bytes -> option ParsedInternalKey)
           (pick : Z -> bool) (keys : list (bytes * bytes)) : Z :=
  Z.of_nat
    (List.length
       (filter (fun kv =>
                  match ParseInternalKey (fst kv) with
                  | Some ikey => pick (type ikey)
                  | None => false
                  end)
               keys)).

Definition is_deletion (V : ValueTypes) (t : Z) : bool :=
  (t =? kTypeDeletion V) || (t =? kTypeSingleDeletion V).

Definition is_merge (V : ValueTypes) (t : Z) : bool := t =? kTypeMerge V.

End CollectorWording.

Module CollectorSample.
Import Collector.

(** The value types of the upstream format, and keys that end in the
    type byte and seven bytes of sequence number. *)
Definition value_types : ValueTypes := {|
  kTypeValue := 1; kTypeDeletion := 0; kTypeSingleDeletion := 7;
  kTypeMerge := 2
|}.

Definition parse (key : bytes) : option ParsedInternalKey :=
  if (List.length key <? 8)%nat then None
  else
    Some {| user_key := firstn (List.length key - 8) key;
            sequence := 0;
            type := Sample.value_type_of key |}.

Definition key_of (user_key : string) (t : byte) : bytes :=
  Sample.bytes_of_string user_key ++ t :: repeat Byte.x00 7.

Definition keys : list (bytes * bytes) :=
  [(key_of "a" Byte.x01, []); (key_of "b" Byte.x00, []);
   (key_of "c" Byte.x02, []); (key_of "d" Byte.x07, []);
   ([Byte.x00], [])].

End CollectorSample.
(** * Proofs *)

Import Coding Format Wording Layout.

(** ** Bytes and bits *)

Lemma unsigned_of_Z_small v : 0 <= v < 256 -> byte.unsigned (byte.of_Z v) = v.
Proof.
  intros H. rewrite byte.unsigned_of_Z. unfold byte.wrap.
  change (2 ^ 8) with 256. apply Z.mod_small. lia.
Qed.

Lemma testbit_above v n i :
  0 <= v < 2 ^ n -> 0 <= n <= i -> Z.testbit v i = false.
Proof.
  intros Hv Hi. destruct (Z.eq_dec v 0) as [->|Hz]; [apply Z.bits_0|].
  apply Z.bits_above_log2; [lia|].
  assert (Z.log2 v < n) by (apply Z.log2_lt_pow2; lia). lia.
Qed.

Lemma land_128 x : Z.land x 128 = if Z.testbit x 7 then 128 else 0.
Proof.
  apply Z.bits_inj'; intros i Hi.
  rewrite Z.land_spec. change 128 with (2 ^ 7) at 1.
  rewrite Z.pow2_bits_eqb by lia.
  destruct (Z.eqb_spec 7 i) as [<-|Hne].
  - rewrite andb_true_r. destruct (Z.testbit x 7); reflexivity.
  - rewrite andb_false_r. destruct (Z.testbit x 7); [|symmetry; apply Z.bits_0].
    change 128 with (2 ^ 7). rewrite Z.pow2_bits_eqb by lia.
    symmetry. apply Z.eqb_neq. exact Hne.
Qed.

Lemma land_128_eqb x : (Z.land x 128 =? 0) = negb (Z.testbit x 7).
Proof. rewrite land_128. destruct (Z.testbit x 7); reflexivity. Qed.

Lemma land_127_range v :
  0 <= v -> 0 <= Z.land v 127 < 128 /\ Z.land v 127 <= v.
Proof.
  intros H. change 127 with (Z.ones 7). rewrite Z.land_ones by lia.
  change (2 ^ 7) with 128.
  split; [apply Z.mod_pos_bound; lia | apply Z.mod_le; lia].
Qed.

Lemma lor_128_add v : 0 <= v < 128 -> Z.lor v 128 = v + 128.
Proof.
  intros H.
  assert (E : Z.land v 128 = 0).
  { rewrite land_128, (testbit_above v 7 7); [reflexivity| exact H | lia]. }
  rewrite <- Z.lxor_lor by exact E.
  symmetry. apply Z.add_nocarry_lxor. exact E.
Qed.

Lemma testbit7_lor_128 v : Z.testbit (Z.lor v 128) 7 = true.
Proof. rewrite Z.lor_spec. change (Z.testbit 128 7) with true. apply orb_true_r. Qed.

Lemma land_lor_127 v : Z.land (Z.lor (Z.land v 127) 128) 127 = Z.land v 127.
Proof.
  rewrite Z.land_lor_distr_l. change (Z.land 128 127) with 0.
  rewrite Z.lor_0_r, <- Z.land_assoc. reflexivity.
Qed.

Lemma split_low7 v shift :
  0 <= shift ->
  Z.lor (Z.shiftl (Z.land v 127) shift) (Z.shiftl (Z.shiftr v 7) (shift + 7))
  = Z.shiftl v shift.
Proof.
  intros Hs. apply Z.bits_inj'; intros i Hi.
  rewrite Z.lor_spec, !Z.shiftl_spec by lia.
  destruct (Z.ltb_spec i shift).
  - rewrite !Z.testbit_neg_r by lia. reflexivity.
  - rewrite Z.land_spec. change 127 with (Z.ones 7).
    destruct (Z.ltb_spec (i - shift) 7).
    + rewrite (Z.testbit_neg_r _ (i - (shift + 7))) by lia.
      rewrite Z.ones_spec_low by lia.
      rewrite andb_true_r, orb_false_r. reflexivity.
    + rewrite Z.ones_spec_high by lia.
      rewrite andb_false_r, Z.shiftr_spec by lia. cbn. f_equal. lia.
Qed.

(** ** Varints *)

Lemma GetVarintPtr_loop_cons wrap rounds shift result b p :
  GetVarintPtr_loop wrap (S rounds) shift result (b :: p)
  = if Z.land (byte.unsigned b) 128 =? 0
    then Some (Z.lor result (wrap (Z.shiftl (byte.unsigned b) shift)), p)
    else GetVarintPtr_loop wrap rounds (shift + 7)
           (Z.lor result (wrap (Z.shiftl (Z.land (byte.unsigned b) 127) shift)))
           p.
Proof. reflexivity. Qed.

Lemma decode_last_byte wrap rounds shift result v rest :
  0 <= v < 128 ->
  GetVarintPtr_loop wrap (S rounds) shift result (byte.of_Z v :: rest)
  = Some (Z.lor result (wrap (Z.shiftl v shift)), rest).
Proof.
  intros Hv. rewrite GetVarintPtr_loop_cons.
  rewrite unsigned_of_Z_small by lia.
  rewrite land_128_eqb, (testbit_above v 7 7) by lia. reflexivity.
Qed.

Lemma wrap64_small z : 0 <= z < 2 ^ 64 -> wrap64 z = z.
Proof. intros H. apply Z.mod_small. exact H. Qed.

Lemma wrap32_small z : 0 <= z < 2 ^ 32 -> wrap32 z = z.
Proof. intros H. apply Z.mod_small. exact H. Qed.

Lemma shiftl_bound v shift :
  0 <= v -> 0 <= shift -> v * 2 ^ shift < 2 ^ 64 -> 0 <= Z.shiftl v shift < 2 ^ 64.
Proof.
  intros Hv Hs Hb. rewrite Z.shiftl_mul_pow2 by lia.
  split; [apply Z.mul_nonneg_nonneg; lia | exact Hb].
Qed.

Lemma GetVarint64_loop_Encode rounds : forall v shift result rest,
  0 <= v < 2 ^ (7 * Z.of_nat (S rounds)) -> 0 <= shift ->
  v * 2 ^ shift < 2 ^ 64 ->
  GetVarintPtr_loop wrap64 (S rounds) shift result
                    (EncodeVarint64_loop rounds v ++ rest)
  = Some (Z.lor result (Z.shiftl v shift), rest).
Proof.
  induction rounds as [|rounds IH]; intros v shift result rest Hv Hs Hb.
  - change (2 ^ (7 * Z.of_nat 1)) with 128 in Hv.
    cbn [EncodeVarint64_loop app]. rewrite decode_last_byte by lia.
    rewrite wrap64_small by (apply shiftl_bound; lia). reflexivity.
  - cbn [EncodeVarint64_loop]. destruct (Z.leb_spec 128 v) as [Hge|Hlt].
    + pose proof (land_127_range v ltac:(lia)) as [Hlow Hle].
      cbn [app]. rewrite GetVarintPtr_loop_cons.
      rewrite unsigned_of_Z_small by (rewrite lor_128_add; lia).
      rewrite land_128_eqb, testbit7_lor_128, land_lor_127. cbn [negb].
      assert (Hdiv : Z.shiftr v 7 = v / 128)
        by (rewrite Z.shiftr_div_pow2 by lia; reflexivity).
      assert (Hpow : 2 ^ (shift + 7) = 2 ^ shift * 128)
        by (rewrite Z.pow_add_r by lia; reflexivity).
      assert (Hpos : 0 < 2 ^ shift) by (apply Z.pow_pos_nonneg; lia).
      assert (Hmul : v / 128 * 128 <= v)
        by (pose proof (Z.mul_div_le v 128); lia).
      rewrite IH.
      * rewrite wrap64_small by (apply shiftl_bound; nia).
        rewrite <- Z.lor_assoc, split_low7 by lia. reflexivity.
      * rewrite Hdiv. split; [apply Z.div_pos; lia|].
        apply Z.div_lt_upper_bound; [lia|].
        replace (7 * Z.of_nat (S (S rounds)))
          with (7 + 7 * Z.of_nat (S rounds)) in Hv by lia.
        rewrite Z.pow_add_r in Hv by lia. change (2 ^ 7) with 128 in Hv. lia.
      * lia.
      * rewrite Hpow, Hdiv. nia.
    + cbn [app]. rewrite decode_last_byte by lia.
      rewrite wrap64_small by (apply shiftl_bound; lia). reflexivity.
Qed.

Lemma GetVarint64_EncodeVarint64 v rest :
  uint64 v -> GetVarint64 (EncodeVarint64 v ++ rest) = Some (v, rest).
Proof.
  intros [H0 H1]. unfold GetVarint64, EncodeVarint64.
  rewrite GetVarint64_loop_Encode.
  - rewrite Z.shiftl_0_r. reflexivity.
  - split; [lia|]. eapply Z.lt_trans; [exact H1|]. reflexivity.
  - lia.
  - rewrite Z.mul_1_r. exact H1.
Qed.

Lemma length_EncodeVarint64_loop rounds : forall v,
  (1 <= List.length (EncodeVarint64_loop rounds v) <= S rounds)%nat.
Proof.
  induction rounds as [|rounds IH]; intros v; cbn [EncodeVarint64_loop].
  - cbn. lia.
  - destruct (128 <=? v); cbn [List.length]; [specialize (IH (Z.shiftr v 7))|]; lia.
Qed.

Lemma length_EncodeVarint64 v : (1 <= List.length (EncodeVarint64 v) <= 10)%nat.
Proof. apply length_EncodeVarint64_loop. Qed.

Lemma continues_eqb b :
  (Z.land (byte.unsigned b) 128 =? 0) = true <-> ~ continues b.
Proof.
  unfold continues. rewrite land_128_eqb.
  destruct (Z.testbit (byte.unsigned b) 7); cbn; split; congruence.
Qed.

Lemma GetVarintPtr_loop_Some wrap rounds : forall shift result p v rest,
  GetVarintPtr_loop wrap rounds shift result p = Some (v, rest) ->
  exists body last,
    p = body ++ last :: rest /\ (List.length body < rounds)%nat /\
    Forall continues body /\ ~ continues last.
Proof.
  induction rounds as [|rounds IH]; intros shift result p v rest H.
  - discriminate H.
  - destruct p as [|b p]; [discriminate H|].
    rewrite GetVarintPtr_loop_cons in H.
    destruct (Z.land (byte.unsigned b) 128 =? 0) eqn:E.
    + inversion H; subst. exists [], b. cbn.
      repeat split; [lia | constructor | apply continues_eqb; exact E].
    + apply IH in H. destruct H as (body & last & -> & Hlen & Hall & Hlast).
      exists (b :: body), last. cbn. repeat split; [lia | | exact Hlast].
      constructor; [|exact Hall].
      unfold continues. rewrite land_128_eqb in E.
      destruct (Z.testbit (byte.unsigned b) 7); [reflexivity | discriminate E].
Qed.

Lemma GetVarintPtr_loop_complete wrap rounds : forall shift result body last rest,
  (List.length body < rounds)%nat -> Forall continues body -> ~ continues last ->
  exists v,
    GetVarintPtr_loop wrap rounds shift result (body ++ last :: rest)
    = Some (v, rest).
Proof.
  induction rounds as [|rounds IH]; intros shift result body last rest Hlen Hall Hlast.
  - lia.
  - destruct body as [|b body]; cbn [app]; rewrite GetVarintPtr_loop_cons.
    + apply continues_eqb in Hlast. rewrite Hlast. eexists. reflexivity.
    + inversion Hall as [|? ? Hb Hall']; subst.
      replace (Z.land (byte.unsigned b) 128 =? 0) with false.
      * apply IH; [cbn in Hlen; lia | exact Hall' | exact Hlast].
      * symmetry. rewrite land_128_eqb. unfold continues in Hb. rewrite Hb.
        reflexivity.
Qed.

Lemma GetVarint64_Some input v rest :
  GetVarint64 input = Some (v, rest) ->
  exists bs, input = bs ++ rest /\ complete_varint64 bs.
Proof.
  intros H. apply GetVarintPtr_loop_Some in H.
  destruct H as (body & last & -> & Hlen & Hall & Hlast).
  exists (body ++ [last]). split.
  - rewrite <- app_assoc. reflexivity.
  - exists body, last. auto.
Qed.

Lemma GetVarint64_complete bs rest :
  complete_varint64 bs -> exists v, GetVarint64 (bs ++ rest) = Some (v, rest).
Proof.
  intros (body & last & -> & Hlen & Hall & Hlast).
  rewrite <- app_assoc. cbn [app].
  apply GetVarintPtr_loop_complete; assumption.
Qed.

(** ** BlockHandle *)

Lemma BlockHandle_EncodeTo_app h dst :
  BlockHandle_EncodeTo h dst
  = dst ++ EncodeVarint64 (offset_ h) ++ EncodeVarint64 (size_ h).
Proof. reflexivity. Qed.

Lemma BlockHandle_DecodeFrom_EncodeTo h0 h rest :
  valid_handle h ->
  BlockHandle_DecodeFrom h0
    (EncodeVarint64 (offset_ h) ++ EncodeVarint64 (size_ h) ++ rest)
  = (Status.OK, h, rest).
Proof.
  intros [Ho Hs]. unfold BlockHandle_DecodeFrom.
  rewrite GetVarint64_EncodeVarint64 by exact Ho.
  rewrite GetVarint64_EncodeVarint64 by exact Hs.
  destruct h; reflexivity.
Qed.

Lemma BlockHandle_DecodeFrom_status h0 input :
  let '(s, h, rest) := BlockHandle_DecodeFrom h0 input in
  (s = Status.OK /\ two_varint64s input)
  \/ (s = Status.Corruption "bad block handle" /\ h = mkBlockHandle 0 0
      /\ ~ two_varint64s input).
Proof.
  unfold BlockHandle_DecodeFrom.
  destruct (GetVarint64 input) as [[offset input1]|] eqn:E1.
  - destruct (GetVarint64_Some _ _ _ E1) as (v1 & -> & Hv1).
    destruct (GetVarint64 input1) as [[sz input2]|] eqn:E2.
    + left. split; [reflexivity|].
      destruct (GetVarint64_Some _ _ _ E2) as (v2 & -> & Hv2).
      exists v1, v2, input2. auto.
    + right. repeat split. intros (w1 & w2 & rest & Heq & Hw1 & Hw2).
      destruct (GetVarint64_complete w1 (w2 ++ rest) Hw1) as (x1 & Hx1).
      rewrite <- Heq, E1 in Hx1. inversion Hx1; subst.
      destruct (GetVarint64_complete w2 rest Hw2) as (x2 & Hx2).
      rewrite E2 in Hx2. discriminate Hx2.
  - right. repeat split. intros (w1 & w2 & rest & Heq & Hw1 & Hw2).
    destruct (GetVarint64_complete w1 (w2 ++ rest) Hw1) as (x1 & Hx1).
    rewrite <- Heq, E1 in Hx1. discriminate Hx1.
Qed.

(** C8.  Decoding the encoding of a handle gives OK and the handle back,
    for every pair of 64-bit values; decoding bytes that do not hold two
    complete varint64 (a varint that is cut short, or a tenth byte that
    still has its high bit set) gives Corruption and the handle (0, 0). *)
Theorem BlockHandle_roundtrip_or_reset :
  (forall h0 h rest,
      valid_handle h ->
      BlockHandle_DecodeFrom h0 (BlockHandle_EncodeTo h [] ++ rest)
      = (Status.OK, h, rest))
  /\
  (forall h0 input,
      ~ two_varint64s input ->
      exists rest,
        BlockHandle_DecodeFrom h0 input
        = (Status.Corruption "bad block handle", mkBlockHandle 0 0, rest)).
Proof.
  split.
  - intros h0 h rest Hh. rewrite BlockHandle_EncodeTo_app. cbn [app].
    rewrite <- app_assoc. apply BlockHandle_DecodeFrom_EncodeTo. exact Hh.
  - intros h0 input Hno.
    pose proof (BlockHandle_DecodeFrom_status h0 input) as H.
    destruct (BlockHandle_DecodeFrom h0 input) as [[s h] rest].
    destruct H as [[_ Htwo] | (-> & -> & _)]; [contradiction|].
    exists rest. reflexivity.
Qed.

Lemma two_varint64s_length input :
  two_varint64s input -> (2 <= List.length input)%nat.
Proof.
  intros (v1 & v2 & rest & -> & (b1 & l1 & -> & _) & (b2 & l2 & -> & _)).
  rewrite !length_app. cbn. lia.
Qed.

Lemma BlockHandle_roundtrip_or_reset_witness :
  BlockHandle_DecodeFrom BlockHandle_new
    (BlockHandle_EncodeTo Sample.handle2 [] ++ [Byte.xff])
  = (Status.OK, Sample.handle2, [Byte.xff])
  /\ exists rest,
      BlockHandle_DecodeFrom Sample.handle1 [Byte.x80]
      = (Status.Corruption "bad block handle", mkBlockHandle 0 0, rest).
Proof.
  destruct BlockHandle_roundtrip_or_reset as [Hrt Hbad]. split.
  - apply Hrt. unfold valid_handle, uint64. cbn. lia.
  - apply Hbad. intros H. apply two_varint64s_length in H. cbn in H. lia.
Defined.

(** ** Fixed-width fields and padding *)

Lemma size_app (a b : bytes) : size (a ++ b) = size a + size b.
Proof. unfold size. rewrite length_app. lia. Qed.

Lemma size_EncodeFixed32 v : size (EncodeFixed32 v) = 4.
Proof. unfold size, EncodeFixed32. rewrite length_le_split. reflexivity. Qed.

Lemma size_EncodeFixed64 v : size (EncodeFixed64 v) = 8.
Proof. unfold size, EncodeFixed64. rewrite length_le_split. reflexivity. Qed.

Lemma size_nonneg (a : bytes) : 0 <= size a.
Proof. unfold size. lia. Qed.

Lemma remove_prefix_app (a b : bytes) n :
  n = size a -> remove_prefix n (a ++ b) = b.
Proof.
  intros ->. unfold remove_prefix, size. rewrite Nat2Z.id.
  rewrite skipn_app, skipn_all, Nat.sub_diag. reflexivity.
Qed.

Lemma DecodeFixed32_EncodeFixed32 v rest :
  DecodeFixed32 (EncodeFixed32 v ++ rest) = v mod 2 ^ 32.
Proof.
  unfold DecodeFixed32, EncodeFixed32.
  rewrite firstn_app, length_le_split, Nat.sub_diag.
  rewrite firstn_all2 by (rewrite length_le_split; lia).
  cbn [firstn]. rewrite app_nil_r. apply le_combine_split.
Qed.

Lemma DecodeFixed64_EncodeFixed64 v rest :
  DecodeFixed64 (EncodeFixed64 v ++ rest) = v mod 2 ^ 64.
Proof.
  unfold DecodeFixed64, EncodeFixed64.
  rewrite firstn_app, length_le_split, Nat.sub_diag.
  rewrite firstn_all2 by (rewrite length_le_split; lia).
  cbn [firstn]. rewrite app_nil_r. apply le_combine_split.
Qed.

Lemma GetFixed32_EncodeFixed32 v rest :
  GetFixed32 (EncodeFixed32 v ++ rest) = Some (v mod 2 ^ 32, rest).
Proof.
  unfold GetFixed32. rewrite size_app, size_EncodeFixed32.
  pose proof (size_nonneg rest).
  destruct (Z.ltb_spec (4 + size rest) 4); [lia|].
  rewrite DecodeFixed32_EncodeFixed32. reflexivity.
Qed.

Lemma GetFixed64_EncodeFixed64 v rest :
  GetFixed64 (EncodeFixed64 v ++ rest) = Some (v mod 2 ^ 64, rest).
Proof.
  unfold GetFixed64. rewrite size_app, size_EncodeFixed64.
  pose proof (size_nonneg rest).
  destruct (Z.ltb_spec (8 + size rest) 8); [lia|].
  rewrite DecodeFixed64_EncodeFixed64. reflexivity.
Qed.

Lemma resize_pad (dst body : bytes) n :
  size body <= n ->
  resize (size dst + n) (dst ++ body)
  = dst ++ body ++ repeat Byte.x00 (Z.to_nat (n - size body)).
Proof.
  intros H. unfold resize, size in *.
  rewrite firstn_all2 by (rewrite length_app; lia).
  rewrite <- app_assoc. do 3 f_equal. rewrite length_app. lia.
Qed.

Lemma size_pad (body : bytes) n :
  size body <= n -> size (body ++ repeat Byte.x00 (Z.to_nat (n - size body))) = n.
Proof.
  intros H. rewrite size_app. unfold size in *. rewrite repeat_length. lia.
Qed.

Lemma magic_recombine m :
  uint64 m ->
  Z.lor (Z.shiftl (wrap32 (Z.shiftr m 32) mod 2 ^ 32) 32)
        (wrap32 (Z.land m 0xffffffff) mod 2 ^ 32) = m.
Proof.
  intros [H0 H1]. unfold wrap32. rewrite !Z.mod_mod by lia.
  change 0xffffffff with (Z.ones 32). rewrite Z.land_ones by lia.
  rewrite Z.mod_mod by lia.
  rewrite (Z.mod_small (Z.shiftr m 32)).
  2:{ rewrite Z.shiftr_div_pow2 by lia. split; [apply Z.div_pos; lia|].
      apply Z.div_lt_upper_bound; [lia|]. exact H1. }
  apply Z.bits_inj'; intros i Hi.
  rewrite Z.lor_spec, Z.shiftl_spec by lia.
  destruct (Z.ltb_spec i 32).
  - rewrite Z.testbit_neg_r by lia. rewrite Z.mod_pow2_bits_low by lia.
    reflexivity.
  - rewrite Z.mod_pow2_bits_high by lia. rewrite Z.shiftr_spec by lia.
    rewrite orb_false_r. f_equal. lia.
Qed.

Lemma GetVarint32_one_byte c rest :
  0 <= c < 128 -> GetVarint32 (byte.of_Z c :: rest) = Some (c, rest).
Proof.
  intros H. unfold GetVarint32. rewrite unsigned_of_Z_small by lia.
  rewrite land_128_eqb, (testbit_above c 7 7) by lia. reflexivity.
Qed.

Lemma size_EncodeVarint64 v : 1 <= size (EncodeVarint64 v) <= 10.
Proof. pose proof (length_EncodeVarint64 v). unfold size. lia. Qed.

(** ** Footer *)

Lemma size_handles_bytes f : size (handles_bytes f) <= 40.
Proof.
  unfold handles_bytes. rewrite !size_app.
  pose proof (size_EncodeVarint64 (offset_ (metaindex_handle_ f))).
  pose proof (size_EncodeVarint64 (size_ (metaindex_handle_ f))).
  pose proof (size_EncodeVarint64 (offset_ (index_handle_ f))).
  pose proof (size_EncodeVarint64 (size_ (index_handle_ f))).
  lia.
Qed.

Lemma size_magic_bytes m : size (magic_bytes m) = 8.
Proof. unfold magic_bytes. rewrite size_app, !size_EncodeFixed32. reflexivity. Qed.

Lemma encode_handles f dst :
  BlockHandle_EncodeTo (index_handle_ f)
    (BlockHandle_EncodeTo (metaindex_handle_ f) dst)
  = dst ++ handles_bytes f.
Proof.
  rewrite !BlockHandle_EncodeTo_app. unfold handles_bytes.
  rewrite <- !app_assoc. reflexivity.
Qed.

Lemma magic_of_bytes m pre :
  uint64 m ->
  let input := pre ++ magic_bytes m in
  let magic_ptr := remove_prefix (size input - kMagicNumberLengthByte) input in
  Z.lor (Z.shiftl (DecodeFixed32 (skipn 4 magic_ptr)) 32)
        (DecodeFixed32 magic_ptr) = m.
Proof.
  intros Hm input magic_ptr. subst magic_ptr input.
  rewrite remove_prefix_app
    by (rewrite size_app, size_magic_bytes; unfold kMagicNumberLengthByte; lia).
  unfold magic_bytes. rewrite DecodeFixed32_EncodeFixed32.
  unfold EncodeFixed32 at 1.
  rewrite skipn_app, length_le_split, skipn_all2 by (rewrite length_le_split; lia).
  cbn [app Nat.sub skipn].
  rewrite <- (app_nil_r (EncodeFixed32 _)), DecodeFixed32_EncodeFixed32.
  apply magic_recombine. exact Hm.
Qed.

Lemma DecodeFrom_handles_ok f0 f rest :
  valid_handle (metaindex_handle_ f) -> valid_handle (index_handle_ f) ->
  DecodeFrom_handles f0 (handles_bytes f ++ rest)
  = (Status.OK,
     set_index_handle (set_metaindex_handle f0 (metaindex_handle_ f))
                      (index_handle_ f), []).
Proof.
  intros Hm Hi. unfold DecodeFrom_handles, handles_bytes.
  rewrite <- !app_assoc.
  rewrite BlockHandle_DecodeFrom_EncodeTo by exact Hm. cbn [Status.ok Status.code Status.OK].
  rewrite BlockHandle_DecodeFrom_EncodeTo by exact Hi. reflexivity.
Qed.
Lemma size_versioned_body f : size (versioned_body f) <= 41.
Proof.
  pose proof (size_handles_bytes f). unfold versioned_body.
  change (size (?b :: ?l)) with (Z.of_nat (S (List.length l))).
  unfold size in *. lia.
Qed.

Lemma size_extent_body f : size (extent_body f) <= 53.
Proof.
  pose proof (size_versioned_body f). unfold extent_body.
  rewrite !size_app, size_EncodeFixed32, size_EncodeFixed64.
  fold (versioned_body f). lia.
Qed.

Lemma size_legacy_bytes f : size (legacy_bytes f) = 48.
Proof.
  unfold legacy_bytes, padding.
  rewrite size_app, size_pad, size_magic_bytes by apply size_handles_bytes.
  reflexivity.
Qed.

Lemma size_versioned_bytes f : size (versioned_bytes f) = 53.
Proof.
  unfold versioned_bytes, padding.
  rewrite !size_app, size_EncodeFixed32, size_magic_bytes.
  rewrite <- size_app, size_pad by apply size_versioned_body. reflexivity.
Qed.

Lemma size_extent_bytes f : size (extent_bytes f) = 65.
Proof.
  unfold extent_bytes, padding.
  rewrite !size_app, size_EncodeFixed32, size_magic_bytes.
  rewrite <- size_app, size_pad by apply size_extent_body. reflexivity.
Qed.

Section FooterRoundTrip.
Variable M : MagicNumbers.
Hypothesis M_ok : MagicNumbers_ok M.

Lemma EncodeTo_legacy f dst :
  IsLegacyFooterFormat M (table_magic_number_ f) = true ->
  Footer_EncodeTo M f dst = dst ++ legacy_bytes f.
Proof.
  intros HL. unfold Footer_EncodeTo. rewrite HL, encode_handles.
  change (2 * BlockHandle_kMaxEncodedLength) with 40.
  rewrite resize_pad by apply size_handles_bytes.
  unfold PutFixed32, legacy_bytes, magic_bytes, padding.
  rewrite <- !app_assoc. reflexivity.
Qed.

Lemma EncodeTo_versioned f dst :
  IsLegacyFooterFormat M (table_magic_number_ f) = false ->
  table_magic_number_ f = kBlockBasedTableMagicNumber ->
  Footer_EncodeTo M f dst = dst ++ versioned_bytes f.
Proof.
  intros HL HB. unfold Footer_EncodeTo. rewrite HL, HB, Z.eqb_refl.
  rewrite encode_handles, <- app_assoc. cbn [app].
  fold (versioned_body f).
  replace (size dst + kNewVersionsEncodedLength - 12) with (size dst + 41)
    by (unfold kNewVersionsEncodedLength, BlockHandle_kMaxEncodedLength; lia).
  rewrite resize_pad by apply size_versioned_body.
  unfold PutFixed32, versioned_bytes, magic_bytes, padding.
  rewrite HB, <- !app_assoc. reflexivity.
Qed.

Lemma EncodeTo_extent f dst :
  IsLegacyFooterFormat M (table_magic_number_ f) = false ->
  table_magic_number_ f <> kBlockBasedTableMagicNumber ->
  Footer_EncodeTo M f dst = dst ++ extent_bytes f.
Proof.
  intros HL HB. unfold Footer_EncodeTo. rewrite HL.
  destruct (Z.eqb_spec (table_magic_number_ f) kBlockBasedTableMagicNumber);
    [contradiction|].
  rewrite encode_handles. unfold PutFixed32 at 4, PutFixed64.
  rewrite <- !app_assoc. cbn [app]. fold (extent_body f).
  replace (size dst + kVersion3EncodedLength - 12) with (size dst + 53)
    by (unfold kVersion3EncodedLength, BlockHandle_kMaxEncodedLength; lia).
  rewrite resize_pad by apply size_extent_body.
  unfold PutFixed32, extent_bytes, magic_bytes, padding.
  rewrite <- !app_assoc. reflexivity.
Qed.

(** The magic number and the version that [DecodeFrom] reads at the end
    of an input. *)
Lemma magic_at_end pre m :
  uint64 m ->
  let input := pre ++ magic_bytes m in
  Z.lor
    (Z.shiftl
       (DecodeFixed32
          (skipn 4 (remove_prefix (size input - kMagicNumberLengthByte) input)))
       32)
    (DecodeFixed32 (remove_prefix (size input - kMagicNumberLengthByte) input))
  = m.
Proof. intros Hm. apply magic_of_bytes. exact Hm. Qed.

Lemma version_at_end pre v m :
  let input := pre ++ EncodeFixed32 v ++ magic_bytes m in
  DecodeFixed32 (remove_prefix (size input - kMagicNumberLengthByte - 4) input)
  = v mod 2 ^ 32.
Proof.
  intros input. subst input.
  rewrite remove_prefix_app.
  - apply DecodeFixed32_EncodeFixed32.
  - rewrite !size_app, size_EncodeFixed32, size_magic_bytes.
    unfold kMagicNumberLengthByte. lia.
Qed.

Lemma uint64_kBlockBasedTableMagicNumber : uint64 kBlockBasedTableMagicNumber.
Proof. split; vm_compute; congruence. Qed.

Lemma uint64_kLegacyBlockBasedTableMagicNumber :
  uint64 kLegacyBlockBasedTableMagicNumber.
Proof. split; vm_compute; congruence. Qed.

Lemma uint64_magic l f :
  layout_of M f = Some l -> uint64 (table_magic_number_ f).
Proof.
  unfold layout_of, IsLegacyFooterFormat. intros H.
  destruct (Z.eqb_spec (table_magic_number_ f) kLegacyBlockBasedTableMagicNumber)
    as [->|_]; [apply uint64_kLegacyBlockBasedTableMagicNumber|].
  destruct (Z.eqb_spec (table_magic_number_ f) (kLegacyPlainTableMagicNumber M))
    as [->|_]; [apply M_ok|].
  cbn [orb] in H.
  destruct (Z.eqb_spec (table_magic_number_ f) kBlockBasedTableMagicNumber)
    as [->|_]; [apply uint64_kBlockBasedTableMagicNumber|].
  destruct (Z.eqb_spec (table_magic_number_ f) (kExtentBasedTableMagicNumber M))
    as [->|_]; [apply M_ok | discriminate H].
Qed.

Lemma DecodeFrom_legacy f f0 dst :
  IsLegacyFooterFormat M (table_magic_number_ f) = true ->
  uint64 (table_magic_number_ f) ->
  valid_handle (metaindex_handle_ f) -> valid_handle (index_handle_ f) ->
  Footer_DecodeFrom M f0 (dst ++ legacy_bytes f)
  = Returned
      (Status.OK,
       mkFooter 0 (valid_size_ f0) (next_extent_ f0) kCRC32c
                (metaindex_handle_ f) (index_handle_ f)
                (UpconvertLegacyFooterFormat M (table_magic_number_ f)),
       []).
Proof.
  intros HL Hm Hmh Hih. unfold Footer_DecodeFrom.
  pose proof (size_nonneg dst) as Hdst.
  assert (Hsize : size (dst ++ legacy_bytes f) = size dst + 48)
    by (rewrite size_app, size_legacy_bytes; reflexivity).
  destruct (Z.ltb_spec (size (dst ++ legacy_bytes f)) kMinEncodedLength) as [Hlt|_].
  { unfold kMinEncodedLength, kVersion0EncodedLength,
      BlockHandle_kMaxEncodedLength in Hlt. lia. }
  assert (Hmagic := magic_at_end
                      (dst ++ handles_bytes f ++ padding 40 (handles_bytes f))
                      (table_magic_number_ f) Hm).
  cbv zeta in Hmagic. cbv zeta. unfold legacy_bytes.
  rewrite <- !app_assoc in Hmagic. rewrite <- !app_assoc.
  rewrite Hmagic, HL.
  rewrite remove_prefix_app.
  2:{ unfold legacy_bytes in Hsize. rewrite <- !app_assoc in Hsize.
      rewrite Hsize. unfold kVersion0EncodedLength,
        BlockHandle_kMaxEncodedLength. lia. }
  rewrite DecodeFrom_handles_ok by assumption. reflexivity.
Qed.

Lemma not_legacy_block_based :
  IsLegacyFooterFormat M kBlockBasedTableMagicNumber = false.
Proof.
  unfold IsLegacyFooterFormat.
  destruct (Z.eqb_spec kBlockBasedTableMagicNumber (kLegacyPlainTableMagicNumber M))
    as [E|_]; [|reflexivity].
  symmetry in E. apply M_ok in E. contradiction.
Qed.

Lemma DecodeFrom_versioned f f0 dst :
  table_magic_number_ f = kBlockBasedTableMagicNumber ->
  uint32 (version_ f) -> 0 <= checksum_ f < 128 ->
  valid_handle (metaindex_handle_ f) -> valid_handle (index_handle_ f) ->
  Footer_DecodeFrom M f0 (dst ++ versioned_bytes f)
  = Returned
      (Status.OK,
       mkFooter (version_ f) (valid_size_ f0) (next_extent_ f0) (checksum_ f)
                (metaindex_handle_ f) (index_handle_ f)
                kBlockBasedTableMagicNumber,
       []).
Proof.
  intros HB Hv Hc Hmh Hih. unfold Footer_DecodeFrom.
  pose proof (size_nonneg dst) as Hdst.
  assert (Hsize : size (dst ++ versioned_bytes f) = size dst + 53)
    by (rewrite size_app, size_versioned_bytes; reflexivity).
  destruct (Z.ltb_spec (size (dst ++ versioned_bytes f)) kMinEncodedLength)
    as [Hlt|_].
  { unfold kMinEncodedLength, kVersion0EncodedLength,
      BlockHandle_kMaxEncodedLength in Hlt. lia. }
  assert (Hmagic := magic_at_end
                      (dst ++ versioned_body f ++ padding 41 (versioned_body f)
                           ++ EncodeFixed32 (version_ f))
                      (table_magic_number_ f)).
  assert (Hversion := version_at_end
                        (dst ++ versioned_body f ++ padding 41 (versioned_body f))
                        (version_ f) (table_magic_number_ f)).
  cbv zeta in Hmagic, Hversion. cbv zeta.
  unfold versioned_bytes in *.
  rewrite <- !app_assoc in Hmagic. rewrite <- !app_assoc in Hversion.
  rewrite <- !app_assoc in Hsize. rewrite <- !app_assoc.
  rewrite Hmagic, Hversion by (rewrite HB; apply uint64_kBlockBasedTableMagicNumber).
  rewrite Hsize, HB, not_legacy_block_based, Z.eqb_refl.
  destruct (Z.ltb_spec (size dst + 53) kNewVersionsEncodedLength) as [Hlt|_].
  { unfold kNewVersionsEncodedLength, BlockHandle_kMaxEncodedLength in Hlt. lia. }
  rewrite remove_prefix_app
    by (unfold kNewVersionsEncodedLength, BlockHandle_kMaxEncodedLength; lia).
  unfold versioned_body. cbn [app].
  rewrite GetVarint32_one_byte by exact Hc.
  rewrite DecodeFrom_handles_ok by assumption.
  unfold to_ChecksumType. rewrite (Z.mod_small (checksum_ f)) by lia.
  rewrite (Z.mod_small (version_ f)) by exact Hv. reflexivity.
Qed.

Lemma DecodeFrom_extent f f0 dst :
  table_magic_number_ f = kExtentBasedTableMagicNumber M ->
  uint32 (version_ f) -> 0 <= checksum_ f < 128 ->
  uint32 (valid_size_ f) -> uint64 (next_extent_ f) ->
  valid_handle (metaindex_handle_ f) -> valid_handle (index_handle_ f) ->
  Footer_DecodeFrom M f0 (dst ++ extent_bytes f)
  = Returned
      (Status.OK,
       mkFooter (version_ f) (valid_size_ f) (next_extent_ f) (checksum_ f)
                (metaindex_handle_ f) (index_handle_ f)
                (kExtentBasedTableMagicNumber M),
       []).
Proof.
  intros HE Hv Hc Hvs Hne Hmh Hih. unfold Footer_DecodeFrom.
  pose proof (size_nonneg dst) as Hdst.
  assert (Hsize : size (dst ++ extent_bytes f) = size dst + 65)
    by (rewrite size_app, size_extent_bytes; reflexivity).
  destruct (Z.ltb_spec (size (dst ++ extent_bytes f)) kMinEncodedLength)
    as [Hlt|_].
  { unfold kMinEncodedLength, kVersion0EncodedLength,
      BlockHandle_kMaxEncodedLength in Hlt. lia. }
  assert (Hmagic := magic_at_end
                      (dst ++ extent_body f ++ padding 53 (extent_body f)
                           ++ EncodeFixed32 (version_ f))
                      (table_magic_number_ f)).
  assert (Hversion := version_at_end
                        (dst ++ extent_body f ++ padding 53 (extent_body f))
                        (version_ f) (table_magic_number_ f)).
  cbv zeta in Hmagic, Hversion. cbv zeta.
  unfold extent_bytes in *.
  rewrite <- !app_assoc in Hmagic. rewrite <- !app_assoc in Hversion.
  rewrite <- !app_assoc in Hsize. rewrite <- !app_assoc.
  rewrite Hmagic, Hversion by (rewrite HE; apply M_ok).
  rewrite Hsize, HE, (extent_not_legacy M M_ok).
  destruct (Z.eqb_spec (kExtentBasedTableMagicNumber M) kBlockBasedTableMagicNumber)
    as [E|_]; [apply M_ok in E; contradiction|].
  rewrite Z.eqb_refl.
  destruct (Z.ltb_spec (size dst + 65) kVersion3EncodedLength) as [Hlt|_].
  { unfold kVersion3EncodedLength, BlockHandle_kMaxEncodedLength in Hlt. lia. }
  rewrite remove_prefix_app
    by (unfold kVersion3EncodedLength, BlockHandle_kMaxEncodedLength; lia).
  unfold extent_body. rewrite <- !app_assoc.
  rewrite GetFixed32_EncodeFixed32, GetFixed64_EncodeFixed64. cbn [app].
  rewrite GetVarint32_one_byte by exact Hc.
  rewrite DecodeFrom_handles_ok by assumption.
  unfold to_ChecksumType. rewrite (Z.mod_small (checksum_ f)) by lia.
  rewrite (Z.mod_small (version_ f)) by exact Hv.
  rewrite (Z.mod_small (valid_size_ f)) by exact Hvs.
  rewrite (Z.mod_small (next_extent_ f)) by exact Hne. reflexivity.
Qed.

Lemma valid_checksum_range c : valid_checksum c -> 0 <= c < 128.
Proof.
  unfold valid_checksum, kNoChecksum, kCRC32c, kxxHash. lia.
Qed.

(** What [Footer::DecodeFrom] makes of a magic number is its canonical
    magic number. *)
Lemma canonical_magic_Upconvert magic :
  canonical_magic M magic
  = if IsLegacyFooterFormat M magic
    then UpconvertLegacyFooterFormat M magic
    else magic.
Proof.
  unfold canonical_magic, IsLegacyFooterFormat, UpconvertLegacyFooterFormat.
  change 0xdb4775248b80fb57 with kLegacyBlockBasedTableMagicNumber.
  change 0x88e241b785f4cff7 with kBlockBasedTableMagicNumber.
  destruct (magic =? kLegacyBlockBasedTableMagicNumber); [reflexivity|].
  destruct (magic =? kLegacyPlainTableMagicNumber M); reflexivity.
Qed.

(** C1.  For each of the three layouts and every valid combination of
    fields, decoding what [Footer::EncodeTo] appended to a string gives
    OK and a footer with the same version, checksum type and handles,
    and in the extent layout the same [valid_size] and [next_extent].
    Its magic number is the canonical one of the magic number that was
    encoded: [0x88e241b785f4cff7] for the legacy block-based magic
    number [0xdb4775248b80fb57], the plain-table magic number for the
    legacy plain-table one, and the magic number itself otherwise. *)
Theorem Footer_roundtrip l f f0 dst :
  valid_footer M l f ->
  exists g,
    Footer_DecodeFrom M f0 (Footer_EncodeTo M f dst)
    = Returned (Status.OK, g, [])
    /\ same_footer M l f g.
Proof.
  intros (Hl & Hmh & Hih & Hfields).
  pose proof (uint64_magic l f Hl) as Hm.
  unfold layout_of in Hl. unfold same_footer.
  rewrite canonical_magic_Upconvert.
  destruct (IsLegacyFooterFormat M (table_magic_number_ f)) eqn:HL.
  - inversion Hl; subst l. destruct Hfields as [Hv Hc].
    rewrite EncodeTo_legacy by exact HL.
    rewrite DecodeFrom_legacy by assumption.
    eexists. split; [reflexivity|]. cbn. rewrite Hv, Hc. repeat split.
  - destruct (Z.eqb_spec (table_magic_number_ f) kBlockBasedTableMagicNumber)
      as [HB|HB].
    + inversion Hl; subst l. destruct Hfields as [Hv Hc].
      rewrite EncodeTo_versioned by assumption.
      rewrite DecodeFrom_versioned
        by (try assumption; apply valid_checksum_range; exact Hc).
      eexists. split; [reflexivity|]. cbn. rewrite HB. repeat split.
    + destruct (Z.eqb_spec (table_magic_number_ f) (kExtentBasedTableMagicNumber M))
        as [HE|HE]; [|discriminate Hl].
      inversion Hl; subst l. destruct Hfields as (Hv & Hc & Hvs & Hne).
      rewrite EncodeTo_extent by assumption.
      rewrite DecodeFrom_extent
        by (try assumption; apply valid_checksum_range; exact Hc).
      eexists. split; [reflexivity|]. cbn. rewrite HE. repeat split.
Qed.

(** C7 (what the code does).  An input of footer length whose last
    eight bytes are no recognized magic number makes
    [Footer::DecodeFrom] reach [abort()]: no status comes back. *)
Theorem DecodeFrom_unrecognized_magic_aborts f0 input :
  kMinEncodedLength <= size input ->
  recognized_magic M (trailing_magic input) = false ->
  Footer_DecodeFrom M f0 input = Aborted.
Proof.
  intros Hsize Hmagic. unfold Footer_DecodeFrom.
  destruct (Z.ltb_spec (size input) kMinEncodedLength) as [Hlt|_]; [lia|].
  cbv zeta.
  set (magic_ptr := remove_prefix (size input - kMagicNumberLengthByte) input).
  assert (E : Z.lor (Z.shiftl (DecodeFixed32 (skipn 4 magic_ptr)) 32)
                    (DecodeFixed32 magic_ptr) = trailing_magic input).
  { subst magic_ptr. unfold remove_prefix, trailing_magic, size,
      kMagicNumberLengthByte.
    unfold kMinEncodedLength, kVersion0EncodedLength,
      BlockHandle_kMaxEncodedLength, size in Hsize.
    replace (Z.to_nat (Z.of_nat (List.length input) - 8))
      with (List.length input - 8)%nat by lia.
    set (p := skipn (List.length input - 8) input).
    assert (Hp : List.length p = 8%nat)
      by (subst p; rewrite length_skipn; lia).
    rewrite <- (firstn_skipn 4 p) at 3.
    rewrite le_combine_app, length_firstn, Hp. cbn [Nat.min Z.of_nat].
    unfold DecodeFixed32.
    rewrite (firstn_all2 (n := 4) (skipn 4 p)) by (rewrite length_skipn; lia).
    rewrite Z.lor_comm. reflexivity. }
  rewrite E. unfold recognized_magic in Hmagic.
  apply orb_false_elim in Hmagic. destruct Hmagic as [Hmagic HE].
  apply orb_false_elim in Hmagic. destruct Hmagic as [HL HB].
  rewrite HL, HB, HE. reflexivity.
Qed.

End FooterRoundTrip.

Lemma Sample_magic_ok : MagicNumbers_ok Sample.magic.
Proof.
  constructor; try (split; vm_compute; congruence);
    try (vm_compute; congruence); reflexivity.
Qed.

Lemma Footer_roundtrip_witness :
  (exists g,
      Footer_DecodeFrom Sample.magic (Footer_new 0 0)
        (Footer_EncodeTo Sample.magic Sample.legacy_footer [])
      = Returned (Status.OK, g, [])
      /\ same_footer Sample.magic Legacy Sample.legacy_footer g
      /\ table_magic_number_ Sample.legacy_footer = 0xdb4775248b80fb57
      /\ table_magic_number_ g = 0x88e241b785f4cff7)
  /\ (exists g,
      Footer_DecodeFrom Sample.magic (Footer_new 0 0)
        (Footer_EncodeTo Sample.magic Sample.extent_footer [Byte.x2a])
      = Returned (Status.OK, g, [])
      /\ same_footer Sample.magic ExtentBased Sample.extent_footer g).
Proof.
  split.
  - destruct (Footer_roundtrip Sample.magic Sample_magic_ok Legacy
                               Sample.legacy_footer (Footer_new 0 0) [])
      as (g & Hg & Hsame).
    + repeat split; vm_compute; congruence.
    + exists g. split; [exact Hg|]. split; [exact Hsame|].
      split; [reflexivity|]. destruct Hsame as [Hmagic _].
      rewrite Hmagic. reflexivity.
  - apply (Footer_roundtrip Sample.magic Sample_magic_ok).
    unfold valid_footer, valid_checksum.
    repeat split; try (vm_compute; congruence). right. left. reflexivity.
Defined.

Lemma DecodeFrom_unrecognized_magic_aborts_witness :
  Footer_DecodeFrom Sample.magic (Footer_new 0 0) Sample.zero_footer = Aborted.
Proof.
  apply DecodeFrom_unrecognized_magic_aborts.
  - vm_compute. congruence.
  - vm_compute. reflexivity.
Defined.

(** ** The checksums of the sample library *)

Lemma lxor_range a b n :
  0 <= n -> 0 <= a < 2 ^ n -> 0 <= b < 2 ^ n -> 0 <= Z.lxor a b < 2 ^ n.
Proof.
  intros Hn Ha Hb.
  assert (H0 : 0 <= Z.lxor a b) by (apply Z.lxor_nonneg; lia).
  split; [exact H0|].
  destruct (Z.eq_dec (Z.lxor a b) 0) as [->|Hz]; [apply Z.pow_pos_nonneg; lia|].
  apply Z.log2_lt_pow2; [lia|].
  destruct (Z.ltb_spec (Z.log2 (Z.lxor a b)) n) as [|Hge]; [assumption|].
  exfalso.
  assert (Hbit : Z.testbit (Z.lxor a b) (Z.log2 (Z.lxor a b)) = true)
    by (apply Z.bit_log2; lia).
  rewrite Z.lxor_spec in Hbit.
  rewrite (testbit_above a n (Z.log2 (Z.lxor a b)) Ha (conj Hn Hge)) in Hbit.
  rewrite (testbit_above b n (Z.log2 (Z.lxor a b)) Hb (conj Hn Hge)) in Hbit.
  discriminate Hbit.
Qed.

Lemma shiftr1_range a : 0 <= a < 2 ^ 32 -> 0 <= Z.shiftr a 1 < 2 ^ 32.
Proof.
  intros H. rewrite Z.shiftr_div_pow2 by lia. change (2 ^ 1) with 2.
  split; [apply Z.div_pos; lia|].
  apply Z.div_lt_upper_bound; lia.
Qed.

Lemma crc_bits_range n : forall crc,
  0 <= crc < 2 ^ 32 -> 0 <= Sample.crc_bits n crc < 2 ^ 32.
Proof.
  induction n as [|n IH]; intros crc H; cbn [Sample.crc_bits]; [exact H|].
  apply IH. destruct (Z.testbit crc 0).
  - apply lxor_range; [lia | apply shiftr1_range; exact H |].
    split; vm_compute; congruence.
  - apply shiftr1_range. exact H.
Qed.

Lemma crc_byte_range l b : 0 <= l < 2 ^ 32 -> 0 <= Sample.crc_byte l b < 2 ^ 32.
Proof.
  intros H. apply crc_bits_range. apply lxor_range; [lia|exact H|].
  pose proof (byte.unsigned_range b) as Hb.
  split; [lia|]. eapply Z.lt_trans; [apply Hb|reflexivity].
Qed.

Lemma fold_crc_byte_range data : forall l,
  0 <= l < 2 ^ 32 -> 0 <= fold_left Sample.crc_byte data l < 2 ^ 32.
Proof.
  induction data as [|b data IH]; intros l H; cbn [fold_left]; [exact H|].
  apply IH. apply crc_byte_range. exact H.
Qed.

Lemma Sample_crc32c_Extend_range init data :
  0 <= init < 2 ^ 32 -> 0 <= Sample.crc32c_Extend init data < 2 ^ 32.
Proof.
  intros H. unfold Sample.crc32c_Extend.
  apply lxor_range; [lia| |split; vm_compute; congruence].
  apply fold_crc_byte_range.
  apply lxor_range; [lia|exact H|split; vm_compute; congruence].
Qed.

Lemma Sample_crc32c_Extend_Value a b :
  Sample.crc32c_Extend (Sample.crc32c_Value a) b = Sample.crc32c_Value (a ++ b).
Proof.
  unfold Sample.crc32c_Value, Sample.crc32c_Extend.
  rewrite fold_left_app. rewrite (Z.lxor_assoc _ 0xffffffff 0xffffffff).
  rewrite Z.lxor_nilpotent, Z.lxor_0_r. reflexivity.
Qed.

Lemma testbit_wrap32 z i :
  0 <= i -> Z.testbit (wrap32 z) i = (i <? 32) && Z.testbit z i.
Proof.
  intros Hi. unfold wrap32. destruct (Z.ltb_spec i 32).
  - rewrite Z.mod_pow2_bits_low by lia. reflexivity.
  - rewrite Z.mod_pow2_bits_high by lia. reflexivity.
Qed.

Lemma rotate_back c :
  uint32 c ->
  let x := Z.lor (Z.shiftr c 15) (wrap32 (Z.shiftl c 17)) in
  wrap32 (Z.lor (Z.shiftr x 17) (wrap32 (Z.shiftl x 15))) = c.
Proof.
  intros Hc x. subst x. apply Z.bits_inj'; intros i Hi.
  rewrite testbit_wrap32, Z.lor_spec, Z.shiftr_spec, testbit_wrap32 by lia.
  rewrite Z.shiftl_spec, !Z.lor_spec, !Z.shiftr_spec by lia.
  rewrite !testbit_wrap32 by lia. rewrite !Z.shiftl_spec by lia.
  destruct (Z.ltb_spec i 32) as [Hlt|Hge]; cbn [andb].
  - destruct (Z.ltb_spec i 15) as [H15|H15].
    + rewrite (testbit_above c 32 (i + 17 + 15)) by (unfold uint32 in Hc; lia).
      rewrite !(Z.testbit_neg_r _ (i - 15)) by lia.
      destruct (Z.ltb_spec (i + 17) 32); [|lia].
      cbn [andb orb]. rewrite orb_false_r. f_equal. lia.
    + destruct (Z.ltb_spec (i + 17) 32); [lia|].
      cbn [andb orb].
      rewrite Z.shiftr_spec, testbit_wrap32, Z.shiftl_spec by lia.
      destruct (Z.ltb_spec (i - 15) 32); [|lia]. cbn [andb].
      rewrite (Z.testbit_neg_r _ (i - 15 - 17)) by lia.
      rewrite (testbit_above c 32 (i + 17 + 15)) by (unfold uint32 in Hc; lia).
      cbn [orb]. rewrite !orb_false_r. f_equal. lia.
  - symmetry. apply (testbit_above c 32); [exact Hc|lia].
Qed.

Lemma rotate_range c :
  uint32 c -> uint32 (Z.lor (Z.shiftr c 15) (wrap32 (Z.shiftl c 17))).
Proof.
  intros [H0 H1]. unfold uint32.
  assert (Hr : 0 <= Z.shiftr c 15 < 2 ^ 32).
  { rewrite Z.shiftr_div_pow2 by lia. split; [apply Z.div_pos; lia|].
    apply Z.div_lt_upper_bound; lia. }
  assert (Hw : 0 <= wrap32 (Z.shiftl c 17) < 2 ^ 32)
    by (apply Z.mod_pos_bound; lia).
  split; [apply Z.lor_nonneg; lia|].
  destruct (Z.eq_dec (Z.lor (Z.shiftr c 15) (wrap32 (Z.shiftl c 17))) 0)
    as [->|Hz]; [lia|].
  apply Z.log2_lt_pow2; [pose proof (Z.lor_nonneg (Z.shiftr c 15)
                                       (wrap32 (Z.shiftl c 17))); lia|].
  rewrite Z.log2_lor by lia.
  apply Z.max_lub_lt.
  - destruct (Z.eq_dec (Z.shiftr c 15) 0) as [->|]; [cbn; lia|].
    apply Z.log2_lt_pow2; lia.
  - destruct (Z.eq_dec (wrap32 (Z.shiftl c 17)) 0) as [->|]; [cbn; lia|].
    apply Z.log2_lt_pow2; lia.
Qed.

Lemma Sample_Unmask_Mask c :
  uint32 c ->
  wrap32 (Sample.crc32c_Unmask (wrap32 (Sample.crc32c_Mask c))) = c.
Proof.
  intros Hc. unfold Sample.crc32c_Unmask, Sample.crc32c_Mask.
  set (x := Z.lor (Z.shiftr c 15) (wrap32 (Z.shiftl c 17))).
  assert (Hx : uint32 x) by (apply rotate_range; exact Hc).
  assert (Hrot : wrap32 (wrap32 (wrap32 (x + Sample.kMaskDelta))
                         - Sample.kMaskDelta) = x).
  { unfold wrap32. rewrite Z.mod_mod by lia.
    rewrite Zminus_mod_idemp_l.
    replace (x + Sample.kMaskDelta - Sample.kMaskDelta) with x by lia.
    apply Z.mod_small. exact Hx. }
  rewrite Hrot. apply rotate_back. exact Hc.
Qed.

Lemma Sample_checksums_ok : Checksum.Lib_ok Sample.checksums.
Proof.
  constructor; cbn.
  - intros a. apply Sample_crc32c_Extend_range. split; vm_compute; congruence.
  - apply Sample_crc32c_Extend_Value.
  - apply Sample_Unmask_Mask.
Qed.

(** ** Reading a block *)

Import Checksum Reader Compression Builder BlockWording.

Lemma static_cast_int_small n : 0 <= n < 2 ^ 31 -> static_cast_int n = n.
Proof.
  intros H. unfold static_cast_int.
  rewrite Z.mod_small by (split; [lia|]; eapply Z.lt_trans; [apply H|reflexivity]).
  destruct (Z.ltb_spec n (2 ^ 31)); [reflexivity|lia].
Qed.

Lemma firstn_size_app (a rest : bytes) :
  firstn (Z.to_nat (size a)) (a ++ rest) = a.
Proof.
  unfold size. rewrite Nat2Z.id.
  rewrite firstn_app, Nat.sub_diag, firstn_all. cbn. apply app_nil_r.
Qed.

Lemma skipn_size_app (a rest : bytes) :
  skipn (Z.to_nat (size a)) (a ++ rest) = rest.
Proof.
  unfold size. rewrite Nat2Z.id.
  rewrite skipn_app, skipn_all, Nat.sub_diag. reflexivity.
Qed.

Lemma block_checksum_range L algorithm payload :
  0 <= block_checksum L algorithm payload < 2 ^ 32.
Proof.
  unfold block_checksum, wrap32.
  destruct (algorithm =? kxxHash); apply Z.mod_pos_bound; reflexivity.
Qed.

(** *** One flipped bit *)

Lemma lxor_cancel_r a b c : Z.lxor a c = Z.lxor b c -> a = b.
Proof.
  intros H. apply (f_equal (fun x => Z.lxor x c)) in H.
  rewrite !Z.lxor_assoc, Z.lxor_nilpotent, !Z.lxor_0_r in H. exact H.
Qed.

Lemma lxor_cancel_l a b c : Z.lxor c a = Z.lxor c b -> a = b.
Proof.
  intros H. rewrite (Z.lxor_comm c a), (Z.lxor_comm c b) in H.
  exact (lxor_cancel_r a b c H).
Qed.

Lemma flipped_byte_differs b k :
  0 <= k < 8 -> byte.of_Z (Z.lxor (byte.unsigned b) (2 ^ k)) <> b.
Proof.
  intros Hk Heq. apply (f_equal byte.unsigned) in Heq.
  pose proof (byte.unsigned_range b) as Hb.
  assert (Hp : 0 < 2 ^ k < 2 ^ 8).
  { split; [apply Z.pow_pos_nonneg; lia|].
    apply Z.pow_lt_mono_r; lia. }
  rewrite unsigned_of_Z_small in Heq.
  - rewrite <- (Z.lxor_0_r (byte.unsigned b)) in Heq at 2.
    apply lxor_cancel_l in Heq. lia.
  - change 256 with (2 ^ 8). apply lxor_range; [lia| |lia].
    change (2 ^ 8) with 256. exact Hb.
Qed.

Lemma flip_bit_split (payload : bytes) i k :
  (i < List.length payload)%nat ->
  exists pre b post,
    payload = pre ++ b :: post
    /\ flip_bit payload i k
       = pre ++ byte.of_Z (Z.lxor (byte.unsigned b) (2 ^ k)) :: post.
Proof.
  intros Hi. unfold flip_bit.
  pose proof (firstn_skipn i payload) as Hsplit.
  destruct (skipn i payload) as [|b post] eqn:Hs.
  - exfalso. apply (f_equal (@List.length byte)) in Hs.
    rewrite length_skipn in Hs. cbn in Hs. lia.
  - exists (firstn i payload), b, post. split; [symmetry; exact Hsplit|].
    reflexivity.
Qed.

Lemma size_flip_bit (payload : bytes) i k :
  size (flip_bit payload i k) = size payload.
Proof.
  unfold flip_bit, size.
  pose proof (firstn_skipn i payload) as Hsplit.
  apply (f_equal (@List.length byte)) in Hsplit.
  rewrite length_app in Hsplit. rewrite length_app.
  destruct (skipn i payload); cbn [List.length] in *; lia.
Qed.

(** *** The CRC32C of the sample library tells single bytes apart *)

Lemma crc_step_range a :
  0 <= a < 2 ^ 32 ->
  0 <= (if Z.testbit a 0
        then Z.lxor (Z.shiftr a 1) Sample.crc32c_poly
        else Z.shiftr a 1) < 2 ^ 32.
Proof. intros H. exact (crc_bits_range 1 a H). Qed.

Lemma crc_step_top_bit a :
  0 <= a < 2 ^ 32 ->
  Z.testbit (if Z.testbit a 0
             then Z.lxor (Z.shiftr a 1) Sample.crc32c_poly
             else Z.shiftr a 1) 31
  = Z.testbit a 0.
Proof.
  intros H.
  assert (Hs : Z.testbit (Z.shiftr a 1) 31 = false).
  { rewrite Z.shiftr_spec by lia.
    apply (testbit_above a 32 (31 + 1) H). lia. }
  destruct (Z.testbit a 0).
  - rewrite Z.lxor_spec, Hs. reflexivity.
  - exact Hs.
Qed.

Lemma crc_step_inj a b :
  0 <= a < 2 ^ 32 -> 0 <= b < 2 ^ 32 ->
  (if Z.testbit a 0
   then Z.lxor (Z.shiftr a 1) Sample.crc32c_poly
   else Z.shiftr a 1)
  = (if Z.testbit b 0
     then Z.lxor (Z.shiftr b 1) Sample.crc32c_poly
     else Z.shiftr b 1) ->
  a = b.
Proof.
  intros Ha Hb H.
  pose proof (crc_step_top_bit a Ha) as Ta.
  pose proof (crc_step_top_bit b Hb) as Tb.
  rewrite H, Tb in Ta.
  assert (Hshift : Z.shiftr a 1 = Z.shiftr b 1).
  { rewrite <- Ta in H. destruct (Z.testbit b 0).
    - exact (lxor_cancel_r _ _ _ H).
    - exact H. }
  rewrite (Z.div2_odd a), (Z.div2_odd b).
  rewrite !Z.div2_spec, <- !Z.bit0_odd, Hshift, Ta. reflexivity.
Qed.

Lemma crc_bits_inj n : forall a b,
  0 <= a < 2 ^ 32 -> 0 <= b < 2 ^ 32 ->
  Sample.crc_bits n a = Sample.crc_bits n b -> a = b.
Proof.
  induction n as [|n IH]; intros a b Ha Hb H; cbn [Sample.crc_bits] in H;
    [exact H|].
  apply IH in H; try apply crc_step_range; try assumption.
  exact (crc_step_inj a b Ha Hb H).
Qed.

Lemma byte_in_uint32 (b : byte) : 0 <= byte.unsigned b < 2 ^ 32.
Proof.
  pose proof (byte.unsigned_range b) as Hb.
  split; [lia|]. eapply Z.lt_trans; [apply Hb|reflexivity].
Qed.

Lemma crc_byte_inj_state l l' b :
  0 <= l < 2 ^ 32 -> 0 <= l' < 2 ^ 32 ->
  Sample.crc_byte l b = Sample.crc_byte l' b -> l = l'.
Proof.
  intros Hl Hl' H. unfold Sample.crc_byte in H.
  apply crc_bits_inj in H;
    try (apply lxor_range; [lia|assumption|apply byte_in_uint32]).
  exact (lxor_cancel_r _ _ _ H).
Qed.

Lemma crc_byte_inj_byte l b b' :
  0 <= l < 2 ^ 32 ->
  Sample.crc_byte l b = Sample.crc_byte l b' -> b = b'.
Proof.
  intros Hl H. unfold Sample.crc_byte in H.
  apply crc_bits_inj in H;
    try (apply lxor_range; [lia|assumption|apply byte_in_uint32]).
  apply lxor_cancel_l in H. apply byte.unsigned_inj. exact H.
Qed.

Lemma fold_crc_byte_inj data : forall l l',
  0 <= l < 2 ^ 32 -> 0 <= l' < 2 ^ 32 ->
  fold_left Sample.crc_byte data l = fold_left Sample.crc_byte data l' ->
  l = l'.
Proof.
  induction data as [|b data IH]; intros l l' Hl Hl' H; cbn [fold_left] in H;
    [exact H|].
  apply IH in H; try apply crc_byte_range; try assumption.
  exact (crc_byte_inj_state l l' b Hl Hl' H).
Qed.

Lemma Sample_crc32c_tells_bytes_apart pre b b' post :
  b <> b' ->
  Sample.crc32c_Extend 0 (pre ++ b :: post)
  <> Sample.crc32c_Extend 0 (pre ++ b' :: post).
Proof.
  intros Hne H. apply Hne. unfold Sample.crc32c_Extend in H.
  apply lxor_cancel_r in H. rewrite !fold_left_app in H.
  cbn [fold_left] in H.
  assert (Hinit : 0 <= Z.lxor 0 0xffffffff < 2 ^ 32)
    by (split; vm_compute; congruence).
  pose proof (fold_crc_byte_range pre _ Hinit) as Hpre.
  apply fold_crc_byte_inj in H; try apply crc_byte_range; try assumption.
  exact (crc_byte_inj_byte _ b b' Hpre H).
Qed.

Lemma Sample_detects_bit_flips algorithm :
  detects_bit_flips Sample.checksums algorithm.
Proof.
  intros payload i k Hi Hk.
  assert (Hsame : forall data,
             recomputed_checksum Sample.checksums algorithm data
             = Sample.crc32c_Extend 0 data).
  { intros data. unfold recomputed_checksum.
    assert (Hr : 0 <= Sample.crc32c_Extend 0 data < 2 ^ 32)
      by (apply Sample_crc32c_Extend_range; split; vm_compute; congruence).
    destruct (algorithm =? kxxHash); cbn; apply wrap32_small; exact Hr. }
  rewrite !Hsame.
  destruct (flip_bit_split payload i k Hi) as (pre & b & post & Hp & ->).
  rewrite Hp. apply Sample_crc32c_tells_bytes_apart.
  apply flipped_byte_differs. exact Hk.
Qed.

(** *** The outcomes of [ReadBlock] *)

(** [ReadBlock] with the checksums verified, on a read of full length
    for a handle whose sums do not wrap around: the comparison of the
    recomputed checksum with the stored one decides. *)
Lemma ReadBlock_verified L file footer options handle s contents :
  file (offset_ handle) (size_ handle + kBlockTrailerSize) = (s, contents) ->
  Status.ok s = true ->
  0 <= size_ handle -> size_ handle + kBlockTrailerSize < 2 ^ 64 ->
  size contents = size_ handle + kBlockTrailerSize ->
  verify_checksums options = true ->
  recognized_checksum (checksum_ footer) = true ->
  (checksum_ footer = kxxHash -> size_ handle + 1 < 2 ^ 31) ->
  ReadBlock L file footer options handle
  = if recomputed_checksum L (checksum_ footer)
                           (payload_of contents (size_ handle))
       =? (if checksum_ footer =? kCRC32c
           then wrap32 (crc32c_Unmask
                          L (stored_checksum contents (size_ handle)))
           else stored_checksum contents (size_ handle))
    then Returned (s, contents)
    else Returned (Status.Corruption "block checksum mismatch", contents).
Proof.
  intros Hread Hs H0 Hsize Hlen Hv Hrec Hxx. unfold ReadBlock.
  unfold kBlockTrailerSize in *.
  rewrite (wrap64_small (size_ handle + 5)) by lia.
  rewrite (wrap64_small (size_ handle + 1)) by lia.
  rewrite Hread, Hs, Hlen, Z.eqb_refl, Hv. cbn [negb].
  destruct (Z.ltb_spec (size_ handle + 5) (size_ handle + 1 + 4)) as [|_];
    [lia|].
  fold (stored_checksum contents (size_ handle)).
  fold (payload_of contents (size_ handle)).
  unfold recognized_checksum in Hrec. unfold recomputed_checksum.
  destruct (Z.eqb_spec (checksum_ footer) kCRC32c) as [Ec|Ec].
  - rewrite Ec. change (kCRC32c =? kxxHash) with false.
    rewrite Hs. cbn [andb].
    match goal with
    | |- context [negb (?a =? ?b)] => destruct (a =? b)
    end; reflexivity.
  - cbn [orb] in Hrec. rewrite Hrec. apply Z.eqb_eq in Hrec.
    specialize (Hxx Hrec).
    rewrite static_cast_int_small by lia.
    destruct (Z.eqb_spec (size_ handle) INT_MAX) as [Emax|_];
      [unfold INT_MAX in Emax; lia|].
    destruct (Z.ltb_spec (size_ handle + 1) 0) as [|_]; [lia|].
    cbn [orb]. fold (payload_of contents (size_ handle)).
    rewrite Hs. cbn [andb].
    match goal with
    | |- context [negb (?a =? ?b)] => destruct (a =? b)
    end; reflexivity.
Qed.

(** A block that was written with its checksum, after one bit of its
    bytes or of its type byte was flipped. *)
Lemma flipped_block_differs L algorithm block type i k :
  Checksum.Lib_ok L ->
  recognized_checksum algorithm = true ->
  detects_bit_flips L algorithm ->
  (i <= List.length block)%nat -> 0 <= k < 8 ->
  checksum_differs
    L algorithm
    (flip_bit (block ++ [byte.of_Z type]) i k
       ++ EncodeFixed32 (block_checksum L algorithm (block ++ [byte.of_Z type])))
    (size block).
Proof.
  intros HL Hrec Hdet Hi Hk.
  set (payload := block ++ [byte.of_Z type]).
  assert (Hpl : size (flip_bit payload i k) = size block + 1)
    by (rewrite size_flip_bit; subst payload; rewrite size_app; reflexivity).
  assert (Hil : (i < List.length payload)%nat)
    by (subst payload; rewrite length_app; cbn; lia).
  specialize (Hdet payload i k Hil Hk).
  unfold checksum_differs, payload_of, stored_checksum.
  rewrite <- Hpl, firstn_size_app, skipn_size_app.
  pose proof (DecodeFixed32_EncodeFixed32
                (block_checksum L algorithm payload) []) as Hdec.
  rewrite app_nil_r in Hdec. rewrite Hdec.
  rewrite (Z.mod_small _ _ (block_checksum_range L algorithm payload)).
  unfold recomputed_checksum in Hdet. unfold block_checksum.
  unfold recognized_checksum in Hrec.
  destruct (Z.eqb_spec algorithm kCRC32c) as [Ec|Ec].
  - rewrite Ec in *. change (kCRC32c =? kxxHash) with false in *.
    cbv iota in Hdet |- *.
    rewrite (Unmask_Mask L HL) by (apply Z.mod_pos_bound; reflexivity).
    intros H. apply Hdet. symmetry. exact H.
  - cbn [orb] in Hrec. rewrite Hrec in *.
    intros H. apply Hdet. symmetry. exact H.
Qed.

(** C3, as the code has it.  For a handle whose size and the five bytes
    of the trailer do not go beyond [size_t], a read that succeeds with
    a number of bytes other than [handle.size + 5] gives Corruption.  A
    read of full length gives Corruption when [verify_checksums] is set
    and the stored checksum differs from the recomputed one: this is
    so after the flip of any single bit of the bytes or of the type
    byte of a block that was written with its checksum, for a checksum
    function that detects one flipped bit; with the 32-bit hash the
    size and the type byte have to fit an [int].  It gives Corruption
    too when [verify_checksums] is set and the checksum type of the
    footer is not recognized.  With [verify_checksums] off the bytes
    that were read come back with the status of the read, whatever the
    checksum and the checksum type are. *)
Theorem ReadBlock_status L file footer options handle s contents :
  file (offset_ handle) (size_ handle + kBlockTrailerSize) = (s, contents) ->
  Status.ok s = true ->
  0 <= size_ handle -> size_ handle + kBlockTrailerSize < 2 ^ 64 ->
  (size contents <> size_ handle + kBlockTrailerSize ->
   ReadBlock L file footer options handle
   = Returned (Status.Corruption "truncated block read", contents))
  /\
  (size contents = size_ handle + kBlockTrailerSize ->
   (verify_checksums options = true ->
    recognized_checksum (checksum_ footer) = true ->
    (checksum_ footer = kxxHash -> size_ handle + 1 < 2 ^ 31) ->
    (checksum_differs L (checksum_ footer) contents (size_ handle) ->
     ReadBlock L file footer options handle
     = Returned (Status.Corruption "block checksum mismatch", contents))
    /\
    (Checksum.Lib_ok L -> detects_bit_flips L (checksum_ footer) ->
     forall block type i k,
       contents
       = flip_bit (block ++ [byte.of_Z type]) i k
           ++ EncodeFixed32
                (block_checksum L (checksum_ footer)
                                (block ++ [byte.of_Z type])) ->
       (i <= List.length block)%nat -> 0 <= k < 8 ->
       ReadBlock L file footer options handle
       = Returned (Status.Corruption "block checksum mismatch", contents)))
   /\
   (verify_checksums options = true ->
    recognized_checksum (checksum_ footer) = false ->
    ReadBlock L file footer options handle
    = Returned (Status.Corruption "unknown checksum type", contents))
   /\
   (verify_checksums options = false ->
    ReadBlock L file footer options handle = Returned (s, contents))).
Proof.
  intros Hread Hs H0 Hsize.
  assert (Hwrap : wrap64 (size_ handle + kBlockTrailerSize)
                  = size_ handle + kBlockTrailerSize)
    by (apply wrap64_small; unfold kBlockTrailerSize in *; lia).
  split.
  - intros Hne. unfold ReadBlock. rewrite Hwrap, Hread, Hs. cbn [negb].
    destruct (Z.eqb_spec (size contents) (size_ handle + kBlockTrailerSize));
      [contradiction|reflexivity].
  - intros Hlen.
    assert (Hmismatch :
              verify_checksums options = true ->
              recognized_checksum (checksum_ footer) = true ->
              (checksum_ footer = kxxHash -> size_ handle + 1 < 2 ^ 31) ->
              checksum_differs L (checksum_ footer) contents (size_ handle) ->
              ReadBlock L file footer options handle
              = Returned (Status.Corruption "block checksum mismatch",
                          contents)).
    { intros Hv Hrec Hxx Hdiff.
      rewrite (ReadBlock_verified L file footer options handle s contents)
        by assumption.
      unfold checksum_differs in Hdiff. unfold recomputed_checksum.
      unfold recognized_checksum in Hrec.
      destruct (Z.eqb_spec (checksum_ footer) kCRC32c) as [Ec|Ec].
      - rewrite Ec. change (kCRC32c =? kxxHash) with false. cbv iota.
        destruct (Z.eqb_spec
                    (wrap32 (crc32c_Value
                               L (payload_of contents (size_ handle))))
                    (wrap32 (crc32c_Unmask
                               L (stored_checksum contents (size_ handle)))))
          as [E|_]; [symmetry in E; contradiction|reflexivity].
      - cbn [orb] in Hrec. rewrite Hrec.
        destruct (Z.eqb_spec
                    (wrap32 (XXH32 L (payload_of contents (size_ handle)) 0))
                    (stored_checksum contents (size_ handle)))
          as [E|_]; [symmetry in E; contradiction|reflexivity]. }
    split; [|split].
    + intros Hv Hrec Hxx. split; [exact (Hmismatch Hv Hrec Hxx)|].
      intros HL Hdet block type i k Hc Hi Hk.
      apply (Hmismatch Hv Hrec Hxx).
      assert (Hn : size_ handle = size block).
      { rewrite Hc, size_app, size_flip_bit, size_app, size_EncodeFixed32
          in Hlen.
        unfold kBlockTrailerSize in Hlen.
        change (size [byte.of_Z type]) with 1 in Hlen. lia. }
      rewrite Hn, Hc. apply flipped_block_differs; assumption.
    + intros Hv Hrec. unfold ReadBlock.
      rewrite Hwrap, Hread, Hs, Hlen, Z.eqb_refl, Hv. cbn [negb].
      unfold kBlockTrailerSize in *.
      rewrite (wrap64_small (size_ handle + 1)) by lia.
      destruct (Z.ltb_spec (size_ handle + 5) (size_ handle + 1 + 4)) as [|_];
        [lia|].
      unfold recognized_checksum in Hrec.
      apply orb_false_elim in Hrec. destruct Hrec as [-> ->]. reflexivity.
    + intros Hv. unfold ReadBlock.
      rewrite Hwrap, Hread, Hs, Hlen, Z.eqb_refl, Hv. reflexivity.
Qed.

Lemma ReadBlock_status_witness :
  let footer := set_checksum Sample.versioned_footer kCRC32c in
  let flipped :=
    flip_bit (Sample.sixteen ++ [byte.of_Z kNoCompression]) 3 2
      ++ EncodeFixed32
           (block_checksum Sample.checksums kCRC32c
                           (Sample.sixteen ++ [byte.of_Z kNoCompression])) in
  ReadBlock Sample.checksums (Sample.file_of flipped) footer
            (Sample.read_options true) (mkBlockHandle 0 16)
  = Returned (Status.Corruption "block checksum mismatch", flipped)
  /\ ReadBlock Sample.checksums (Sample.file_of flipped) footer
               (Sample.read_options true) (mkBlockHandle 0 17)
     = Returned (Status.Corruption "truncated block read", flipped)
  /\ ReadBlock Sample.checksums (Sample.file_of flipped) footer
               (Sample.read_options false) (mkBlockHandle 0 16)
     = Returned (Status.OK, flipped).
Proof.
  intros footer flipped. split; [|split].
  - refine (proj2 (proj1 (proj2 (ReadBlock_status
                                   Sample.checksums (Sample.file_of flipped)
                                   footer (Sample.read_options true)
                                   (mkBlockHandle 0 16) Status.OK flipped
                                   eq_refl eq_refl _ _) eq_refl)
                         eq_refl eq_refl _)
                  Sample_checksums_ok (Sample_detects_bit_flips kCRC32c)
                  Sample.sixteen kNoCompression 3%nat 2 eq_refl _ _).
    + vm_compute. congruence.
    + vm_compute. reflexivity.
    + intros H. vm_compute in H. discriminate H.
    + vm_compute. lia.
    + lia.
  - refine (proj1 (ReadBlock_status
                     Sample.checksums (Sample.file_of flipped)
                     footer (Sample.read_options true)
                     (mkBlockHandle 0 17) Status.OK flipped
                     eq_refl eq_refl _ _) _).
    + vm_compute. congruence.
    + vm_compute. reflexivity.
    + vm_compute. congruence.
  - refine (proj2 (proj2 (proj2 (ReadBlock_status
                                   Sample.checksums (Sample.file_of flipped)
                                   footer (Sample.read_options false)
                                   (mkBlockHandle 0 16) Status.OK flipped
                                   eq_refl eq_refl _ _) eq_refl))
                  eq_refl).
    + vm_compute. congruence.
    + vm_compute. reflexivity.
Defined.

(** [static_cast<int>(n) + 1] at [n = INT_MAX]. *)
Lemma ReadBlock_int_overflow L file footer options handle s contents :
  file (offset_ handle) (size_ handle + kBlockTrailerSize) = (s, contents) ->
  Status.ok s = true ->
  size_ handle = INT_MAX ->
  size contents = size_ handle + kBlockTrailerSize ->
  verify_checksums options = true ->
  checksum_ footer = kxxHash ->
  ReadBlock L file footer options handle = OutOfContract.
Proof.
  intros Hread Hs Hn Hlen Hv Hx. unfold ReadBlock.
  rewrite Hn in *.
  change (wrap64 (INT_MAX + kBlockTrailerSize))
    with (INT_MAX + kBlockTrailerSize).
  rewrite Hread, Hs, Hlen, Z.eqb_refl, Hv, Hx. cbn [negb].
  change (INT_MAX + kBlockTrailerSize <? wrap64 (INT_MAX + 1) + 4)
    with false.
  change (kxxHash =? kCRC32c) with false.
  change (kxxHash =? kxxHash) with true.
  change (static_cast_int INT_MAX =? INT_MAX) with true.
  reflexivity.
Qed.

(** C3, as the claim has it.  With [verify_checksums] off, a footer
    whose checksum type is not recognized does not make [ReadBlock]
    return Corruption.  For a handle of size [2^64 - 1] the sums wrap
    around: a read of four bytes, far fewer than the size of the
    handle, passes for a full read, and with the masked CRC32C of no
    bytes in them it passes the verification.  For a handle of size
    [INT_MAX] and the 32-bit hash, the length of the hashed bytes
    overflows. *)
Lemma ReadBlock_against_the_claim :
  (let footer := set_checksum Sample.versioned_footer 9 in
   let data := Sample.sixteen ++ repeat Byte.x00 5 in
   recognized_checksum (checksum_ footer) = false
   /\ ReadBlock Sample.checksums (Sample.file_of data) footer
                (Sample.read_options false) (mkBlockHandle 0 16)
      = Returned (Status.OK, data))
  /\
  (let footer := set_checksum Sample.versioned_footer kCRC32c in
   let data := [Byte.xd8; Byte.xea; Byte.x82; Byte.xa2] in
   ReadBlock Sample.checksums (Sample.file_of data) footer
             (Sample.read_options true) (mkBlockHandle 0 (2 ^ 64 - 1))
   = Returned (Status.OK, data))
  /\
  (let data := repeat Byte.x00 (Z.to_nat (INT_MAX + kBlockTrailerSize)) in
   ReadBlock Sample.checksums (Sample.file_of data) Sample.versioned_footer
             (Sample.read_options true) (mkBlockHandle 0 INT_MAX)
   = OutOfContract).
Proof.
  split; [|split].
  - vm_compute. split; reflexivity.
  - vm_compute. reflexivity.
  - cbv zeta.
    set (data := repeat Byte.x00 (Z.to_nat (INT_MAX + kBlockTrailerSize))).
    set (handle := mkBlockHandle 0 INT_MAX).
    apply (ReadBlock_int_overflow
             Sample.checksums (Sample.file_of data) Sample.versioned_footer
             (Sample.read_options true) handle Status.OK
             (firstn (Z.to_nat (size_ handle + kBlockTrailerSize))
                     (skipn (Z.to_nat (offset_ handle)) data))).
    + reflexivity.
    + reflexivity.
    + reflexivity.
    + subst handle. cbn [offset_ size_]. change (Z.to_nat 0) with O.
      cbn [skipn]. subst data. unfold size.
      rewrite length_firstn, repeat_length, Nat.min_id.
      apply Z2Nat.id. vm_compute. congruence.
    + reflexivity.
    + reflexivity.
Qed.

(** ** Compressing a block *)



(** ** Writing a block *)

Lemma Append_succeeds f data :
  faults f = [] -> Append f data = (Status.OK, mkFile (written f ++ data) []).
Proof. intros H. unfold Append. rewrite H. reflexivity. Qed.

Lemma InsertBlockInCache_succeeds E r contents type handle :
  cache_insert_succeeds E r contents type ->
  exists r',
    InsertBlockInCache E r contents type handle = (Status.OK, r')
    /\ file r' = file r /\ offset r' = offset r /\ status r' = status r
    /\ table_options r' = table_options r.
Proof.
  intros H. unfold InsertBlockInCache.
  destruct (block_cache_compressed r) as [cache|] eqn:Ec.
  - destruct (Z.eqb_spec type kNoCompression) as [Et|Et]; cbn [negb].
    + exists r. auto.
    + destruct H as [H|[H|H]]; [congruence|contradiction|].
      rewrite H. cbn [negb]. eexists. split; [reflexivity|].
      repeat split.
  - exists r. auto.
Qed.

Lemma trailer_checksum_block_checksum E algorithm contents type :
  Checksum.Lib_ok (cksum E) ->
  recognized_checksum algorithm = true ->
  (algorithm = kxxHash -> size contents < 2 ^ 32) ->
  byte.of_Z type :: trailer_checksum E algorithm contents (byte.of_Z type)
  = block_trailer (cksum E) algorithm contents type.
Proof.
  intros HL Hrec Hsize. unfold trailer_checksum, block_trailer, block_checksum.
  unfold recognized_checksum in Hrec. f_equal.
  destruct (Z.eqb_spec algorithm kCRC32c) as [->|Hc].
  - cbn [Z.eqb kCRC32c kNoChecksum kxxHash orb].
    rewrite (wrap32_small (crc32c_Value (cksum E) contents))
      by apply (Value_range _ HL).
    rewrite (Extend_Value _ HL). reflexivity.
  - cbn [orb] in Hrec. apply Z.eqb_eq in Hrec. subst algorithm.
    cbn [Z.eqb kCRC32c kNoChecksum kxxHash orb].
    unfold XXH32_digest, XXH32_update, XXH32_init. cbn [xxh_input xxh_seed app].
    rewrite (wrap32_small (size contents))
      by (split; [apply size_nonneg | apply Hsize; reflexivity]).
    unfold size. rewrite Nat2Z.id, firstn_all. reflexivity.
Qed.

Lemma size_block_trailer L algorithm contents type :
  size (block_trailer L algorithm contents type) = kBlockTrailerSize.
Proof. reflexivity. Qed.

(** What [WriteRawBlock] leaves behind when nothing fails: the handle,
    the bytes in the file, the offset and the status. *)
Lemma WriteRawBlock_written E r contents type :
  Checksum.Lib_ok (cksum E) ->
  appends_succeed r ->
  cache_insert_succeeds E r contents type ->
  recognized_checksum (checksum (table_options r)) = true ->
  (checksum (table_options r) = kxxHash -> size contents < 2 ^ 32) ->
  let r' := fst (WriteRawBlock E r contents type) in
  let handle := snd (WriteRawBlock E r contents type) in
  handle = mkBlockHandle (offset r) (size contents)
  /\ written (file r')
     = written (file r) ++ contents
       ++ block_trailer (cksum E) (checksum (table_options r)) contents type
  /\ size (block_trailer (cksum E) (checksum (table_options r)) contents type)
     = 5
  /\ offset r' = wrap64 (offset r + size contents + 5)
  /\ Status.ok (status r') = true.
Proof.
  intros HL Happ Hcache Hrec Hsize. unfold WriteRawBlock.
  rewrite (Append_succeeds (file r) contents Happ).
  cbn [set_status set_file status file Status.ok Status.OK Status.code
       table_options].
  rewrite Append_succeeds by reflexivity.
  cbn [set_status set_file status file Status.ok Status.OK Status.code
       table_options written offset].
  rewrite trailer_checksum_block_checksum by assumption.
  match goal with
  | |- context [InsertBlockInCache E ?x _ _ _] => set (r1 := x)
  end.
  assert (Hf1 : file r1 = mkFile ((written (file r) ++ contents)
                 ++ block_trailer (cksum E) (checksum (table_options r))
                      contents type) []) by reflexivity.
  assert (Ho1 : offset r1 = offset r) by reflexivity.
  destruct (InsertBlockInCache_succeeds E r1 contents type
              (mkBlockHandle (offset r) (size contents)))
    as (r2 & -> & Hf & Ho & Hs & Ht).
  { destruct Hcache as [H|[H|H]]; [left|right;left|right;right]; exact H. }
  cbn [set_status status Status.ok Status.OK Status.code fst snd set_offset
       file offset].
  rewrite Hf, Ho, Hf1, Ho1. cbn [written].
  rewrite <- app_assoc. unfold kBlockTrailerSize. repeat split.
Qed.

(** C6.  When the appends and the copy into the cache succeed,
    [WriteRawBlock] gives the handle (current offset, size of the
    contents), appends the contents and the five bytes of the trailer,
    which are the type byte and the checksum of the contents followed by
    the type byte under the configured algorithm, and moves the offset
    on by the size of the contents plus five. *)
Theorem WriteRawBlock_appends E r contents type :
  Checksum.Lib_ok (cksum E) ->
  appends_succeed r ->
  cache_insert_succeeds E r contents type ->
  recognized_checksum (checksum (table_options r)) = true ->
  (checksum (table_options r) = kxxHash -> size contents < 2 ^ 32) ->
  let r' := fst (WriteRawBlock E r contents type) in
  let handle := snd (WriteRawBlock E r contents type) in
  handle = mkBlockHandle (offset r) (size contents)
  /\ written (file r')
     = written (file r) ++ contents
       ++ block_trailer (cksum E) (checksum (table_options r)) contents type
  /\ size (block_trailer (cksum E) (checksum (table_options r)) contents type)
     = 5
  /\ offset r' = wrap64 (offset r + size contents + 5)
  /\ Status.ok (status r') = true.
Proof. exact (WriteRawBlock_written E r contents type). Qed.

Lemma WriteRawBlock_appends_witness :
  let r := Sample.builder kBinarySearch 2 kCRC32c false kNoCompression [] in
  let r' := fst (WriteRawBlock Sample.env r Sample.sixteen kNoCompression) in
  written (file r')
  = Sample.sixteen ++ [Byte.x00; Byte.xe8; Byte.xcd; Byte.x67; Byte.xbb]
  /\ offset r' = 21.
Proof.
  intros r r'.
  destruct (WriteRawBlock_appends Sample.env r Sample.sixteen kNoCompression
              Sample_checksums_ok)
    as (_ & Hw & _ & Ho & _).
  - reflexivity.
  - left. reflexivity.
  - reflexivity.
  - intros H. vm_compute in H. discriminate H.
  - subst r'. split; [rewrite Hw | rewrite Ho]; vm_compute; reflexivity.
Defined.

(** C5 (what the code does).  When the check of [verify_compression]
    fails, [WriteBlock] stores a Corruption status and goes on to
    [WriteRawBlock] with the raw bytes and [kNoCompression];
    [WriteRawBlock] stores the status of its appends over the Corruption.
    On a file whose appends succeed the block is written raw and the
    status of the builder is OK afterwards. *)
Theorem WriteBlock_failed_verification_ends_OK E r raw is_data_block
        compressed type :
  Checksum.Lib_ok (cksum E) ->
  size raw < kCompressionSizeLimit (lib E) ->
  verify_compression (table_options r) = true ->
  CompressBlock (codec E) raw (compression_opts r) (compression_type r)
                (format_version (table_options r)) (dict_for r is_data_block)
  = (compressed, type) ->
  type <> kNoCompression ->
  verification_fails E r raw compressed type is_data_block ->
  appends_succeed r ->
  recognized_checksum (checksum (table_options r)) = true ->
  (checksum (table_options r) = kxxHash -> size raw < 2 ^ 32) ->
  let r' := fst (WriteBlock E r raw is_data_block) in
  Status.ok (status r') = true
  /\ written (file r')
     = written (file r) ++ raw
       ++ block_trailer (cksum E) (checksum (table_options r)) raw
                        kNoCompression.
Proof.
  intros HL Hsize Hverify Hcompress Htype Hfails Happ Hrec Hxx.
  unfold WriteBlock.
  destruct (Z.ltb_spec (size raw) (kCompressionSizeLimit (lib E))) as [_|]; [|lia].
  fold (dict_for r is_data_block). rewrite Hcompress, Hverify.
  destruct (Z.eqb_spec type kNoCompression) as [|_]; [contradiction|].
  cbn [negb andb]. unfold verification_fails in Hfails.
  destruct (UncompressBlockContentsForCompressionType
              (codec E) compressed (format_version (table_options r))
              (dict_for r is_data_block) type) as [stat contents].
  assert (Hwrite : forall msg,
             let r1 := set_status r (Status.Corruption msg) in
             Status.ok (status (fst (WriteRawBlock E r1 raw kNoCompression)))
             = true
             /\ written (file (fst (WriteRawBlock E r1 raw kNoCompression)))
                = written (file r) ++ raw
                  ++ block_trailer (cksum E) (checksum (table_options r)) raw
                                   kNoCompression).
  { intros msg r1.
    destruct (WriteRawBlock_written E r1 raw kNoCompression HL)
      as (_ & Hw & _ & _ & Hs); try assumption.
    - right. left. reflexivity.
    - split; assumption. }
  destruct (Status.ok stat) eqn:Estat.
  - destruct Hfails as [H|H]; [discriminate H|].
    assert (Hne : match contents with
                  | Some data => bytes_eqb data raw
                  | None => false
                  end = false)
      by (destruct contents; [exact H|reflexivity]).
    rewrite Hne. cbn [negb].
    specialize (Hwrite "Decompressed block did not match raw block"%string).
    cbv zeta in Hwrite.
    destruct (WriteRawBlock E _ raw kNoCompression) as [r2 h].
    cbn [fst] in *. exact Hwrite.
  - specialize (Hwrite "Could not decompress"%string). cbv zeta in Hwrite.
    destruct (WriteRawBlock E _ raw kNoCompression) as [r2 h].
    cbn [fst] in *. exact Hwrite.
Qed.

Lemma WriteBlock_failed_verification_ends_OK_witness :
  let r := Sample.builder kBinarySearch 2 kCRC32c true kXpressCompression [] in
  let r' := fst (WriteBlock Sample.env r Sample.sixteen true) in
  Status.ok (status r') = true
  /\ written (file r')
     = Sample.sixteen ++ [Byte.x00; Byte.xe8; Byte.xcd; Byte.x67; Byte.xbb].
Proof.
  intros r.
  refine (WriteBlock_failed_verification_ends_OK
            Sample.env r Sample.sixteen true [Byte.x10; Byte.x61]
            kXpressCompression Sample_checksums_ok _ eq_refl eq_refl _ _
            eq_refl eq_refl _).
  - reflexivity.
  - vm_compute. congruence.
  - right. vm_compute. reflexivity.
  - intros H. vm_compute in H. discriminate H.
Defined.

(** The same at the input where the decompression reports an error. *)
Example WriteBlock_failed_decompression_ends_OK :
  let r := Sample.builder kBinarySearch 2 kCRC32c true kZSTD [] in
  let r' := fst (WriteBlock Sample.env r Sample.sixteen true) in
  fst (UncompressBlockContentsForCompressionType
         Sample.codecs [Byte.x10; Byte.x61] 2 [] kZSTD)
  = Status.Corruption "ZSTD not supported or corrupted ZSTD compressed block contents"
  /\ status r' = Status.OK
  /\ written (file r')
     = Sample.sixteen ++ [Byte.x00; Byte.xe8; Byte.xcd; Byte.x67; Byte.xbb].
Proof. vm_compute. repeat split. Qed.

(** ** The table options of a builder do not change *)

Ltac break_match :=
  match goal with
  | |- context [match ?x with _ => _ end] => destruct x eqn:?
  end.

Ltac break_in H :=
  repeat match type of H with
    | context [match ?x with _ => _ end] => destruct x eqn:?
    end.

Ltac break_hyps :=
  repeat match goal with
    | H : context [match ?x with _ => _ end] |- _ => destruct x eqn:?
    end.

Ltac invert_pairs :=
  repeat match goal with
    | Hp : (_, _) = (_, _) |- _ => inversion Hp; subst; clear Hp
    end.

Section TableOptions.
Variable E : Env.

Lemma InsertBlockInCache_table_options r c t h s r' :
  InsertBlockInCache E r c t h = (s, r') -> table_options r' = table_options r.
Proof.
  unfold InsertBlockInCache. intros H.
  break_in H; inversion H; subst; reflexivity.
Qed.

Lemma WriteRawBlock_table_options r c t r' h :
  WriteRawBlock E r c t = (r', h) -> table_options r' = table_options r.
Proof.
  unfold WriteRawBlock. intros H.
  break_in H; inversion H; subst; cbn [table_options set_offset set_status];
    try reflexivity;
    match goal with
    | Hi : InsertBlockInCache E _ _ _ _ = _ |- _ =>
        apply InsertBlockInCache_table_options in Hi; exact Hi
    end.
Qed.

Lemma WriteBlock_table_options r raw d r' h :
  WriteBlock E r raw d = (r', h) -> table_options r' = table_options r.
Proof.
  unfold WriteBlock. intros H. break_hyps; invert_pairs;
    match goal with
    | Hw : WriteRawBlock E _ _ _ = _ |- _ =>
        apply WriteRawBlock_table_options in Hw
    end;
    cbn [table_options set_compressed_output set_status] in *; assumption.
Qed.

Lemma Flush_table_options r : table_options (Flush E r) = table_options r.
Proof.
  unfold Flush. repeat break_match; try reflexivity;
    match goal with
    | Hw : WriteBlock E _ _ _ = _ |- _ => apply WriteBlock_table_options in Hw
    end; cbn; assumption.
Qed.

Lemma Add_table_options r k v :
  table_options (snd (Add E r k v)) = table_options r.
Proof.
  unfold Add.
  repeat break_match; cbn; rewrite ?Flush_table_options; reflexivity.
Qed.

Lemma built_table_options r0 r :
  built E r0 r -> table_options r = table_options r0.
Proof.
  induction 1 as [|r k v _ IH|r _ IH]; [reflexivity| |].
  - rewrite Add_table_options. exact IH.
  - rewrite Flush_table_options. exact IH.
Qed.

Lemma WriteFilterBlocks_table_options rounds : forall r fb h r' h',
  WriteFilterBlocks E rounds r fb h = (r', h') ->
  table_options r' = table_options r.
Proof.
  induction rounds as [|rounds IH]; intros r fb h r' h' H;
    cbn [WriteFilterBlocks] in H.
  - inversion H; subst. reflexivity.
  - destruct (FilterBlockBuilder_Finish E fb h) as [[content s] fb'].
    destruct (WriteRawBlock E _ content kNoCompression) as [r1 h1] eqn:Ew.
    apply WriteRawBlock_table_options in Ew. cbn in Ew.
    destruct (Status.IsIncomplete s).
    + apply IH in H. congruence.
    + inversion H; subst. cbn. exact Ew.
Qed.

Lemma WriteMetaBlocks_table_options items : forall r m r' m',
  WriteMetaBlocks E r items m = (r', m') -> table_options r' = table_options r.
Proof.
  induction items as [|item items IH]; intros r m r' m' H;
    cbn [WriteMetaBlocks] in H.
  - inversion H; subst. reflexivity.
  - destruct (WriteBlock E r (snd item) false) as [r1 h1] eqn:Ew.
    apply WriteBlock_table_options in Ew. apply IH in H. congruence.
Qed.

Lemma WriteIndexPartitions_table_options rounds :
  forall r blocks h s ret r' h' statuses,
    WriteIndexPartitions E rounds r blocks h s = (ret, r', h', statuses) ->
    table_options r' = table_options r.
Proof.
  induction rounds as [|rounds IH]; intros r blocks h s ret r' h' statuses H;
    cbn [WriteIndexPartitions] in H.
  - inversion H; subst. reflexivity.
  - destruct (Status.IsIncomplete s); [|inversion H; subst; reflexivity].
    destruct (IndexBuilder_Finish E (index_builder r) blocks h)
      as [[s1 blocks1] ib1].
    destruct (negb (Status.ok s1) && negb (Status.IsIncomplete s1)).
    + inversion H; subst. reflexivity.
    + destruct (WriteBlock E _ (index_block_contents blocks1) false)
        as [r1 h1] eqn:Ew.
      apply WriteBlock_table_options in Ew. cbn in Ew.
      destruct (WriteIndexPartitions E rounds r1 blocks1 h1 s1)
        as [[[ret2 r2] h2] st2] eqn:El.
      apply IH in El. inversion H; subst. congruence.
Qed.

Lemma FinishProperties_table_options r :
  table_options (FinishProperties E r) = table_options r.
Proof. reflexivity. Qed.

Ltac use_table_options :=
  repeat match goal with
    | Hw : WriteRawBlock E _ _ _ = _ |- _ =>
        apply WriteRawBlock_table_options in Hw; cbn in Hw
    | Hw : WriteBlock E _ _ _ = _ |- _ =>
        apply WriteBlock_table_options in Hw; cbn in Hw
    | Hw : WriteFilterBlocks E _ _ _ _ = _ |- _ =>
        apply WriteFilterBlocks_table_options in Hw; cbn in Hw
    | Hw : WriteMetaBlocks E _ _ _ = _ |- _ =>
        apply WriteMetaBlocks_table_options in Hw; cbn in Hw
    | Hw : WriteIndexPartitions E _ _ _ _ _ = _ |- _ =>
        apply WriteIndexPartitions_table_options in Hw; cbn in Hw
    end.

Lemma Finish_data_table_options r :
  table_options (Finish_data E r) = table_options r.
Proof.
  unfold Finish_data. repeat break_match; cbn;
    rewrite Flush_table_options; reflexivity.
Qed.

Lemma Finish_filter_table_options r r' h :
  Finish_filter E r = (r', h) -> table_options r' = table_options r.
Proof.
  unfold Finish_filter. intros H.
  break_hyps; invert_pairs; use_table_options; congruence.
Qed.

Lemma Finish_meta_table_options r blocks fh r' m :
  Finish_meta E r blocks fh = (r', m) -> table_options r' = table_options r.
Proof.
  unfold Finish_meta. intros H.
  break_hyps; invert_pairs; use_table_options; congruence.
Qed.

Lemma Finish_index_table_options rounds r m blocks s ret r' mh ih statuses :
  Finish_index E rounds r m blocks s = (ret, r', mh, ih, statuses) ->
  table_options r' = table_options r.
Proof.
  unfold Finish_index. intros H.
  break_hyps; invert_pairs; use_table_options; congruence.
Qed.

Lemma Finish_blocks_table_options r ret r' mh ih statuses :
  Finish_blocks E r = (ret, r', mh, ih, statuses) ->
  table_options r' = table_options r.
Proof.
  unfold Finish_blocks. intros H.
  pose proof (Finish_data_table_options r) as HD.
  break_hyps; invert_pairs;
    repeat match goal with
      | Hw : Finish_filter E _ = _ |- _ =>
          apply Finish_filter_table_options in Hw
      | Hw : Finish_meta E _ _ _ = _ |- _ =>
          apply Finish_meta_table_options in Hw; cbn in Hw
      | Hw : Finish_index E _ _ _ _ _ = _ |- _ =>
          apply Finish_index_table_options in Hw
      end;
    cbn [table_options set_index_builder]; congruence.
Qed.

Lemma InsertBlockInCache_index_builder r c t h s r' :
  InsertBlockInCache E r c t h = (s, r') -> index_builder r' = index_builder r.
Proof.
  unfold InsertBlockInCache. intros H.
  break_in H; inversion H; subst; reflexivity.
Qed.

Lemma WriteRawBlock_index_builder r c t r' h :
  WriteRawBlock E r c t = (r', h) -> index_builder r' = index_builder r.
Proof.
  unfold WriteRawBlock. intros H.
  break_in H; inversion H; subst; cbn [index_builder set_offset set_status];
    try reflexivity;
    match goal with
    | Hi : InsertBlockInCache E _ _ _ _ = _ |- _ =>
        apply InsertBlockInCache_index_builder in Hi; exact Hi
    end.
Qed.

Lemma WriteBlock_index_builder r raw d r' h :
  WriteBlock E r raw d = (r', h) -> index_builder r' = index_builder r.
Proof.
  unfold WriteBlock. intros H. break_hyps; invert_pairs;
    match goal with
    | Hw : WriteRawBlock E _ _ _ = _ |- _ =>
        apply WriteRawBlock_index_builder in Hw
    end;
    cbn [index_builder set_compressed_output set_status] in *; assumption.
Qed.

End TableOptions.

(** ** The footer of the builder *)

Lemma sanitized_table_options_assert topt :
  let o := sanitized_table_options topt in
  checksum o = kCRC32c \/ format_version o <> 0.
Proof.
  unfold sanitized_table_options.
  destruct (Z.eqb_spec (format_version topt) 0) as [E0|E0]; cbn [andb].
  - destruct (Z.eqb_spec (checksum topt) kCRC32c) as [Ec|Ec]; cbn [negb].
    + left. exact Ec.
    + right. cbn. discriminate.
  - right. exact E0.
Qed.

(** C10.  A builder that is constructed with [format_version == 0] and a
    checksum type other than CRC32C works with [format_version] 1.
    Every footer that [Finish] makes for a builder that came from the
    constructor has the legacy magic number only with the checksum type
    [kCRC32c], so the assertion of the legacy branch of
    [Footer::EncodeTo] holds for it. *)
Theorem builder_legacy_footer_has_CRC32c
        E ioptions topt cf_id f compression_type compression_opts
        compression_dict skip_filters cf_name compressed_cache :
  MagicNumbers_ok (magic E) ->
  let r0 :=
    BlockBasedTableBuilder_new ioptions topt cf_id f compression_type
                               compression_opts compression_dict skip_filters
                               cf_name compressed_cache in
  (format_version topt = 0 -> checksum topt <> kCRC32c ->
   format_version (table_options r0) = 1)
  /\
  (forall r ret r1 mh ih statuses,
      built E r0 r ->
      Finish_blocks E r = (ret, r1, mh, ih, statuses) ->
      let footer := MakeFooter (table_options r1) mh ih in
      (IsLegacyFooterFormat (magic E) (table_magic_number_ footer) = true ->
       checksum_ footer = kCRC32c)
      /\ EncodeTo_legacy_assert (magic E) footer = true
      /\ Finish_footer_assert r1 = true).
Proof.
  intros HM r0. split.
  - intros H0 Hc. subst r0. cbn [table_options BlockBasedTableBuilder_new].
    unfold sanitized_table_options. rewrite H0.
    destruct (Z.eqb_spec (checksum topt) kCRC32c) as [|_]; [contradiction|].
    reflexivity.
  - intros r ret r1 mh ih statuses Hbuilt HF footer.
    apply Finish_blocks_table_options in HF.
    apply built_table_options in Hbuilt.
    assert (Ho : table_options r1 = sanitized_table_options topt)
      by (rewrite HF, Hbuilt; reflexivity).
    pose proof (sanitized_table_options_assert topt) as Hs. cbv zeta in Hs.
    rewrite <- Ho in Hs.
    assert (Hlegacy :
              IsLegacyFooterFormat (magic E) (table_magic_number_ footer) = true ->
              checksum_ footer = kCRC32c).
    { subst footer. unfold MakeFooter.
      cbn [table_magic_number_ checksum_ set_checksum set_index_handle
           set_metaindex_handle Footer_new].
      destruct (Z.eqb_spec (format_version (table_options r1)) 0) as [E0|E0].
      - intros _. destruct Hs as [Hs|Hs]; [exact Hs|contradiction].
      - rewrite (not_legacy_block_based (magic E) HM). discriminate. }
    split; [exact Hlegacy|]. split.
    + unfold EncodeTo_legacy_assert.
      destruct (IsLegacyFooterFormat (magic E) (table_magic_number_ footer));
        [|reflexivity].
      rewrite Hlegacy by reflexivity. reflexivity.
    + unfold Finish_footer_assert.
      destruct Hs as [Hs|Hs].
      * rewrite Hs. reflexivity.
      * destruct (Z.eqb_spec (format_version (table_options r1)) 0);
          [contradiction|]. apply orb_true_r.
Qed.

Lemma tuple5_eta {A B C D F : Type} (x : A * B * C * D * F) :
  x = (fst (fst (fst (fst x))), snd (fst (fst (fst x))), snd (fst (fst x)),
       snd (fst x), snd x).
Proof. destruct x as [[[[? ?] ?] ?] ?]. reflexivity. Qed.

Lemma builder_legacy_footer_has_CRC32c_witness :
  let r0 := Sample.builder kBinarySearch 0 kxxHash false kNoCompression [] in
  let r := Sample.add "b" "2" (Sample.add "a" "1" r0) in
  let done := Finish_blocks Sample.env r in
  let r1 := snd (fst (fst (fst done))) in
  let mh := snd (fst (fst done)) in
  let ih := snd (fst done) in
  format_version (table_options r0) = 1
  /\ EncodeTo_legacy_assert Sample.magic (MakeFooter (table_options r1) mh ih)
     = true.
Proof.
  intros r0 r done r1 mh ih.
  destruct (builder_legacy_footer_has_CRC32c
              Sample.env Sample.ioptions
              (Sample.table_options kBinarySearch 0 kxxHash false)
              0 (mkFile [] []) kNoCompression Sample.compression_options
              None true "default"%string None Sample_magic_ok) as [H1 H2].
  split.
  - apply H1; [reflexivity | vm_compute; congruence].
  - refine (proj1 (proj2 (H2 r (fst (fst (fst (fst done)))) r1 mh ih
                             (snd done) _ _))).
    + apply (built_Add Sample.env), (built_Add Sample.env), built_new.
    + exact (tuple5_eta done).
Defined.

(** ** The Finish protocol of the partitioned index builder *)

Section FinishProtocol.
Variable E : Env.

Lemma WriteRawBlock_healthy r c t r' h :
  healthy r -> WriteRawBlock E r c t = (r', h) ->
  healthy r' /\ ok r' = true /\ index_builder r' = index_builder r.
Proof.
  intros [Hf Hc] H. unfold WriteRawBlock in H.
  rewrite (Append_succeeds _ _ Hf) in H.
  cbn [status set_status set_file file Status.ok Status.OK Status.code] in H.
  rewrite Append_succeeds in H by reflexivity.
  cbn [status set_status set_file file Status.ok Status.OK Status.code] in H.
  unfold InsertBlockInCache in H.
  cbn [block_cache_compressed set_status set_file] in H. rewrite Hc in H.
  cbn [status set_status set_file file Status.ok Status.OK Status.code] in H.
  inversion H; subst. unfold healthy, ok. cbn. auto.
Qed.

Lemma WriteBlock_healthy r raw d r' h :
  healthy r -> WriteBlock E r raw d = (r', h) ->
  healthy r' /\ ok r' = true /\ index_builder r' = index_builder r.
Proof.
  intros Hr H. unfold WriteBlock in H. break_hyps; invert_pairs;
    match goal with
    | Hw : WriteRawBlock E _ _ _ = _ |- _ =>
        apply WriteRawBlock_healthy in Hw;
        [cbn in Hw; unfold healthy, ok in *; cbn; exact Hw
        | unfold healthy in *; cbn; exact Hr]
    end.
Qed.

(** *** The calls of [Finish], one by one *)

Lemma Finish_first_call b blocks h e es :
  finishing_indexes b = false -> entries_ b = e :: es ->
  exists blocks' b',
    PartitionedIndexBuilder_Finish E b blocks h
    = (Status.Incomplete, blocks', b')
    /\ finishing_indexes b' = true /\ entries_ b' = e :: es.
Proof.
  intros Hf He. unfold PartitionedIndexBuilder_Finish. rewrite Hf, He.
  cbn. eauto.
Qed.

Lemma Finish_no_partition b blocks h :
  finishing_indexes b = false -> entries_ b = [] ->
  exists blocks',
    PartitionedIndexBuilder_Finish E b blocks h = (Status.OK, blocks', b).
Proof.
  intros Hf He. unfold PartitionedIndexBuilder_Finish. rewrite Hf, He.
  eauto.
Qed.

Lemma Finish_next_call b blocks h e e' es :
  finishing_indexes b = true -> entries_ b = e :: e' :: es ->
  exists blocks' b',
    PartitionedIndexBuilder_Finish E b blocks h
    = (Status.Incomplete, blocks', b')
    /\ finishing_indexes b' = true /\ entries_ b' = e' :: es.
Proof.
  intros Hf He. unfold PartitionedIndexBuilder_Finish. rewrite Hf, He.
  cbn. eauto.
Qed.

Lemma Finish_last_call b blocks h e :
  finishing_indexes b = true -> entries_ b = [e] ->
  exists blocks' b',
    PartitionedIndexBuilder_Finish E b blocks h = (Status.OK, blocks', b')
    /\ entries_ b' = [].
Proof.
  intros Hf He. unfold PartitionedIndexBuilder_Finish. rewrite Hf, He.
  cbn. eauto.
Qed.

(** *** The loop of the table builder *)

Lemma WriteIndexPartitions_done rounds r blocks h s :
  Status.IsIncomplete s = false ->
  WriteIndexPartitions E rounds r blocks h s = (None, r, h, []).
Proof. intros Hs. destruct rounds; cbn; [|rewrite Hs]; reflexivity. Qed.

Lemma WriteIndexPartitions_partitioned n : forall rounds r blocks h b,
  (S n <= rounds)%nat ->
  index_builder r = Partitioned b ->
  finishing_indexes b = true -> List.length (entries_ b) = S n ->
  exists r' h',
    WriteIndexPartitions E rounds r blocks h Status.Incomplete
    = (None, r', h', repeat Status.Incomplete n ++ [Status.OK]).
Proof.
  induction n as [|n IH]; intros rounds r blocks h b Hrounds Hib Hf Hlen;
    (destruct rounds as [|rounds]; [lia|]);
    cbn [WriteIndexPartitions Status.IsIncomplete Status.Incomplete Status.code];
    rewrite Hib; cbn [IndexBuilder_Finish].
  - destruct (entries_ b) as [|e [|e' es]] eqn:He; try discriminate Hlen.
    destruct (Finish_last_call b blocks h e Hf He) as (blocks' & b' & -> & _).
    cbn [Status.ok Status.OK Status.code negb andb].
    destruct (WriteBlock E _ (index_block_contents blocks') false)
      as [r1 h1].
    rewrite WriteIndexPartitions_done by reflexivity. cbn. eauto.
  - destruct (entries_ b) as [|e [|e' es]] eqn:He; try discriminate Hlen.
    destruct (Finish_next_call b blocks h e e' es Hf He)
      as (blocks' & b' & -> & Hf' & He').
    cbn [Status.ok Status.Incomplete Status.IsIncomplete Status.code negb andb].
    destruct (WriteBlock E _ (index_block_contents blocks') false)
      as [r1 h1] eqn:Ew.
    assert (Hib1 : index_builder r1 = Partitioned b')
      by (apply WriteBlock_index_builder in Ew; exact Ew).
    destruct (IH rounds r1 blocks' h1 b') as (r' & h' & ->); try assumption.
    + lia.
    + rewrite He'. cbn in *. lia.
    + cbn. eauto.
Qed.

End FinishProtocol.

(** *** The whole of [Finish] on a file whose appends succeed *)

Section FinishStatuses.
Variable E : Env.

Lemma sound_refl r : healthy r -> ok r = true -> sound r r.
Proof. unfold sound. auto. Qed.

Lemma sound_trans r1 r2 r3 : sound r1 r2 -> sound r2 r3 -> sound r1 r3.
Proof.
  unfold sound. intros (?&?&?) (?&?&?).
  split; [assumption|split; [assumption|congruence]].
Qed.

Lemma WriteRawBlock_sound r c t r' h :
  healthy r -> WriteRawBlock E r c t = (r', h) -> sound r r'.
Proof. intros Hr H. exact (WriteRawBlock_healthy E r c t r' h Hr H). Qed.

Lemma WriteBlock_sound r raw d r' h :
  healthy r -> WriteBlock E r raw d = (r', h) -> sound r r'.
Proof. intros Hr H. exact (WriteBlock_healthy E r raw d r' h Hr H). Qed.

Lemma Flush_sound r : healthy r -> ok r = true -> sound r (Flush E r).
Proof.
  intros Hr Hok. unfold Flush. rewrite Hok. cbn [negb].
  destruct (BlockBuilder_empty (data_block r)); [apply sound_refl; assumption|].
  destruct (WriteBlock E r _ true) as [r1 h1] eqn:Ew.
  apply WriteBlock_sound in Ew; [|exact Hr].
  destruct Ew as ((Hf & Hc) & Hok1 & Hib).
  destruct (filter_builder _); unfold sound, healthy, ok in *; cbn; auto.
Qed.

Lemma WriteFilterBlocks_sound rounds : forall r fb h r' h',
  healthy r -> ok r = true ->
  WriteFilterBlocks E rounds r fb h = (r', h') -> sound r r'.
Proof.
  induction rounds as [|rounds IH]; intros r fb h r' h' Hr Hok H;
    cbn [WriteFilterBlocks] in H.
  - inversion H; subst. unfold sound, healthy, ok in *. cbn. tauto.
  - destruct (FilterBlockBuilder_Finish E fb h) as [[content s] fb'].
    destruct (WriteRawBlock E _ content kNoCompression) as [r1 h1] eqn:Ew.
    apply WriteRawBlock_sound in Ew;
      [|unfold healthy in *; cbn; exact Hr].
    destruct Ew as (Hr1 & Hok1 & Hib1). cbn in Hib1.
    destruct (Status.IsIncomplete s).
    + apply IH in H; [|assumption|assumption].
      destruct H as (Ha & Hb & Hc).
      split; [exact Ha|split; [exact Hb|congruence]].
    + inversion H; subst. unfold sound, healthy, ok in *. cbn. tauto.
Qed.

Lemma WriteMetaBlocks_sound items : forall r m r' m',
  healthy r -> ok r = true ->
  WriteMetaBlocks E r items m = (r', m') -> sound r r'.
Proof.
  induction items as [|item items IH]; intros r m r' m' Hr Hok H;
    cbn [WriteMetaBlocks] in H.
  - inversion H; subst. apply sound_refl; assumption.
  - destruct (WriteBlock E r (snd item) false) as [r1 h1] eqn:Ew.
    apply WriteBlock_sound in Ew; [|exact Hr].
    apply IH in H; [|apply Ew|apply Ew].
    eapply sound_trans; eassumption.
Qed.

Lemma Finish_filter_sound r r' h :
  healthy r -> ok r = true -> Finish_filter E r = (r', h) -> sound r r'.
Proof.
  intros Hr Hok H. unfold Finish_filter in H. rewrite Hok in H.
  destruct (filter_builder r) as [fb|].
  - eapply WriteFilterBlocks_sound; eassumption.
  - inversion H; subst. apply sound_refl; assumption.
Qed.

Lemma Finish_meta_sound r blocks fh r' m :
  healthy r -> ok r = true -> Finish_meta E r blocks fh = (r', m) ->
  sound r r'.
Proof.
  intros Hr Hok H. unfold Finish_meta in H.
  destruct (WriteMetaBlocks E r (meta_blocks blocks) []) as [r1 m1] eqn:Em.
  apply WriteMetaBlocks_sound in Em; [|assumption|assumption].
  destruct Em as (Hr1 & Hok1 & Hib1). rewrite Hok1 in H.
  destruct (WriteRawBlock E (FinishProperties E r1) _ kNoCompression)
    as [r2 h2] eqn:Ew2.
  apply WriteRawBlock_sound in Ew2; [|exact Hr1].
  destruct Ew2 as (Hr2 & Hok2 & Hib2). cbn in Hib2.
  assert (H12 : sound r r2) by (repeat split; try apply Hr2; congruence).
  match type of H with
  | (let '(r, m) := ?d in _) = _ => destruct d as [r3 m3] eqn:Ed
  end.
  assert (H13 : sound r r3).
  { destruct (compression_dict r2) as [dict|].
    - destruct (negb (size dict =? 0)).
      + destruct (WriteRawBlock E r2 dict kNoCompression) as [r4 h4] eqn:Ew4.
        apply WriteRawBlock_sound in Ew4; [|exact Hr2].
        inversion Ed; subst. eapply sound_trans; eassumption.
      + inversion Ed; subst. exact H12.
    - inversion Ed; subst. exact H12. }
  destruct (ok r3 && negb (BlockBuilder_empty (range_del_block r3))).
  - destruct (WriteRawBlock E r3 _ kNoCompression) as [r5 h5] eqn:Ew5.
    apply WriteRawBlock_sound in Ew5; [|apply H13].
    inversion H; subst. eapply sound_trans; eassumption.
  - inversion H; subst. exact H13.
Qed.

Lemma AddIndexEntry_last b last_key h :
  exists b' k,
    PartitionedIndexBuilder_AddIndexEntry E b last_key None h = (b', k)
    /\ finishing_indexes b' = finishing_indexes b
    /\ sub_index_builder_ b' = None
    /\ List.length (entries_ b') = S (List.length (entries_ b)).
Proof.
  unfold PartitionedIndexBuilder_AddIndexEntry.
  destruct (ShortenedIndexBuilder_AddIndexEntry E _ last_key None h)
    as [sub k].
  eexists. eexists. split; [reflexivity|]. cbn.
  rewrite length_app. cbn. repeat split. lia.
Qed.

Lemma Finish_data_partitioned r b :
  healthy r -> ok r = true ->
  index_builder r = Partitioned b -> data_block r <> [] ->
  exists b',
    healthy (Finish_data E r) /\ ok (Finish_data E r) = true
    /\ index_builder (Finish_data E r) = Partitioned b'
    /\ finishing_indexes b' = finishing_indexes b
    /\ sub_index_builder_ b' = None
    /\ List.length (entries_ b') = S (List.length (entries_ b)).
Proof.
  intros Hr Hok Hib Hdata. unfold Finish_data.
  destruct (Flush_sound r Hr Hok) as (Hr1 & Hok1 & Hib1).
  assert (Hempty : BlockBuilder_empty (data_block r) = false)
    by (destruct (data_block r); [contradiction|reflexivity]).
  rewrite Hempty.
  replace (ok (set_closed (Flush E r) true)) with true
    by (symmetry; exact Hok1).
  cbn [negb andb index_builder set_closed].
  rewrite Hib1, Hib. cbn [IndexBuilder_AddIndexEntry].
  destruct (AddIndexEntry_last
              b (last_key (set_closed (Flush E r) true))
              (pending_handle (set_closed (Flush E r) true)))
    as (b' & k & -> & Hf & Hs & Hl).
  exists b'. unfold healthy, ok in *. cbn. tauto.
Qed.

(** C2.  For a partitioned index with [N] index partitions, the loop of
    [Finish] over the partitions (lines 772-780), each call of which
    hands the handle of the block just written to the index builder,
    gets [N - 1] times Incomplete and then one OK from it: each
    Incomplete comes with the next partition, the OK with the top-level
    index.  This holds for the loop whatever the writes come to, and
    for the whole of [Finish] on a file whose appends succeed, where
    [N] counts the partitions sealed before [Finish] and the one that
    [Finish] seals; there the call of line 658, which is made before
    the loop and without a handle, returns Incomplete with the first
    partition. *)
Theorem Finish_statuses_partitioned :
  (forall r N,
      sealed_partitions (index_builder r) N -> (0 < N)%nat ->
      Finish_loop_statuses E r
      = repeat Status.Incomplete (N - 1) ++ [Status.OK])
  /\
  (forall r b,
      healthy r -> ok r = true ->
      index_builder r = Partitioned b -> finishing_indexes b = false ->
      data_block r <> [] ->
      let N := S (List.length (entries_ b)) in
      hd Status.OK (snd (Finish_traced E r)) = Status.Incomplete
      /\ loop_statuses (snd (Finish_traced E r))
         = repeat Status.Incomplete (N - 1) ++ [Status.OK]).
Proof.
  split.
  - intros r N (b & Hib & Hlen & Hsub & Hf) HN. unfold Finish_loop_statuses.
    unfold IndexBuilder_Finish_first. rewrite Hib. cbn [IndexBuilder_Finish].
    destruct (entries_ b) as [|e es] eqn:He; [cbn in Hlen; lia|].
    destruct (Finish_first_call E b (mkIndexBlocks [] []) BlockHandle_new
                                e es Hf He)
      as (blocks' & b' & -> & Hf' & He').
    destruct (WriteBlock E _ _ false) as [r1 h1] eqn:Ew.
    apply WriteBlock_index_builder in Ew. cbn in Ew.
    destruct (WriteIndexPartitions_partitioned
                E (List.length es)
                (S (IndexBuilder_partitions (index_builder r1)))
                r1 blocks' h1 b')
      as (r' & h' & ->); try assumption.
    + rewrite Ew. cbn. rewrite He'. cbn. lia.
    + rewrite He'. reflexivity.
    + cbn in Hlen. subst N. cbn [Nat.sub]. rewrite Nat.sub_0_r. reflexivity.
  - intros r b Hr Hok Hib Hf Hdata N. subst N.
    unfold Finish_traced, Finish_blocks.
    destruct (Finish_data_partitioned r b Hr Hok Hib Hdata)
      as (b1 & Hr1 & Hok1 & Hib1 & Hf1 & Hs1 & Hl1).
    destruct (Finish_filter E (Finish_data E r)) as [r2 fh] eqn:Efilter.
    apply Finish_filter_sound in Efilter; [|assumption|assumption].
    destruct Efilter as (Hr2 & Hok2 & Hib2).
    rewrite Hib2, Hib1. unfold IndexBuilder_Finish_first.
    cbn [IndexBuilder_Finish IndexBuilder_partitions].
    destruct (entries_ b1) as [|e es] eqn:He; [discriminate Hl1|].
    destruct (Finish_first_call E b1 (mkIndexBlocks [] []) BlockHandle_new
                                e es (eq_trans Hf1 Hf) He)
      as (blocks' & b' & -> & Hf' & He').
    cbn [Status.IsIncomplete Status.Incomplete Status.code negb andb].
    destruct (Finish_meta E _ blocks' fh) as [r3 m3] eqn:Emeta.
    apply Finish_meta_sound in Emeta;
      [|unfold healthy in *; cbn; exact Hr2|unfold ok in *; cbn; exact Hok2].
    destruct Emeta as (Hr3 & Hok3 & Hib3). cbn in Hib3.
    unfold Finish_index. rewrite Hok3.
    destruct (WriteRawBlock E r3 _ kNoCompression) as [r4 h4] eqn:Ew4.
    apply WriteRawBlock_sound in Ew4; [|exact Hr3].
    destruct Ew4 as (Hr4 & Hok4 & Hib4).
    destruct (WriteBlock E r4 _ false) as [r5 h5] eqn:Ew5.
    apply WriteBlock_sound in Ew5; [|exact Hr4].
    destruct Ew5 as (Hr5 & Hok5 & Hib5).
    destruct (WriteIndexPartitions_partitioned
                E (List.length es) (S (List.length (e :: es)))
                r5 blocks' h5 b')
      as (r' & h' & ->).
    + cbn. lia.
    + congruence.
    + exact Hf'.
    + rewrite He'. reflexivity.
    + cbn [snd]. cbn in Hl1. injection Hl1 as Hl1. rewrite <- Hl1.
      cbn [Nat.sub]. rewrite Nat.sub_0_r.
      destruct (ok r'); split; reflexivity.
Qed.

End FinishStatuses.

Lemma Finish_statuses_partitioned_witness :
  let r := Sample.five_keys kTwoLevelIndexSearch [] in
  hd Status.OK (snd (Finish_traced Sample.env r)) = Status.Incomplete
  /\ loop_statuses (snd (Finish_traced Sample.env r))
     = [Status.Incomplete; Status.OK].
Proof.
  intros r.
  apply (proj2 (Finish_statuses_partitioned Sample.env)
               r (Sample.partitioned_of r)).
  - split; vm_compute; reflexivity.
  - vm_compute. reflexivity.
  - vm_compute. reflexivity.
  - vm_compute. reflexivity.
  - vm_compute. discriminate.
Defined.

(** The file of the witness has two index partitions, which are the two
    entries of its top-level index: the call of line 658 hands out the
    first one, and the loop gets one Incomplete, with the second one,
    and the OK. *)
Example Finish_trace_of_two_partitions :
  let r := Sample.five_keys kTwoLevelIndexSearch [] in
  let '(code, r', statuses) := Finish_traced Sample.env r in
  code = Status.kOk
  /\ Sample.top_level_entries r' = 2%nat
  /\ statuses = [Status.Incomplete; Status.Incomplete; Status.OK]
  /\ loop_statuses statuses = [Status.Incomplete; Status.OK]
  /\ Finish_loop_statuses Sample.env (Finish_data Sample.env r)
     = [Status.Incomplete; Status.OK].
Proof. vm_compute. repeat split. Qed.

(** ** A status that is not OK *)

Section Latched.
Variable E : Env.

Lemma Add_latched r k v :
  ok r = false -> Add E r k v = (Status.code (status r), r).
Proof. intros H. unfold Add. rewrite H. reflexivity. Qed.

Lemma Flush_latched r : ok r = false -> Flush E r = r.
Proof. intros H. unfold Flush. rewrite H. reflexivity. Qed.

Lemma Finish_first_no_meta_blocks ib blocks s blocks' ib' :
  (forall b, ib <> Hashed b) ->
  IndexBuilder_Finish_first E ib blocks = (s, blocks', ib') ->
  meta_blocks blocks' = meta_blocks blocks
  /\ (Status.ok s = true \/ Status.IsIncomplete s = true).
Proof.
  intros Hnot H. unfold IndexBuilder_Finish_first in H.
  destruct ib as [b|b|b]; cbn [IndexBuilder_Finish] in H.
  - inversion H; subst. cbn. auto.
  - exfalso. apply (Hnot b). reflexivity.
  - unfold PartitionedIndexBuilder_Finish in H.
    break_hyps; invert_pairs; cbn; auto;
      unfold ShortenedIndexBuilder_Finish in *; invert_pairs; cbn; auto;
      discriminate.
Qed.

(** With the flat and with the partitioned index builder, a [Finish]
    that is entered with a status that is not OK writes nothing and
    returns the code of that status. *)
Lemma Finish_latched r :
  ok r = false -> (forall b, index_builder r <> Hashed b) ->
  untouched r (snd (Finish E r))
  /\ fst (Finish E r) = Status.code (status r).
Proof.
  intros Hok Hnot. unfold Finish, Finish_traced, Finish_blocks.
  assert (Hdata : Finish_data E r = set_first_key (set_closed r true) []).
  { unfold Finish_data. rewrite (Flush_latched r Hok).
    replace (ok (set_closed r true)) with false by (symmetry; exact Hok).
    reflexivity. }
  rewrite Hdata. unfold Finish_filter.
  replace (ok (set_first_key (set_closed r true) [])) with false
    by (symmetry; exact Hok).
  assert (Hfilter :
            match filter_builder (set_first_key (set_closed r true) []) with
            | Some _ => (set_first_key (set_closed r true) [], BlockHandle_new)
            | None => (set_first_key (set_closed r true) [], BlockHandle_new)
            end = (set_first_key (set_closed r true) [], BlockHandle_new))
    by (destruct (filter_builder _); reflexivity).
  rewrite Hfilter. cbn [index_builder set_first_key set_closed].
  destruct (IndexBuilder_Finish_first E (index_builder r) (mkIndexBlocks [] []))
    as [[s blocks] ib] eqn:Efirst.
  destruct (Finish_first_no_meta_blocks _ _ _ _ _ Hnot Efirst) as [Hmeta Hs].
  assert (Hcont : negb (Status.IsIncomplete s) && negb (Status.ok s) = false)
    by (destruct Hs as [Hs|Hs]; rewrite Hs; cbn; [apply andb_false_r|reflexivity]).
  rewrite Hcont. unfold Finish_meta. rewrite Hmeta. cbn [meta_blocks WriteMetaBlocks].
  replace (ok (set_index_builder (set_first_key (set_closed r true) []) ib))
    with false by (symmetry; exact Hok).
  unfold Finish_index.
  replace (ok (set_index_builder (set_first_key (set_closed r true) []) ib))
    with false by (symmetry; exact Hok).
  replace (ok (set_index_builder (set_first_key (set_closed r true) []) ib))
    with false by (symmetry; exact Hok).
  cbn. unfold untouched. cbn. repeat split.
Qed.

End Latched.

(** C9 (what the code does).  In [Finish], the write of the meta-index
    block fails and leaves the status IOError; the next write step,
    [WriteBlock] for the index block, runs all the same, appends to the
    file, moves the offset and stores OK over the IOError; the footer
    follows and [Finish] returns OK. *)
Theorem Finish_goes_on_after_a_failed_append :
  let r := Sample.one_key_fifth_append_fails in
  let r4 := Finish_data Sample.env r in
  let blocks :=
    snd (fst (IndexBuilder_Finish_first
                Sample.env (index_builder r4) (mkIndexBlocks [] []))) in
  let '(r5, meta_index) := Finish_meta Sample.env r4 blocks BlockHandle_new in
  let r6 :=
    fst (WriteRawBlock Sample.env r5
           (MetaIndexBuilder_Finish Sample.builder_lib meta_index)
           kNoCompression) in
  let r7 := fst (WriteBlock Sample.env r6 (index_block_contents blocks) false) in
  ok r5 = true
  /\ status r6 = Status.IOError "append" /\ WriteBlock_assert r6 = false
  /\ written (file r6) = written (file r5)
  /\ status r7 = Status.OK
  /\ List.length (written (file r7)) = (List.length (written (file r6)) + 22)%nat
  /\ offset r7 = offset r6 + 22
  /\ fst (Finish Sample.env r) = Status.kOk
  /\ status (snd (Finish Sample.env r)) = Status.OK
  /\ List.length (written (file (snd (Finish Sample.env r))))
     = (List.length (written (file r6)) + 22 + 53)%nat.
Proof. vm_compute. repeat split. Qed.

(** The same with a status that was not OK before [Finish]: the meta
    blocks of the hash index are written without a look at the
    status. *)
Example Finish_writes_hash_meta_blocks_after_a_failed_append :
  let r := Sample.hash_index_first_append_fails in
  status r = Status.IOError "append"
  /\ written (file r) = []
  /\ fst (Finish Sample.env r) = Status.kOk
  /\ status (snd (Finish Sample.env r)) = Status.OK
  /\ written (file (snd (Finish Sample.env r))) <> [].
Proof. vm_compute. repeat split. discriminate. Qed.

(** ** Hex conversions and prefix extractors of slices *)

Import Slice ReadWording.

Lemma list_pair_ind {A : Type} (P : list A -> Prop) :
  P [] -> (forall a, P [a]) -> (forall a b l, P l -> P (a :: b :: l)) ->
  forall l, P l.
Proof.
  intros H0 H1 H2 l.
  assert (H : P l /\ forall a, P (a :: l)).
  { induction l as [|b l [IH1 IH2]].
    - split; [exact H0|exact H1].
    - split; [apply IH2|]. intros a. apply H2. exact IH1. }
  exact (proj1 H).
Qed.

Lemma DecodeHex_loop_pair c1 c2 rest result :
  DecodeHex_loop (c1 :: c2 :: rest) result
  = if fromHex (char_of c1) <? 0 then (false, result)
    else if fromHex (char_of c2) <? 0 then (false, result)
    else DecodeHex_loop
           rest
           (result
              ++ [byte.of_Z (Z.lor (Z.shiftl (fromHex (char_of c1)) 4)
                                   (fromHex (char_of c2)))]).
Proof. reflexivity. Qed.

(** The two digits that [ToString] writes for a byte are read back as
    that byte. *)
Lemma hex_of_byte b :
  let hi := toHex (Z.shiftr (byte.unsigned b) 4) in
  let lo := toHex (Z.land (byte.unsigned b) 15) in
  (fromHex (char_of hi) <? 0) = false
  /\ (fromHex (char_of lo) <? 0) = false
  /\ byte.of_Z (Z.lor (Z.shiftl (fromHex (char_of hi)) 4)
                      (fromHex (char_of lo))) = b.
Proof. destruct b; vm_compute; repeat split. Qed.

Lemma DecodeHex_loop_ToString data : forall result,
  DecodeHex_loop (ToString data true) result = (true, result ++ data).
Proof.
  induction data as [|b data IH]; intros result.
  - cbn. rewrite app_nil_r. reflexivity.
  - cbn [ToString flat_map app] in *. rewrite DecodeHex_loop_pair.
    destruct (hex_of_byte b) as (-> & -> & ->).
    rewrite IH, <- app_assoc. reflexivity.
Qed.

Lemma size_ToString_hex data : size (ToString data true) = 2 * size data.
Proof.
  unfold size. induction data as [|b data IH]; [reflexivity|].
  cbn [ToString flat_map app List.length] in *. lia.
Qed.

Lemma DecodeHex_of_hex data result0 :
  DecodeHex (ToString data true) (Some result0) = (true, Some data).
Proof.
  unfold DecodeHex. rewrite size_ToString_hex.
  replace (2 * size data) with (size data * 2) by lia.
  rewrite Z.mod_mul by lia. cbn [Z.eqb negb].
  rewrite DecodeHex_loop_ToString. reflexivity.
Qed.

(** X1.  [Slice::DecodeHex] undoes [Slice::ToString(true)]: the hex
    string of any bytes has twice their length, and decoding it gives
    the answer [true] and the bytes back, whatever the result string
    held before. *)
Theorem DecodeHex_ToString data result0 :
  size (ToString data true) = 2 * size data
  /\ DecodeHex (ToString data true) (Some result0) = (true, Some data).
Proof.
  split; [apply size_ToString_hex|apply DecodeHex_of_hex].
Qed.

Lemma fromHex_hex_digit b : (fromHex (char_of b) <? 0) = negb (hex_digit b).
Proof. destruct b; reflexivity. Qed.

Lemma DecodeHex_loop_accepts data : forall result,
  Z.even (size data) = true ->
  (fst (DecodeHex_loop data result) = true <-> forallb hex_digit data = true).
Proof.
  induction data as [|a|a b data IH] using list_pair_ind; intros result Heven.
  - cbn. tauto.
  - discriminate Heven.
  - rewrite DecodeHex_loop_pair, !fromHex_hex_digit. cbn [forallb].
    assert (Heven' : Z.even (size data) = true).
    { unfold size in *. cbn [List.length] in Heven.
      rewrite !Nat2Z.inj_succ, Z.even_succ_succ in Heven. exact Heven. }
    destruct (hex_digit a); cbn [negb andb fst]; [|split; discriminate].
    destruct (hex_digit b); cbn [negb andb fst]; [|split; discriminate].
    apply IH. exact Heven'.
Qed.

Lemma even_mod2 z : (z mod 2 =? 0) = Z.even z.
Proof.
  rewrite Zmod_even. destruct (Z.even z); reflexivity.
Qed.

(** X2.  [Slice::DecodeHex] answers [true] for exactly the strings of
    even length that hold hexadecimal digits only, in upper or lower
    case; a null result pointer is refused. *)
Theorem DecodeHex_accepts data result0 :
  (fst (DecodeHex data (Some result0)) = true
   <-> Z.even (size data) = true /\ forallb hex_digit data = true)
  /\ fst (DecodeHex data None) = false.
Proof.
  unfold DecodeHex. rewrite even_mod2. split.
  - destruct (Z.even (size data)) eqn:Heven; cbn [negb].
    + pose proof (DecodeHex_loop_accepts data [] Heven) as H.
      destruct (DecodeHex_loop data []) as [answer result]. cbn [fst] in *.
      tauto.
    + cbn. split; [discriminate|]. intros [H _]. discriminate H.
  - destruct (Z.even (size data)); reflexivity.
Qed.

Lemma fromHex_range b :
  hex_digit b = true ->
  0 <= fromHex (char_of b) < 16 /\ toHex (fromHex (char_of b)) = toupper b.
Proof. destruct b; vm_compute; intros H; try discriminate H; repeat split; congruence. Qed.

Lemma In_nibbles h : 0 <= h < 16 -> In h nibbles.
Proof.
  intros Hh. unfold nibbles. apply in_map_iff. exists (Z.to_nat h).
  split; [lia|]. apply in_seq. lia.
Qed.

Lemma nibbles_split_back h1 h2 :
  0 <= h1 < 16 -> 0 <= h2 < 16 ->
  let u := byte.unsigned (byte.of_Z (Z.lor (Z.shiftl h1 4) h2)) in
  Z.shiftr u 4 = h1 /\ Z.land u 15 = h2.
Proof.
  intros H1 H2.
  assert (Hall : forallb (fun a => forallb (splits_back a) nibbles) nibbles
                 = true) by (vm_compute; reflexivity).
  rewrite forallb_forall in Hall.
  specialize (Hall h1 (In_nibbles h1 H1)). rewrite forallb_forall in Hall.
  specialize (Hall h2 (In_nibbles h2 H2)). unfold splits_back in Hall.
  apply andb_true_iff in Hall. destruct Hall as [Ha Hb].
  apply Z.eqb_eq in Ha, Hb. split; assumption.
Qed.

Lemma DecodeHex_loop_upper data : forall result decoded,
  Z.even (size data) = true ->
  DecodeHex_loop data result = (true, decoded) ->
  exists tail,
    decoded = result ++ tail /\ ToString tail true = map toupper data.
Proof.
  induction data as [|a|a b data IH] using list_pair_ind;
    intros result decoded Heven Hloop.
  - cbn in Hloop. inversion Hloop. exists []. rewrite app_nil_r.
    split; reflexivity.
  - discriminate Heven.
  - rewrite DecodeHex_loop_pair, !fromHex_hex_digit in Hloop.
    assert (Heven' : Z.even (size data) = true).
    { unfold size in *. cbn [List.length] in Heven.
      rewrite !Nat2Z.inj_succ, Z.even_succ_succ in Heven. exact Heven. }
    destruct (hex_digit a) eqn:Ha; cbn [negb] in Hloop; [|discriminate Hloop].
    destruct (hex_digit b) eqn:Hb; cbn [negb] in Hloop; [|discriminate Hloop].
    destruct (IH _ _ Heven' Hloop) as (tail & -> & Htail).
    destruct (fromHex_range a Ha) as [Ra Ua].
    destruct (fromHex_range b Hb) as [Rb Ub].
    destruct (nibbles_split_back _ _ Ra Rb) as [Hhi Hlo].
    eexists. rewrite <- app_assoc. split; [reflexivity|].
    cbn [app ToString flat_map map]. rewrite Hhi, Hlo, Ua, Ub.
    cbn [ToString] in Htail. rewrite Htail. reflexivity.
Qed.

(** X3.  What [Slice::DecodeHex] accepts, [Slice::ToString(true)] gives
    back in upper case: the decoding does not tell the two cases
    apart, and the hex string of the decoded bytes is the input with
    its letters in upper case. *)
Theorem ToString_DecodeHex data result0 decoded :
  DecodeHex data (Some result0) = (true, Some decoded) ->
  ToString decoded true = map toupper data.
Proof.
  unfold DecodeHex. rewrite even_mod2.
  destruct (Z.even (size data)) eqn:Heven; cbn [negb]; [|discriminate].
  destruct (DecodeHex_loop data []) as [answer result] eqn:Hloop.
  intros H. inversion H; subst answer result.
  destruct (DecodeHex_loop_upper data [] decoded Heven Hloop)
    as (tail & -> & Htail).
  exact Htail.
Qed.

Lemma ToString_DecodeHex_witness :
  ToString [Byte.xab; Byte.x0f] true
  = map toupper [Byte.x61; Byte.x42; Byte.x30; Byte.x66].
Proof.
  apply (ToString_DecodeHex [Byte.x61; Byte.x42; Byte.x30; Byte.x66] []).
  reflexivity.
Defined.

Lemma firstn_app_le {A : Type} n (a b : list A) :
  (n <= List.length a)%nat -> firstn n (a ++ b) = firstn n a.
Proof.
  intros H. rewrite firstn_app.
  replace (n - List.length a)%nat with 0%nat by lia.
  cbn. apply app_nil_r.
Qed.

(** X4.  The answer of [SameResultWhenAppended] can be relied on for
    the three prefix extractors: when it is [true] for a prefix, the
    transform of the prefix with anything appended is the transform of
    the prefix.  The no-op transform never answers [true]. *)
Theorem SameResultWhenAppended_sound len prefix suffix :
  0 <= len ->
  (SameResultWhenAppended (FixedPrefixTransform len) prefix = true ->
   Transform (FixedPrefixTransform len) (prefix ++ suffix)
   = Transform (FixedPrefixTransform len) prefix)
  /\ (SameResultWhenAppended (CappedPrefixTransform len) prefix = true ->
      Transform (CappedPrefixTransform len) (prefix ++ suffix)
      = Transform (CappedPrefixTransform len) prefix)
  /\ SameResultWhenAppended NoopTransform prefix = false.
Proof.
  intros Hlen. cbn. repeat split.
  - intros H. apply Z.leb_le in H. apply firstn_app_le. unfold size in H. lia.
  - intros H. apply Z.leb_le in H. rewrite size_app.
    pose proof (size_nonneg suffix).
    rewrite !Z.min_l by lia. apply firstn_app_le. unfold size in H. lia.
Qed.

Lemma SameResultWhenAppended_sound_witness :
  Transform (FixedPrefixTransform 2) ([Byte.x61; Byte.x62; Byte.x63] ++ [Byte.x64])
  = Transform (FixedPrefixTransform 2) [Byte.x61; Byte.x62; Byte.x63].
Proof.
  refine (proj1 (SameResultWhenAppended_sound
                   2 [Byte.x61; Byte.x62; Byte.x63] [Byte.x64] _) _).
  - lia.
  - reflexivity.
Defined.

(** X5.  For a source in the domain, the fixed and the capped prefix
    transform give a beginning of the source that is in the range of
    the transform, and transforming again changes nothing. *)
Theorem Transform_in_range len src :
  0 <= len ->
  (InDomain (FixedPrefixTransform len) src = true ->
   let t := FixedPrefixTransform len in
   InRange t (Transform t src) = true
   /\ prefix_of (Transform t src) src
   /\ InDomain t (Transform t src) = true
   /\ Transform t (Transform t src) = Transform t src)
  /\ (let t := CappedPrefixTransform len in
      InDomain t src = true
      /\ InRange t (Transform t src) = true
      /\ prefix_of (Transform t src) src
      /\ Transform t (Transform t src) = Transform t src).
Proof.
  intros Hlen. cbn. split.
  - intros H. apply Z.leb_le in H. unfold size in *.
    assert (Hl : List.length (firstn (Z.to_nat len) src) = Z.to_nat len)
      by (rewrite length_firstn; lia).
    repeat split.
    + apply Z.eqb_eq. rewrite Hl. lia.
    + exists (skipn (Z.to_nat len) src). symmetry. apply firstn_skipn.
    + apply Z.leb_le. rewrite Hl. lia.
    + apply firstn_all2. rewrite Hl. lia.
  - unfold size.
    set (k := Z.to_nat (Z.min len (Z.of_nat (List.length src)))).
    assert (Hl : List.length (firstn k src) = k)
      by (rewrite length_firstn; subst k; lia).
    repeat split.
    + apply Z.leb_le. rewrite Hl. subst k. lia.
    + exists (skipn k src). symmetry. apply firstn_skipn.
    + rewrite Hl. apply firstn_all2. rewrite Hl. subst k. lia.
Qed.

Lemma Transform_in_range_witness :
  let t := FixedPrefixTransform 2 in
  let src := [Byte.x61; Byte.x62; Byte.x63] in
  InRange t (Transform t src) = true
  /\ prefix_of (Transform t src) src
  /\ InDomain t (Transform t src) = true
  /\ Transform t (Transform t src) = Transform t src.
Proof.
  refine (proj1 (Transform_in_range 2 [Byte.x61; Byte.x62; Byte.x63] _) _).
  - lia.
  - reflexivity.
Defined.

(** ** More about handles and footers *)

Import TableFile.

(** X6.  The hex form of a handle that [BlockHandle::ToString(true)]
    prints leads back to the handle: [Slice::DecodeHex] gives the
    encoding that [ToString(false)] returns, and
    [BlockHandle::DecodeFrom] reads the handle from it and leaves
    nothing over. *)
Theorem BlockHandle_ToString_roundtrip h h0 result0 :
  valid_handle h ->
  DecodeHex (BlockHandle_ToString h true) (Some result0)
  = (true, Some (BlockHandle_ToString h false))
  /\ BlockHandle_DecodeFrom h0 (BlockHandle_ToString h false)
     = (Status.OK, h, []).
Proof.
  intros Hh. unfold BlockHandle_ToString. split.
  - apply DecodeHex_of_hex.
  - rewrite <- (app_nil_r (BlockHandle_EncodeTo h [])).
    rewrite BlockHandle_EncodeTo_app. cbn [app]. rewrite <- app_assoc.
    apply BlockHandle_DecodeFrom_EncodeTo. exact Hh.
Qed.

Lemma BlockHandle_ToString_roundtrip_witness :
  DecodeHex (BlockHandle_ToString Sample.handle1 true) (Some [])
  = (true, Some (BlockHandle_ToString Sample.handle1 false))
  /\ BlockHandle_DecodeFrom BlockHandle_new
       (BlockHandle_ToString Sample.handle1 false)
     = (Status.OK, Sample.handle1, []).
Proof.
  apply BlockHandle_ToString_roundtrip.
  unfold valid_handle, uint64. cbn. lia.
Defined.

Lemma Footer_EncodeTo_size_fact M f dst :
  Footer_EncodeTo M f dst = dst ++ Footer_EncodeTo M f []
  /\ size (Footer_EncodeTo M f dst)
     = size dst
       + (if IsLegacyFooterFormat M (table_magic_number_ f)
          then kVersion0EncodedLength
          else if table_magic_number_ f =? kBlockBasedTableMagicNumber
               then kNewVersionsEncodedLength
               else kVersion3EncodedLength).
Proof.
  destruct (IsLegacyFooterFormat M (table_magic_number_ f)) eqn:HL.
  - rewrite !(EncodeTo_legacy M f) by exact HL.
    rewrite size_app, size_legacy_bytes. split; reflexivity.
  - destruct (Z.eqb_spec (table_magic_number_ f) kBlockBasedTableMagicNumber)
      as [HB|HB].
    + rewrite !(EncodeTo_versioned M f) by assumption.
      rewrite size_app, size_versioned_bytes. split; reflexivity.
    + rewrite !(EncodeTo_extent M f) by assumption.
      rewrite size_app, size_extent_bytes. split; reflexivity.
Qed.

(** X7.  [Footer::EncodeTo] only appends, and what it appends has the
    length of the layout for every footer, whatever its fields hold:
    the handles always fit into the padded area, so that the closing
    assertion of each of the three branches holds. *)
Theorem Footer_EncodeTo_size M f dst :
  Footer_EncodeTo M f dst = dst ++ Footer_EncodeTo M f []
  /\ size (Footer_EncodeTo M f dst)
     = size dst
       + (if IsLegacyFooterFormat M (table_magic_number_ f)
          then kVersion0EncodedLength
          else if table_magic_number_ f =? kBlockBasedTableMagicNumber
               then kNewVersionsEncodedLength
               else kVersion3EncodedLength).
Proof. exact (Footer_EncodeTo_size_fact M f dst). Qed.

(** The magic number that [Footer::DecodeFrom] reads. *)
Lemma read_trailing_magic input :
  kMinEncodedLength <= size input ->
  let magic_ptr := remove_prefix (size input - kMagicNumberLengthByte) input in
  Z.lor (Z.shiftl (DecodeFixed32 (skipn 4 magic_ptr)) 32)
        (DecodeFixed32 magic_ptr)
  = trailing_magic input.
Proof.
  intros Hsize magic_ptr. subst magic_ptr.
  unfold remove_prefix, trailing_magic, size, kMagicNumberLengthByte.
  unfold kMinEncodedLength, kVersion0EncodedLength,
    BlockHandle_kMaxEncodedLength, size in Hsize.
  replace (Z.to_nat (Z.of_nat (List.length input) - 8))
    with (List.length input - 8)%nat by lia.
  set (p := skipn (List.length input - 8) input).
  assert (Hp : List.length p = 8%nat)
    by (subst p; rewrite length_skipn; lia).
  rewrite <- (firstn_skipn 4 p) at 3.
  rewrite le_combine_app, length_firstn, Hp. cbn [Nat.min Z.of_nat].
  unfold DecodeFixed32.
  rewrite (firstn_all2 (n := 4) (skipn 4 p)) by (rewrite length_skipn; lia).
  rewrite Z.lor_comm. reflexivity.
Qed.

Lemma DecodeFrom_handles_fields f input :
  let '(s, g, rest) := DecodeFrom_handles f input in
  table_magic_number_ g = table_magic_number_ f
  /\ version_ g = version_ f /\ checksum_ g = checksum_ f
  /\ ((s = Status.OK /\ rest = [])
      \/ s = Status.Corruption "bad block handle").
Proof.
  unfold DecodeFrom_handles.
  pose proof (BlockHandle_DecodeFrom_status (metaindex_handle_ f) input) as H1.
  destruct (BlockHandle_DecodeFrom (metaindex_handle_ f) input)
    as [[s1 mh] input1].
  destruct H1 as [[-> _]|(-> & _)]; cbn [Status.ok Status.code Status.OK
                                          Status.Corruption].
  - pose proof (BlockHandle_DecodeFrom_status
                  (index_handle_ (set_metaindex_handle f mh)) input1) as H2.
    destruct (BlockHandle_DecodeFrom
                (index_handle_ (set_metaindex_handle f mh)) input1)
      as [[s2 ih] input2].
    destruct H2 as [[-> _]|(-> & _)]; cbn; repeat split; auto.
  - cbn. repeat split; auto.
Qed.

Section DecodedFooters.
Variable M : MagicNumbers.

(** What [Footer::DecodeFrom] leaves in the footer and in the status,
    by the magic number at the end of the input. *)
Lemma Footer_DecodeFrom_returned f0 input s f rest :
  Footer_DecodeFrom M f0 input = Returned (s, f, rest) ->
  let magic := trailing_magic input in
  kMinEncodedLength <= size input
  /\ table_magic_number_ f
     = (if IsLegacyFooterFormat M magic
        then UpconvertLegacyFooterFormat M magic else magic)
  /\ (IsLegacyFooterFormat M magic = true
      \/ magic = kBlockBasedTableMagicNumber
      \/ magic = kExtentBasedTableMagicNumber M)
  /\ (IsLegacyFooterFormat M magic = true ->
      version_ f = 0 /\ checksum_ f = kCRC32c)
  /\ ((s = Status.OK /\ rest = [])
      \/ exists msg, s = Status.Corruption msg /\ In msg DecodeFrom_messages).
Proof.
  unfold Footer_DecodeFrom.
  destruct (Z.ltb_spec (size input) kMinEncodedLength) as [|Hsize];
    [discriminate|].
  cbv zeta. rewrite (read_trailing_magic input Hsize).
  set (magic := trailing_magic input).
  assert (Hbad : forall msg : string,
             In msg DecodeFrom_messages ->
             (Status.Corruption msg = Status.OK /\ rest = [])
             \/ exists msg', Status.Corruption msg = Status.Corruption msg'
                             /\ In msg' DecodeFrom_messages)
    by (intros msg Hin; right; exists msg; split; [reflexivity|exact Hin]).
  assert (Hhandles : forall g i,
             DecodeFrom_handles g i = (s, f, rest) ->
             table_magic_number_ f = table_magic_number_ g
             /\ version_ f = version_ g /\ checksum_ f = checksum_ g
             /\ ((s = Status.OK /\ rest = [])
                 \/ exists msg, s = Status.Corruption msg
                                /\ In msg DecodeFrom_messages)).
  { intros g i Hd. pose proof (DecodeFrom_handles_fields g i) as H.
    rewrite Hd in H. destruct H as (Hm & Hv & Hc & [Hok| ->]).
    - repeat split; auto.
    - repeat split; auto. right. eexists. split; [reflexivity|].
      cbn. auto. }
  destruct (IsLegacyFooterFormat M magic) eqn:HL.
  - intros H. inversion H as [Hd]. apply Hhandles in Hd.
    destruct Hd as (Hm & Hv & Hc & Hs). cbn in Hm, Hv, Hc.
    repeat split; auto.
  - destruct (Z.eqb_spec magic kBlockBasedTableMagicNumber) as [HB|HB].
    + destruct (size input <? kNewVersionsEncodedLength).
      * intros H. inversion H; subst. cbn.
        repeat split; auto; try discriminate.
        right. eexists. split; [reflexivity|]. cbn. auto.
      * destruct (GetVarint32 _) as [[chksum input']|].
        -- intros H. inversion H as [Hd]. apply Hhandles in Hd.
           destruct Hd as (Hm & Hv & Hc & Hs). cbn in Hm.
           repeat split; auto; discriminate.
        -- intros H. inversion H; subst. cbn.
           repeat split; auto; try discriminate.
           right. eexists. split; [reflexivity|]. cbn. auto.
    + destruct (Z.eqb_spec magic (kExtentBasedTableMagicNumber M)) as [HE|HE];
        [|discriminate].
      destruct (size input <? kVersion3EncodedLength).
      * intros H. inversion H; subst. cbn.
        repeat split; auto; try discriminate.
        right. eexists. split; [reflexivity|]. cbn. auto.
      * destruct (GetFixed32 _) as [[v1 i1]|];
          destruct (GetFixed64 _) as [[v2 i2]|];
          (destruct (GetVarint32 _) as [[chksum input']|];
           [ intros H; inversion H as [Hd]; apply Hhandles in Hd;
             destruct Hd as (Hm & Hv & Hc & Hs); cbn in Hm;
             repeat split; auto; discriminate
           | intros H; inversion H; subst; cbn;
             repeat split; auto; try discriminate;
             right; eexists; (split; [reflexivity|]); cbn; auto ]).
Qed.

(** X8.  [Footer::DecodeFrom] never leaves a legacy magic number in
    the footer: a legacy input comes back with the magic number of the
    current format, with version 0 and with the CRC32C checksum type,
    so that the assertion of the constructors and the assertion of the
    legacy branch of [Footer::EncodeTo] hold for every decoded
    footer. *)
Theorem DecodeFrom_never_legacy f0 input s f rest :
  MagicNumbers_ok M ->
  IsLegacyFooterFormat M (kPlainTableMagicNumber M) = false ->
  Footer_DecodeFrom M f0 input = Returned (s, f, rest) ->
  IsLegacyFooterFormat M (table_magic_number_ f) = false
  /\ Footer_new_assert M (table_magic_number_ f) (version_ f) = true
  /\ EncodeTo_legacy_assert M f = true
  /\ (IsLegacyFooterFormat M (trailing_magic input) = true ->
      version_ f = 0 /\ checksum_ f = kCRC32c).
Proof.
  intros HM HP Hd. apply Footer_DecodeFrom_returned in Hd. cbv zeta in Hd.
  destruct Hd as (_ & Hm & Hcases & Hlegacy & _).
  assert (Hnot : IsLegacyFooterFormat M (table_magic_number_ f) = false).
  { rewrite Hm.
    destruct (IsLegacyFooterFormat M (trailing_magic input)) eqn:HL.
    - unfold UpconvertLegacyFooterFormat.
      unfold IsLegacyFooterFormat in HL.
      destruct (trailing_magic input =? kLegacyBlockBasedTableMagicNumber).
      + apply (not_legacy_block_based M HM).
      + cbn [orb] in HL. rewrite HL. exact HP.
    - exact HL. }
  unfold Footer_new_assert, EncodeTo_legacy_assert. rewrite Hnot.
  cbn [negb orb]. repeat split; auto; apply Hlegacy; assumption.
Qed.

(** X9.  [Footer::DecodeFrom] returns OK, with all of the input used
    up, or Corruption with one of four messages; the message
    ["unknown magic"] is not among them, and a call that returns has
    seen one of the recognized magic numbers. *)
Theorem DecodeFrom_statuses f0 input s f rest :
  Footer_DecodeFrom M f0 input = Returned (s, f, rest) ->
  recognized_magic M (trailing_magic input) = true
  /\ ((s = Status.OK /\ rest = [])
      \/ exists msg,
          s = Status.Corruption msg /\ In msg DecodeFrom_messages
          /\ msg <> "unknown magic"%string).
Proof.
  intros Hd. apply Footer_DecodeFrom_returned in Hd. cbv zeta in Hd.
  destruct Hd as (_ & _ & Hcases & _ & Hs). split.
  - unfold recognized_magic.
    destruct Hcases as [-> |[-> | ->]]; rewrite ?Z.eqb_refl, ?orb_true_r;
      reflexivity.
  - destruct Hs as [Hok|(msg & -> & Hin)]; [left; exact Hok|].
    right. exists msg. repeat split; auto.
    cbn in Hin. intuition (subst; discriminate).
Qed.

(** X10.  An input that ends in the magic number of the versioned
    layout or of the extent layout and is shorter than that layout is
    refused with Corruption and the message of the layout, before any
    field in front of the version is read. *)
Theorem DecodeFrom_short_input f0 input :
  kMinEncodedLength <= size input ->
  IsLegacyFooterFormat M (trailing_magic input) = false ->
  kExtentBasedTableMagicNumber M <> kBlockBasedTableMagicNumber ->
  (trailing_magic input = kBlockBasedTableMagicNumber ->
   size input < kNewVersionsEncodedLength ->
   exists f,
     Footer_DecodeFrom M f0 input
     = Returned (Status.Corruption "input is too short to be an sstable",
                 f, input)
     /\ metaindex_handle_ f = metaindex_handle_ f0
     /\ index_handle_ f = index_handle_ f0
     /\ checksum_ f = checksum_ f0)
  /\ (trailing_magic input = kExtentBasedTableMagicNumber M ->
      size input < kVersion3EncodedLength ->
      exists f,
        Footer_DecodeFrom M f0 input
        = Returned
            (Status.Corruption "input is too short to be an extent sstable",
             f, input)
        /\ metaindex_handle_ f = metaindex_handle_ f0
        /\ index_handle_ f = index_handle_ f0
        /\ checksum_ f = checksum_ f0).
Proof.
  intros Hsize HL HEB. unfold Footer_DecodeFrom.
  destruct (Z.ltb_spec (size input) kMinEncodedLength) as [|_]; [lia|].
  cbv zeta. rewrite (read_trailing_magic input Hsize), HL. split.
  - intros -> Hshort. rewrite Z.eqb_refl.
    destruct (Z.ltb_spec (size input) kNewVersionsEncodedLength) as [_|]; [|lia].
    eexists. split; [reflexivity|]. cbn. repeat split.
  - intros -> Hshort.
    destruct (Z.eqb_spec (kExtentBasedTableMagicNumber M)
                         kBlockBasedTableMagicNumber) as [|_];
      [contradiction|].
    rewrite Z.eqb_refl.
    destruct (Z.ltb_spec (size input) kVersion3EncodedLength) as [_|]; [|lia].
    eexists. split; [reflexivity|]. cbn. repeat split.
Qed.

End DecodedFooters.

Lemma DecodeFrom_never_legacy_witness :
  let input := Footer_EncodeTo Sample.magic Sample.legacy_footer [] in
  let f :=
    mkFooter 0 0 0 kCRC32c Sample.handle1 Sample.handle2
             kBlockBasedTableMagicNumber in
  IsLegacyFooterFormat Sample.magic (table_magic_number_ f) = false
  /\ Footer_new_assert Sample.magic (table_magic_number_ f) (version_ f) = true
  /\ EncodeTo_legacy_assert Sample.magic f = true
  /\ (IsLegacyFooterFormat Sample.magic (trailing_magic input) = true ->
      version_ f = 0 /\ checksum_ f = kCRC32c).
Proof.
  apply (DecodeFrom_never_legacy
           Sample.magic (Footer_new 0 0)
           (Footer_EncodeTo Sample.magic Sample.legacy_footer [])
           Status.OK _ [] Sample_magic_ok).
  - vm_compute. reflexivity.
  - vm_compute. reflexivity.
Defined.

Lemma DecodeFrom_statuses_witness :
  let input := Footer_EncodeTo Sample.magic Sample.versioned_footer [] in
  recognized_magic Sample.magic (trailing_magic input) = true
  /\ ((Status.OK = Status.OK /\ @nil byte = [])
      \/ exists msg,
          Status.OK = Status.Corruption msg /\ In msg DecodeFrom_messages
          /\ msg <> "unknown magic"%string).
Proof.
  apply (DecodeFrom_statuses
           Sample.magic (Footer_new 0 0)
           (Footer_EncodeTo Sample.magic Sample.versioned_footer [])
           Status.OK Sample.versioned_footer []).
  vm_compute. reflexivity.
Defined.

Lemma DecodeFrom_short_input_witness :
  let input := repeat Byte.x00 40 ++ magic_bytes kBlockBasedTableMagicNumber in
  exists f,
    Footer_DecodeFrom Sample.magic (Footer_new 0 0) input
    = Returned (Status.Corruption "input is too short to be an sstable",
                f, input)
    /\ metaindex_handle_ f = metaindex_handle_ (Footer_new 0 0)
    /\ index_handle_ f = index_handle_ (Footer_new 0 0)
    /\ checksum_ f = checksum_ (Footer_new 0 0).
Proof.
  refine (proj1 (DecodeFrom_short_input
                   Sample.magic (Footer_new 0 0)
                   (repeat Byte.x00 40
                      ++ magic_bytes kBlockBasedTableMagicNumber) _ _ _) _ _).
  - vm_compute. congruence.
  - vm_compute. reflexivity.
  - vm_compute. congruence.
  - vm_compute. reflexivity.
  - vm_compute. reflexivity.
Defined.

(** X11.  [Footer::EncodeTo] writes the extent layout for every magic
    number that is neither a legacy one nor the block-based one, and
    [Footer::DecodeFrom] knows the extent magic number only: a footer
    with any other magic number, the plain-table one that
    [DecodeFrom] itself gives to a legacy plain-table footer among
    them, is encoded to bytes whose decoding ends in [abort()]. *)
Theorem EncodeTo_unrecognized_magic_aborts M f f0 dst :
  uint64 (table_magic_number_ f) ->
  recognized_magic M (table_magic_number_ f) = false ->
  Footer_DecodeFrom M f0 (Footer_EncodeTo M f dst) = Aborted.
Proof.
  intros Hm Hrec. unfold recognized_magic in Hrec.
  apply orb_false_elim in Hrec. destruct Hrec as [Hrec HE].
  apply orb_false_elim in Hrec. destruct Hrec as [HL HB].
  rewrite (EncodeTo_extent M f dst HL)
    by (intros H; rewrite H, Z.eqb_refl in HB; discriminate HB).
  unfold Footer_DecodeFrom.
  destruct (Z.ltb_spec (size (dst ++ extent_bytes f)) kMinEncodedLength)
    as [Hlt|_].
  { rewrite size_app, size_extent_bytes in Hlt.
    pose proof (size_nonneg dst).
    unfold kMinEncodedLength, kVersion0EncodedLength,
      BlockHandle_kMaxEncodedLength in Hlt. lia. }
  cbv zeta.
  assert (Hmagic := magic_at_end
                      (dst ++ (extent_body f ++ padding 53 (extent_body f))
                           ++ EncodeFixed32 (version_ f))
                      (table_magic_number_ f) Hm).
  cbv zeta in Hmagic. unfold extent_bytes.
  rewrite <- !app_assoc in Hmagic. rewrite <- !app_assoc.
  rewrite Hmagic, HL, HB, HE. reflexivity.
Qed.

Lemma EncodeTo_unrecognized_magic_aborts_witness :
  let legacy_plain :=
    mkFooter 0 0 0 kCRC32c Sample.handle1 Sample.handle2
             (kLegacyPlainTableMagicNumber Sample.magic) in
  let decoded :=
    mkFooter 0 0 0 kCRC32c Sample.handle1 Sample.handle2
             (kPlainTableMagicNumber Sample.magic) in
  Footer_DecodeFrom Sample.magic (Footer_new 0 0)
    (Footer_EncodeTo Sample.magic legacy_plain [])
  = Returned (Status.OK, decoded, [])
  /\ Footer_DecodeFrom Sample.magic (Footer_new 0 0)
       (Footer_EncodeTo Sample.magic decoded [])
     = Aborted.
Proof.
  split.
  - vm_compute. reflexivity.
  - apply EncodeTo_unrecognized_magic_aborts.
    + vm_compute. split; congruence.
    + vm_compute. reflexivity.
Defined.

(** ** Reading the footer of a file *)

Lemma DecodeFrom_EncodeTo_valid M l f f0 dst :
  MagicNumbers_ok M ->
  valid_footer M l f ->
  exists g,
    Footer_DecodeFrom M f0 (Footer_EncodeTo M f dst)
    = Returned (Status.OK, g, [])
    /\ same_footer M l f g.
Proof.
  intros M_ok (Hl & Hmh & Hih & Hfields).
  pose proof (uint64_magic M M_ok l f Hl) as Hm.
  unfold layout_of in Hl. unfold same_footer.
  rewrite canonical_magic_Upconvert.
  destruct (IsLegacyFooterFormat M (table_magic_number_ f)) eqn:HL.
  - inversion Hl; subst l. destruct Hfields as [Hv Hc].
    rewrite (EncodeTo_legacy M) by exact HL.
    rewrite (DecodeFrom_legacy M) by assumption.
    eexists. split; [reflexivity|]. cbn. rewrite Hv, Hc. repeat split.
  - destruct (Z.eqb_spec (table_magic_number_ f) kBlockBasedTableMagicNumber)
      as [HB|HB].
    + inversion Hl; subst l. destruct Hfields as [Hv Hc].
      rewrite (EncodeTo_versioned M) by assumption.
      rewrite (DecodeFrom_versioned M)
        by (try assumption; apply valid_checksum_range; exact Hc).
      eexists. split; [reflexivity|]. cbn. rewrite HB. repeat split.
    + destruct (Z.eqb_spec (table_magic_number_ f)
                           (kExtentBasedTableMagicNumber M)) as [HE|HE];
        [|discriminate Hl].
      inversion Hl; subst l. destruct Hfields as (Hv & Hc & Hvs & Hne).
      rewrite (EncodeTo_extent M) by assumption.
      rewrite (DecodeFrom_extent M)
        by (try assumption; apply valid_checksum_range; exact Hc).
      eexists. split; [reflexivity|]. cbn. rewrite HE. repeat split.
Qed.

Section ReadingFooters.
Variable M : MagicNumbers.
Variable MAX_EXTENT_SIZE : Z.

(** X12.  [ReadFooterFromFile] never enters [Footer::DecodeFrom] with
    fewer bytes than its assertion asks for, and the statuses that it
    returns are OK, a Corruption, or the status of the failed read. *)
Theorem ReadFooterFromFile_statuses file file_size footer enforce :
  let result :=
    ReadFooterFromFile M MAX_EXTENT_SIZE file file_size footer enforce in
  result <> OutOfContract
  /\ forall s f,
      result = Returned (s, f) ->
      s = Status.OK \/ Status.IsCorruption s = true
      \/ s = fst (file (wrap64 (MAX_EXTENT_SIZE - kMaxEncodedLength))
                       kMaxEncodedLength).
Proof.
  unfold ReadFooterFromFile.
  destruct (file_size <? kMinEncodedLength).
  { split; [discriminate|]. intros s f H. inversion H. auto. }
  destruct (file _ _) as [s0 footer_input]. cbn [fst].
  destruct (Status.ok s0).
  2:{ split; [discriminate|]. intros s f H. inversion H. auto. }
  cbn [negb].
  destruct (Z.ltb_spec (size footer_input) kMinEncodedLength) as [Hlt|Hsize].
  { split; [discriminate|]. intros s f H. inversion H. auto. }
  destruct (Footer_DecodeFrom M footer footer_input)
    as [[[s1 f1] rest]| |] eqn:Hd.
  - apply Footer_DecodeFrom_returned in Hd. cbv zeta in Hd.
    destruct Hd as (_ & _ & _ & _ & Hs).
    split.
    + destruct (Status.ok s1); cbn [negb]; [|discriminate].
      destruct (_ && _); discriminate.
    + intros s f H.
      destruct Hs as [[-> _]|(msg & -> & _)]; cbn in H.
      * destruct (_ && _); inversion H; auto.
      * inversion H. auto.
  - split; [discriminate|]. intros s f H. discriminate H.
  - unfold Footer_DecodeFrom in Hd.
    destruct (Z.ltb_spec (size footer_input) kMinEncodedLength) as [|_]; [lia|].
    exfalso. cbv zeta in Hd.
    repeat match type of Hd with
           | (if ?c then _ else _) = _ => destruct c
           | match ?c with _ => _ end = _ => destruct c
           | (let '(_, _) := ?c in _) = _ => destruct c
           end; discriminate Hd.
Qed.

(** X13.  An OK from [ReadFooterFromFile] with a magic number to
    enforce means that the footer has this magic number.  As the
    footer never has a legacy magic number after the decoding, no file
    passes when a legacy magic number is enforced. *)
Theorem ReadFooterFromFile_enforces file file_size footer enforce s f :
  MagicNumbers_ok M ->
  IsLegacyFooterFormat M (kPlainTableMagicNumber M) = false ->
  ReadFooterFromFile M MAX_EXTENT_SIZE file file_size footer enforce
  = Returned (s, f) ->
  Status.ok s = true ->
  enforce <> 0 ->
  table_magic_number_ f = enforce
  /\ IsLegacyFooterFormat M enforce = false.
Proof.
  intros HM HP. unfold ReadFooterFromFile.
  destruct (file_size <? kMinEncodedLength);
    [intros H; inversion H; subst; discriminate|].
  destruct (file _ _) as [s0 footer_input].
  destruct (Status.ok s0) eqn:Hs0; cbn [negb].
  2:{ intros H; inversion H; subst. congruence. }
  destruct (size footer_input <? kMinEncodedLength);
    [intros H; inversion H; subst; discriminate|].
  destruct (Footer_DecodeFrom M footer footer_input) as [[[s1 f1] rest]| |] eqn:Hd;
    try discriminate.
  destruct (Status.ok s1) eqn:Hs1; cbn [negb].
  2:{ intros H; inversion H; subst. congruence. }
  destruct (Z.eqb_spec enforce 0) as [|_]; cbn [negb andb].
  { intros _ _ Hne. contradiction. }
  destruct (Z.eqb_spec enforce (table_magic_number_ f1)) as [He|_];
    cbn [negb]; [|intros H; inversion H; subst; discriminate].
  intros H _ _. inversion H; subst s f. split; [symmetry; exact He|].
  apply Footer_DecodeFrom_returned in Hd. cbv zeta in Hd.
  destruct Hd as (_ & Hm & _). rewrite He, Hm.
  destruct (IsLegacyFooterFormat M (trailing_magic footer_input)) eqn:HL;
    [|exact HL].
  unfold UpconvertLegacyFooterFormat. unfold IsLegacyFooterFormat in HL.
  destruct (trailing_magic footer_input =? kLegacyBlockBasedTableMagicNumber).
  - apply (not_legacy_block_based M HM).
  - cbn [orb] in HL. rewrite HL. exact HP.
Qed.

Lemma ReadFooterFromFile_of_encoding l f file file_size footer0 enforce pre :
  MagicNumbers_ok M ->
  valid_footer M l f ->
  kMinEncodedLength <= file_size ->
  file (wrap64 (MAX_EXTENT_SIZE - kMaxEncodedLength)) kMaxEncodedLength
  = (Status.OK, Footer_EncodeTo M f pre) ->
  enforce = 0
  \/ enforce = (if IsLegacyFooterFormat M (table_magic_number_ f)
                then UpconvertLegacyFooterFormat M (table_magic_number_ f)
                else table_magic_number_ f) ->
  exists g,
    ReadFooterFromFile M MAX_EXTENT_SIZE file file_size footer0 enforce
    = Returned (Status.OK, g)
    /\ same_footer M l f g.
Proof.
  intros HM Hf Hsize Hread Henforce. unfold ReadFooterFromFile.
  destruct (Z.ltb_spec file_size kMinEncodedLength) as [|_]; [lia|].
  rewrite Hread. cbn [Status.ok Status.OK Status.code negb].
  destruct (Z.ltb_spec (size (Footer_EncodeTo M f pre)) kMinEncodedLength)
    as [Hshort|_].
  { pose proof (proj2 (Footer_EncodeTo_size_fact M f pre)) as Hs.
    exfalso. revert Hshort. rewrite Hs. pose proof (size_nonneg pre).
    unfold kMinEncodedLength, kVersion0EncodedLength, kNewVersionsEncodedLength,
      kVersion3EncodedLength, BlockHandle_kMaxEncodedLength.
    destruct (IsLegacyFooterFormat M (table_magic_number_ f)); [lia|].
    destruct (table_magic_number_ f =? kBlockBasedTableMagicNumber); lia. }
  destruct (DecodeFrom_EncodeTo_valid M l f footer0 pre HM Hf)
    as (g & -> & Hsame).
  cbn [Status.ok Status.OK Status.code negb].
  exists g. split; [|exact Hsame].
  destruct Henforce as [-> | ->]; [reflexivity|].
  destruct Hsame as (Hmagic & _).
  rewrite canonical_magic_Upconvert in Hmagic. rewrite <- Hmagic.
  rewrite Z.eqb_refl. cbn [negb].
  rewrite andb_false_r. reflexivity.
Qed.

(** X14.  [ReadFooterFromFile] finds the footer that
    [Footer::EncodeTo] wrote when it is the end of the bytes that the
    file gives for the last [kMaxEncodedLength] bytes of the extent:
    the shorter layouts are found behind what precedes them in the
    window.  The result is OK with the footer that was encoded, when
    no magic number is enforced or the one of the decoded footer. *)
Theorem ReadFooterFromFile_reads_footer l f file file_size footer0 enforce pre :
  MagicNumbers_ok M ->
  valid_footer M l f ->
  kMinEncodedLength <= file_size ->
  file (wrap64 (MAX_EXTENT_SIZE - kMaxEncodedLength)) kMaxEncodedLength
  = (Status.OK, Footer_EncodeTo M f pre) ->
  enforce = 0
  \/ enforce = (if IsLegacyFooterFormat M (table_magic_number_ f)
                then UpconvertLegacyFooterFormat M (table_magic_number_ f)
                else table_magic_number_ f) ->
  exists g,
    ReadFooterFromFile M MAX_EXTENT_SIZE file file_size footer0 enforce
    = Returned (Status.OK, g)
    /\ same_footer M l f g.
Proof. apply ReadFooterFromFile_of_encoding. Qed.

End ReadingFooters.

Lemma ReadFooterFromFile_enforces_witness :
  table_magic_number_ Sample.versioned_footer = kBlockBasedTableMagicNumber
  /\ IsLegacyFooterFormat Sample.magic kBlockBasedTableMagicNumber = false.
Proof.
  apply (ReadFooterFromFile_enforces
           Sample.magic ReadSample.MAX_EXTENT_SIZE
           (reader_of (ReadSample.extent_of Sample.versioned_footer))
           ReadSample.MAX_EXTENT_SIZE (Footer_new 0 0)
           kBlockBasedTableMagicNumber Status.OK Sample.versioned_footer
           Sample_magic_ok).
  - vm_compute. reflexivity.
  - vm_compute. reflexivity.
  - reflexivity.
  - vm_compute. congruence.
Defined.

(** A legacy file does not pass when its own magic number is
    enforced. *)
Example ReadFooterFromFile_refuses_enforced_legacy_magic :
  exists f,
    ReadFooterFromFile
      Sample.magic ReadSample.MAX_EXTENT_SIZE
      (reader_of (ReadSample.extent_of Sample.legacy_footer))
      ReadSample.MAX_EXTENT_SIZE (Footer_new 0 0)
      kLegacyBlockBasedTableMagicNumber
    = Returned (Status.Corruption "Bad table magic number", f).
Proof. eexists. vm_compute. reflexivity. Qed.

Lemma ReadFooterFromFile_reads_footer_witness :
  exists g,
    ReadFooterFromFile
      Sample.magic ReadSample.MAX_EXTENT_SIZE
      (reader_of (ReadSample.extent_of Sample.legacy_footer))
      ReadSample.MAX_EXTENT_SIZE (Footer_new 0 0) 0
    = Returned (Status.OK, g)
    /\ same_footer Sample.magic Legacy Sample.legacy_footer g.
Proof.
  apply (ReadFooterFromFile_reads_footer
           Sample.magic ReadSample.MAX_EXTENT_SIZE Legacy Sample.legacy_footer
           (reader_of (ReadSample.extent_of Sample.legacy_footer))
           ReadSample.MAX_EXTENT_SIZE (Footer_new 0 0) 0
           (repeat Byte.x00 17) Sample_magic_ok).
  - repeat split; vm_compute; congruence.
  - vm_compute. congruence.
  - vm_compute. reflexivity.
  - left. reflexivity.
Defined.

(** ** Blocks: compressing, writing and reading them back *)

Lemma unknown_type type :
  ~ In type known_types ->
  (type =? kSnappyCompression) = false /\ (type =? kZlibCompression) = false
  /\ (type =? kBZip2Compression) = false /\ (type =? kLZ4Compression) = false
  /\ (type =? kLZ4HCCompression) = false
  /\ (type =? kXpressCompression) = false
  /\ (type =? kZSTD) = false /\ (type =? kZSTDNotFinalCompression) = false.
Proof.
  intros H. unfold known_types in H. cbn [In] in H.
  repeat split; apply Z.eqb_neq; intros ->; apply H; tauto.
Qed.

(** X15.  [CompressBlock] never makes a block longer.  What it hands
    back is the raw block with the type [kNoCompression], or the
    output of the codec with the selected type, and then the output is
    shorter than the raw block by more than an eighth of it.  For a
    type that the [switch] does not know the block stays raw. *)
Theorem CompressBlock_never_grows L raw opts type fv dict :
  let out := fst (CompressBlock L raw opts type fv dict) in
  let type' := snd (CompressBlock L raw opts type fv dict) in
  size out <= size raw
  /\ ((type' = kNoCompression /\ out = raw)
      \/ (type' = type /\ In type known_types
          /\ codec_Compress L opts type fv raw dict = Some out
          /\ size out < size raw - size raw / 8)).
Proof.
  unfold CompressBlock.
  destruct (Z.eqb_spec type kNoCompression) as [->|Hno];
    [cbn; split; [lia|left; split; reflexivity]|].
  destruct (codec_Compress L opts type fv raw dict) as [compressed|] eqn:Hc;
    [|cbn; split; [lia|left; split; reflexivity]].
  unfold GoodCompressionRatio.
  destruct (Z.ltb_spec (size compressed) (size raw - size raw / 8)) as [Hlt|_];
    [|cbn; split; [lia|left; split; reflexivity]].
  cbn [fst snd].
  pose proof (size_nonneg raw) as Hraw.
  assert (0 <= size raw / 8) by (apply Z.div_pos; lia).
  split; [lia|]. right. repeat split; auto.
  destruct (in_dec Z.eq_dec type known_types) as [Hin|Hout]; [exact Hin|].
  exfalso. unfold codec_Compress in Hc.
  destruct (unknown_type type Hout) as (H1 & H2 & H3 & H4 & H5 & H6 & H7 & H8).
  rewrite H1, H2, H3, H4, H5, H6, H7, H8 in Hc. discriminate Hc.
Qed.

Lemma uncompressed_result name ubuf :
  let '(s, contents) := uncompressed name ubuf in
  (s = Status.OK /\ contents <> None /\ contents = ubuf)
  \/ (Status.IsCorruption s = true /\ contents = None /\ ubuf = None).
Proof.
  destruct ubuf as [b|]; cbn.
  - left. repeat split. discriminate.
  - right. repeat split.
Qed.

(** X16.  [UncompressBlockContentsForCompressionType] stores contents
    exactly when it returns OK.  Its other statuses are Corruption
    and, for Snappy only, MemoryLimit; a type outside the eight of the
    [switch], [kNoCompression] among them, gives Corruption with the
    message of a bad block type.  [unzip_data] gives a buffer exactly
    when its code is [kOk]. *)
Theorem Uncompress_result L data fv dict type :
  let s := fst (UncompressBlockContentsForCompressionType L data fv dict type) in
  let contents :=
    snd (UncompressBlockContentsForCompressionType L data fv dict type) in
  (Status.ok s = true <-> contents <> None)
  /\ (s = Status.OK \/ Status.IsCorruption s = true
      \/ (s = Status.MemoryLimit /\ type = kSnappyCompression))
  /\ (~ In type known_types -> s = Status.Corruption "bad block type")
  /\ (fst (unzip_data L data fv type) = Status.kOk
      <-> snd (unzip_data L data fv type) <> None).
Proof.
  assert (Hmain :
            forall dict,
              let s :=
                fst (UncompressBlockContentsForCompressionType
                       L data fv dict type) in
              let contents :=
                snd (UncompressBlockContentsForCompressionType
                       L data fv dict type) in
              (Status.ok s = true <-> contents <> None)
              /\ (s = Status.OK \/ Status.IsCorruption s = true
                  \/ (s = Status.MemoryLimit /\ type = kSnappyCompression))
              /\ (~ In type known_types ->
                  s = Status.Corruption "bad block type")).
  { clear dict. intros dict. unfold UncompressBlockContentsForCompressionType.
    assert (Hu : forall name ubuf,
               let s := fst (uncompressed name ubuf) in
               let contents := snd (uncompressed name ubuf) in
               (Status.ok s = true <-> contents <> None)
               /\ (s = Status.OK \/ Status.IsCorruption s = true
                   \/ (s = Status.MemoryLimit /\ type = kSnappyCompression))).
    { intros name [b|]; cbn; intuition (auto; try discriminate; try congruence). }
    assert (Hin : forall P : Prop, In type known_types ->
                                   ~ In type known_types -> P)
      by (intros P H1 H2; contradiction).
    destruct (Z.eqb_spec type kSnappyCompression) as [Es|Es].
    { assert (Hk : In type known_types) by (rewrite Es; cbn; auto).
      destruct (Snappy_GetUncompressedLength L data) as [ulength|].
      - destruct (base_malloc L ulength); cbn [negb].
        + destruct (Hu "Snappy"%string (Snappy_Uncompress L data ulength))
            as [H1 H2].
          split; [exact H1|]. split; [exact H2|]. apply Hin. exact Hk.
        + cbn. split; [|split; [|apply Hin; exact Hk]];
            intuition (auto; try discriminate; try congruence).
      - cbn. split; [|split; [|apply Hin; exact Hk]];
          intuition (auto; try discriminate; try congruence). }
    repeat match goal with
           | |- context [if (?t =? ?k) || (?t =? ?k') then _ else _] =>
               destruct (Z.eqb_spec t k) as [?E|?E];
               [|destruct (Z.eqb_spec t k') as [?E|?E]]; cbn [orb]
           | |- context [if ?t =? ?k then _ else _] =>
               destruct (Z.eqb_spec t k) as [?E|?E]
           end;
      try (match goal with
           | |- context [uncompressed ?name ?ubuf] =>
               destruct (Hu name ubuf) as [H1 H2];
               split; [exact H1|]; split; [exact H2|]; apply Hin;
               subst type; cbn; auto 10
           end).
    cbn. split; [|split]; intuition (auto; try discriminate; try congruence). }
  destruct (Hmain dict) as (H1 & H2 & H3).
  repeat split; try apply H1; auto.
  - unfold unzip_data. destruct (Hmain []) as (G1 & _).
    destruct (UncompressBlockContentsForCompressionType L data fv [] type)
      as [s c]. cbn [fst snd] in G1.
    destruct (Status.ok s) eqn:Hs; cbn [negb fst snd].
    + intros _. apply G1. reflexivity.
    + intros H. unfold Status.ok in Hs. rewrite H in Hs. discriminate Hs.
  - unfold unzip_data. destruct (Hmain []) as (G1 & _).
    destruct (UncompressBlockContentsForCompressionType L data fv [] type)
      as [s c]. cbn [fst snd] in G1.
    destruct (Status.ok s) eqn:Hs; cbn [negb fst snd].
    + intros _. reflexivity.
    + intros H. contradiction.
Qed.

Import RoundTripWording.

Lemma firstn_payload (contents : bytes) b rest :
  firstn (Z.to_nat (size contents + 1)) (contents ++ b :: rest)
  = contents ++ [b].
Proof.
  unfold size.
  replace (Z.to_nat (Z.of_nat (List.length contents) + 1))
    with (List.length contents + 1)%nat by lia.
  rewrite firstn_app_2. reflexivity.
Qed.

Lemma skipn_payload (contents : bytes) b rest :
  skipn (Z.to_nat (size contents + 1)) (contents ++ b :: rest) = rest.
Proof.
  unfold size.
  replace (Z.to_nat (Z.of_nat (List.length contents) + 1))
    with (List.length (contents ++ [b])) by (rewrite length_app; cbn; lia).
  replace (contents ++ b :: rest) with ((contents ++ [b]) ++ rest)
    by (rewrite <- app_assoc; reflexivity).
  rewrite skipn_app, skipn_all, Nat.sub_diag. reflexivity.
Qed.

(** The bytes that [WriteRawBlock] writes for a block pass
    [ReadBlock]. *)
Lemma ReadBlock_of_block L file footer options handle contents type :
  Checksum.Lib_ok L ->
  recognized_checksum (checksum_ footer) = true ->
  size_ handle = size contents ->
  size contents + kBlockTrailerSize < 2 ^ 64 ->
  (checksum_ footer = kxxHash -> size contents + 1 < 2 ^ 31) ->
  file (offset_ handle) (size contents + kBlockTrailerSize)
  = (Status.OK, contents ++ block_trailer L (checksum_ footer) contents type) ->
  ReadBlock L file footer options handle
  = Returned
      (Status.OK, contents ++ block_trailer L (checksum_ footer) contents type).
Proof.
  intros HL Hrec Hn Hsize Hxx Hfile.
  pose proof (size_nonneg contents) as H0.
  assert (Hlen : size (contents
                         ++ block_trailer L (checksum_ footer) contents type)
                 = size_ handle + kBlockTrailerSize)
    by (rewrite size_app, size_block_trailer, Hn; reflexivity).
  rewrite <- Hn in Hfile, Hsize, Hxx, H0.
  destruct (verify_checksums options) eqn:Hv.
  - rewrite (ReadBlock_verified L file footer options handle Status.OK _
                                Hfile eq_refl H0 Hsize Hlen Hv Hrec Hxx).
    unfold payload_of, stored_checksum, block_trailer.
    rewrite Hn, skipn_payload, firstn_payload.
    pose proof (block_checksum_range L (checksum_ footer)
                  (contents ++ [byte.of_Z type])) as Hrange.
    pose proof (DecodeFixed32_EncodeFixed32
                  (block_checksum L (checksum_ footer)
                                  (contents ++ [byte.of_Z type])) []) as Hdec.
    rewrite app_nil_r, (Z.mod_small _ _ Hrange) in Hdec. rewrite Hdec.
    unfold recomputed_checksum, block_checksum.
    unfold recognized_checksum in Hrec.
    destruct (Z.eqb_spec (checksum_ footer) kCRC32c) as [Ec|Ec].
    + rewrite Ec. change (kCRC32c =? kxxHash) with false.
      change (kCRC32c =? kCRC32c) with true. cbv iota.
      rewrite (Unmask_Mask L HL) by (apply Z.mod_pos_bound; reflexivity).
      rewrite Z.eqb_refl. reflexivity.
    + cbn [orb] in Hrec. rewrite Hrec, Z.eqb_refl. reflexivity.
  - unfold ReadBlock.
    rewrite (wrap64_small (size_ handle + kBlockTrailerSize))
      by (unfold kBlockTrailerSize in *; lia).
    rewrite Hfile. cbn [Status.ok Status.OK Status.code negb].
    rewrite Hlen, Z.eqb_refl, Hv. reflexivity.
Qed.

(** X17.  What [WriteRawBlock] puts behind a block is what [ReadBlock]
    checks: a file that gives the contents and the trailer of the
    block for its handle passes [ReadBlock] with the checksums
    verified, for CRC32C as for xxHash, and the bytes come back as
    they are.  The block and its trailer do not go beyond [size_t],
    and with the 32-bit hash the block and its type byte fit an
    [int], which is the length that [ReadBlock] hashes. *)
Theorem ReadBlock_accepts_written_block L file footer handle contents type :
  Checksum.Lib_ok L ->
  recognized_checksum (checksum_ footer) = true ->
  size_ handle = size contents ->
  size contents + kBlockTrailerSize < 2 ^ 64 ->
  (checksum_ footer = kxxHash -> size contents + 1 <= INT_MAX) ->
  file (offset_ handle) (size contents + kBlockTrailerSize)
  = (Status.OK, contents ++ block_trailer L (checksum_ footer) contents type) ->
  ReadBlock L file footer
            {| verify_checksums := true; fill_cache := false |} handle
  = Returned
      (Status.OK, contents ++ block_trailer L (checksum_ footer) contents type).
Proof.
  intros HL Hrec Hn Hsize Hxx. apply ReadBlock_of_block; try assumption.
  intros Hx. specialize (Hxx Hx). unfold INT_MAX in Hxx. lia.
Qed.





Section ReadingBack.
Variable E : Env.
Hypothesis cksum_ok : Checksum.Lib_ok (cksum E).






End ReadingBack.

Lemma ReadBlock_accepts_written_block_witness :
  let footer :=
    mkFooter 2 0 0 kxxHash BlockHandle_new BlockHandle_new
             kBlockBasedTableMagicNumber in
  let block :=
    Sample.sixteen
      ++ block_trailer Sample.checksums (checksum_ footer) Sample.sixteen
                       kSnappyCompression in
  ReadBlock Sample.checksums (reader_of block) footer
            {| verify_checksums := true; fill_cache := false |}
            (mkBlockHandle 0 16)
  = Returned (Status.OK, block).
Proof.
  apply (ReadBlock_accepts_written_block
           Sample.checksums
           (reader_of
              (Sample.sixteen
                 ++ block_trailer Sample.checksums kxxHash Sample.sixteen
                                  kSnappyCompression))
           (mkFooter 2 0 0 kxxHash BlockHandle_new BlockHandle_new
                     kBlockBasedTableMagicNumber)
           (mkBlockHandle 0 16) Sample.sixteen kSnappyCompression
           Sample_checksums_ok).
  - reflexivity.
  - reflexivity.
  - vm_compute. reflexivity.
  - intros _. vm_compute. congruence.
  - vm_compute. reflexivity.
Defined.



(** The block of the witness is stored compressed: two bytes and the
    trailer. *)
Example WriteBlock_stores_sixteen_compressed :
  let r :=
    Sample.builder Builder.kBinarySearch 2 kCRC32c true kSnappyCompression [] in
  size_ (snd (WriteBlock Sample.env r Sample.sixteen true)) = 2
  /\ size (written (file (fst (WriteBlock Sample.env r Sample.sixteen true))))
     = 7.
Proof. vm_compute. split; reflexivity. Qed.

(** ** Invariants of the builder *)

Import BuilderWording.

Lemma Append_written f data s f' :
  Append f data = (s, f') ->
  written f' = if Status.ok s then written f ++ data else written f.
Proof.
  unfold Append. destruct (faults f) as [|s0 rest].
  - intros H. inversion H. reflexivity.
  - destruct (Status.ok s0) eqn:Hs; intros H; inversion H; subst;
      rewrite Hs; reflexivity.
Qed.

Lemma size_trailer_checksum E algorithm contents trailer0 :
  size (trailer_checksum E algorithm contents trailer0) = 4.
Proof.
  unfold trailer_checksum.
  destruct (_ || _); [apply size_EncodeFixed32|].
  destruct (_ =? _); [apply size_EncodeFixed32|reflexivity].
Qed.

Lemma wrap64_add_l a b : wrap64 (wrap64 a + b) = wrap64 (a + b).
Proof. unfold wrap64. apply Zplus_mod_idemp_l. Qed.

Section Counting.
Variable E : Env.

Lemma InsertBlockInCache_io r c t h s r' :
  InsertBlockInCache E r c t h = (s, r') ->
  file r' = file r /\ offset r' = offset r /\ props r' = props r
  /\ data_block r' = data_block r.
Proof.
  unfold InsertBlockInCache. intros H.
  break_in H; inversion H; subst; repeat split.
Qed.

(** [WriteRawBlock], step by step: the statuses of the two appends and
    of the copy into the cache. *)
Lemma WriteRawBlock_steps r c t :
  let r' := fst (WriteRawBlock E r c t) in
  props r' = props r /\ data_block r' = data_block r
  /\ (ok r' = true ->
      written (file r')
      = written (file r) ++ c
        ++ byte.of_Z t
           :: trailer_checksum E (checksum (table_options r)) c (byte.of_Z t)
      /\ offset r' = wrap64 (offset r + size c + kBlockTrailerSize)).
Proof.
  unfold WriteRawBlock.
  destruct (Append (file r) c) as [s1 f1] eqn:A1.
  apply Append_written in A1.
  cbn [status set_status set_file file table_options offset].
  destruct (Status.ok s1) eqn:Hs1.
  2:{ cbn [fst]. unfold ok. cbn [status set_status set_file props data_block].
      rewrite Hs1. split; [reflexivity|split; [reflexivity|discriminate]]. }
  destruct (Append f1 _) as [s2 f2] eqn:A2.
  apply Append_written in A2.
  cbn [status set_status set_file file table_options offset].
  destruct (Status.ok s2) eqn:Hs2.
  2:{ cbn [fst]. unfold ok.
      cbn [status set_status set_file props data_block set_offset].
      rewrite Hs2. cbn [fst status set_status set_file props data_block].
      rewrite ?Hs2. split; [reflexivity|split; [reflexivity|discriminate]]. }
  destruct (InsertBlockInCache E _ c t _) as [s3 r3] eqn:A3.
  apply InsertBlockInCache_io in A3. destruct A3 as (Hf3 & Ho3 & Hp3 & Hd3).
  cbn [status set_status set_file file table_options offset props data_block]
    in Hf3, Ho3, Hp3, Hd3.
  cbn [status set_status].
  destruct (Status.ok s3) eqn:Hs3; cbn [fst]; unfold ok;
    cbn [status set_status set_offset file offset props data_block];
    rewrite ?Hs3, ?Hf3, ?Ho3, ?Hp3, ?Hd3; cbn [file set_file written];
    (split; [reflexivity|split; [reflexivity|]]).
  - intros _. rewrite A2, A1, <- app_assoc. split; reflexivity.
  - discriminate.
Qed.

Lemma WriteRawBlock_counted r c t :
  counted r -> ok (fst (WriteRawBlock E r c t)) = true ->
  counted (fst (WriteRawBlock E r c t)).
Proof.
  unfold counted. intros Hr Hok.
  destruct (WriteRawBlock_steps r c t) as (_ & _ & H).
  destruct (H Hok) as [Hw Ho]. rewrite Ho, Hw, Hr.
  rewrite !size_app.
  assert (Hs : size (byte.of_Z t
                       :: trailer_checksum E (checksum (table_options r)) c
                                           (byte.of_Z t)) = 5).
  { pose proof (size_trailer_checksum E (checksum (table_options r)) c
                                      (byte.of_Z t)) as H4.
    unfold size in *. cbn [List.length]. lia. }
  rewrite Hs. unfold kBlockTrailerSize.
  rewrite <- Z.add_assoc, wrap64_add_l. reflexivity.
Qed.

Lemma WriteBlock_steps r raw d r' h :
  WriteBlock E r raw d = (r', h) ->
  props r' = props r /\ data_block r' = data_block r
  /\ (counted r -> ok r' = true -> counted r').
Proof.
  unfold WriteBlock. intros H. break_hyps; invert_pairs;
    match goal with
    | Hw : WriteRawBlock E ?r0 ?c ?t = (?r1, _) |- _ =>
        pose proof (WriteRawBlock_steps r0 c t) as Hsteps;
        pose proof (WriteRawBlock_counted r0 c t) as Hcount;
        rewrite Hw in Hsteps, Hcount; cbn [fst] in Hsteps, Hcount;
        destruct Hsteps as (Hp & Hd & _)
    end;
    cbn [props data_block set_status set_compressed_output] in *;
    (split; [exact Hp|split; [exact Hd|]]);
    intros Hr Hok; unfold counted, ok in *;
    cbn [offset file status set_status set_compressed_output] in *;
    apply Hcount; assumption.
Qed.

Lemma Flush_counted r :
  counted r -> ok (Flush E r) = true -> counted (Flush E r).
Proof.
  intros Hr. unfold Flush.
  destruct (ok r); cbn [negb]; [|intros _; exact Hr].
  destruct (BlockBuilder_empty (data_block r)); [intros _; exact Hr|].
  destruct (WriteBlock E r _ true) as [r1 h1] eqn:Ew.
  apply WriteBlock_steps in Ew. destruct Ew as (_ & _ & Hc).
  destruct (filter_builder _); unfold counted, ok in *; cbn; intros Hok;
    apply Hc; assumption.
Qed.

(** What [Add] leaves of the file, the offset and the status: what
    they were, or what [Flush] made of them. *)
Lemma Add_io r k v :
  let r' := snd (Add E r k v) in
  exists r1,
    file r1 = file r /\ offset r1 = offset r /\ status r1 = status r
    /\ ((file r' = file r1 /\ offset r' = offset r1 /\ status r' = status r1)
        \/ (file r' = file (Flush E r1) /\ offset r' = offset (Flush E r1)
            /\ status r' = status (Flush E r1))).
Proof.
  unfold Add. repeat break_match; cbn;
    first [ exists r; cbn; solve [auto 10]
          | exists (set_first_key r k); cbn; solve [auto 10] ].
Qed.

Lemma built_counted r0 r :
  built E r0 r ->
  (ok r0 = true -> counted r0) -> ok r = true -> counted r.
Proof.
  induction 1 as [|r k v _ IH|r _ IH]; intros H0; [exact H0| |].
  - specialize (IH H0). intros Hok.
    destruct (ok r) eqn:Hr.
    + specialize (IH eq_refl).
      destruct (Add_io r k v)
        as (r1 & Hf1 & Ho1 & Hs1 & [(Hf & Ho & Hs)|(Hf & Ho & Hs)]);
        unfold counted, ok in *.
      * rewrite Hf, Ho, Hf1, Ho1. exact IH.
      * rewrite Hf, Ho. apply (Flush_counted r1).
        -- unfold counted. rewrite Hf1, Ho1. exact IH.
        -- unfold ok. rewrite <- Hs. exact Hok.
    + rewrite (Add_latched E r k v Hr) in Hok. cbn in Hok. congruence.
  - specialize (IH H0). intros Hok.
    destruct (ok r) eqn:Hr.
    + apply Flush_counted; [apply IH; reflexivity|exact Hok].
    + rewrite (Flush_latched E r Hr) in Hok. congruence.
Qed.

End Counting.

(** X20.  As long as the status of the builder is OK, [FileSize()] is
    the number of bytes that are in the file, as a 64-bit number: for
    every builder that the constructor and any calls of [Add] and
    [Flush] lead to, whatever the appends and the copies into the
    compressed block cache did before. *)
Theorem FileSize_counts_written
        E ioptions topt cf_id f ctype copts cdict skip_filters cf_name cache r :
  written f = [] ->
  built E (BlockBasedTableBuilder_new ioptions topt cf_id f ctype copts cdict
                                      skip_filters cf_name cache) r ->
  ok r = true ->
  FileSize r = wrap64 (size (written (file r))).
Proof.
  intros Hf Hb Hok. apply (built_counted E _ r Hb); [|exact Hok].
  intros _. unfold counted. cbn. rewrite Hf. reflexivity.
Qed.

Lemma FileSize_counts_written_witness :
  FileSize (Sample.five_keys Builder.kBinarySearch [])
  = wrap64 (size (written (file (Sample.five_keys Builder.kBinarySearch [])))).
Proof.
  apply (FileSize_counts_written
           Sample.env Sample.ioptions
           (Sample.table_options Builder.kBinarySearch 2 kCRC32c false)
           0 (mkFile [] []) kNoCompression Sample.compression_options None
           true "default"%string None).
  - reflexivity.
  - unfold Sample.five_keys, Sample.add. repeat apply built_Add.
    apply built_new.
  - vm_compute. reflexivity.
Defined.

Section BuilderCalls.
Variable E : Env.

Lemma built_latched r0 r : built E r0 r -> ok r0 = false -> r = r0.
Proof.
  induction 1 as [|r k v _ IH|r _ IH]; intros H0; [reflexivity| |].
  - specialize (IH H0). subst r. rewrite (Add_latched E r0 k v H0).
    reflexivity.
  - specialize (IH H0). subst r. apply (Flush_latched E r0 H0).
Qed.

(** X21.  A status that is not OK stays: from a builder whose status is
    not OK, no sequence of calls of [Add] and [Flush] changes anything
    of the builder, and with the flat or the partitioned index a
    [Finish] after them writes nothing, leaves the status and returns
    its code. *)
Theorem failed_builder_is_inert r0 r :
  built E r0 r ->
  ok r0 = false ->
  r = r0
  /\ ((forall b, index_builder r0 <> Hashed b) ->
      untouched r0 (snd (Finish E r))
      /\ fst (Finish E r) = Status.code (status r0)).
Proof.
  intros Hb H0. pose proof (built_latched r0 r Hb H0) as ->.
  split; [reflexivity|]. intros Hnot. apply Finish_latched; assumption.
Qed.

Lemma Flush_empty r :
  BlockBuilder_empty (data_block r) = true -> Flush E r = r.
Proof.
  intros H. unfold Flush. rewrite H. destruct (negb (ok r)); reflexivity.
Qed.

Lemma Flush_data_block r :
  Flush E r = r \/ data_block (Flush E r) = BlockBuilder_Reset.
Proof.
  unfold Flush. destruct (negb (ok r)); [left; reflexivity|].
  destruct (BlockBuilder_empty (data_block r)); [left; reflexivity|].
  right. destruct (WriteBlock E r _ true) as [r1 h1].
  destruct (filter_builder _); reflexivity.
Qed.

(** X22.  [Flush] is idempotent: a second [Flush] right after a first
    one finds the data block empty or the status not OK and does
    nothing, whether the write of the first one succeeded or not. *)
Theorem Flush_idempotent r : Flush E (Flush E r) = Flush E r.
Proof.
  destruct (Flush_data_block r) as [H|H].
  - rewrite H. exact H.
  - apply Flush_empty. rewrite H. reflexivity.
Qed.

Lemma Flush_props r :
  num_entries (props (Flush E r)) = num_entries (props r)
  /\ raw_key_size (props (Flush E r)) = raw_key_size (props r)
  /\ raw_value_size (props (Flush E r)) = raw_value_size (props r).
Proof.
  unfold Flush. destruct (negb (ok r)); [auto|].
  destruct (BlockBuilder_empty (data_block r)); [auto|].
  destruct (WriteBlock E r _ true) as [r1 h1] eqn:Ew.
  apply WriteBlock_steps in Ew. destruct Ew as (Hp & _).
  destruct (filter_builder _); cbn; rewrite Hp; auto.
Qed.

Lemma Flush_first_key_props r k :
  num_entries (props (Flush E (set_first_key r k))) = num_entries (props r)
  /\ raw_key_size (props (Flush E (set_first_key r k))) = raw_key_size (props r)
  /\ raw_value_size (props (Flush E (set_first_key r k)))
     = raw_value_size (props r).
Proof. apply (Flush_props (set_first_key r k)). Qed.

(** X23.  On a builder whose status is OK, [Add] returns [kOk] for
    every key, also when the [Flush] that it started failed: the
    failure shows in the status only.  A key of a value type is then
    the last key and the last entry of the data block, a range
    deletion is the last entry of the range deletion block, and both
    count in the three counters of the properties; a key of any other
    type is dropped without a trace. *)
Theorem Add_counts r k v :
  ok r = true ->
  let value_type := ExtractValueType (lib E) k in
  let r' := snd (Add E r k v) in
  fst (Add E r k v) = Status.kOk
  /\ (IsValueType (lib E) value_type = true ->
      NumEntries r' = wrap64 (NumEntries r + 1)
      /\ raw_key_size (props r') = wrap64 (raw_key_size (props r) + size k)
      /\ raw_value_size (props r')
         = wrap64 (raw_value_size (props r) + size v)
      /\ last_key r' = k
      /\ exists b, data_block r' = b ++ [(k, v)])
  /\ (IsValueType (lib E) value_type = false ->
      value_type = kTypeRangeDeletion (lib E) ->
      NumEntries r' = wrap64 (NumEntries r + 1)
      /\ raw_key_size (props r') = wrap64 (raw_key_size (props r) + size k)
      /\ raw_value_size (props r')
         = wrap64 (raw_value_size (props r) + size v)
      /\ range_del_block r' = range_del_block r ++ [(k, v)]
      /\ data_block r' = data_block r /\ file r' = file r)
  /\ (IsValueType (lib E) value_type = false ->
      value_type <> kTypeRangeDeletion (lib E) ->
      r' = r).
Proof.
  intros Hok. cbv zeta.
  pose proof (Flush_props r) as (F1 & F2 & F3).
  pose proof (Flush_first_key_props r k) as (G1 & G2 & G3).
  unfold Add. rewrite Hok. cbn [negb].
  destruct (IsValueType (lib E) (ExtractValueType (lib E) k)) eqn:Hv.
  - split; [reflexivity|].
    split; [|split; intros H; discriminate H].
    intros _. unfold NumEntries, count_entry, NotifyCollectTableCollectorsOnAdd,
      BlockBuilder_Add.
    repeat break_match; cbn;
      rewrite ?F1, ?F2, ?F3, ?G1, ?G2, ?G3;
      (repeat split; try reflexivity); eexists; reflexivity.
  - destruct (Z.eqb_spec (ExtractValueType (lib E) k)
                         (kTypeRangeDeletion (lib E))) as [Hd|Hd].
    + split; [reflexivity|]. split; [intros H; discriminate H|].
      split; [|intros _ H; contradiction].
      intros _ _. unfold NumEntries, count_entry,
        NotifyCollectTableCollectorsOnAdd, BlockBuilder_Add.
      cbn. repeat split.
    + split; [reflexivity|]. split; [intros H; discriminate H|].
      split; [intros _ H; contradiction|]. intros _ _. reflexivity.
Qed.

(** X24.  [WriteRawBlock] after a failed append.  When the append of
    the contents fails, the status is the one of the append and the
    trailer is not written; when the append of the trailer fails, the
    contents stay in the file.  In both cases the offset stands still,
    and the handle has been filled in all the same. *)
Theorem WriteRawBlock_failed_append r contents type s1 s2 rest :
  Status.ok s1 = false ->
  Status.ok s2 = true ->
  (faults (file r) = s1 :: rest ->
   let r' := fst (WriteRawBlock E r contents type) in
   status r' = s1 /\ file r' = mkFile (written (file r)) rest
   /\ offset r' = offset r
   /\ snd (WriteRawBlock E r contents type)
      = mkBlockHandle (offset r) (size contents))
  /\ (faults (file r) = s2 :: s1 :: rest ->
      let r' := fst (WriteRawBlock E r contents type) in
      status r' = s1
      /\ file r' = mkFile (written (file r) ++ contents) rest
      /\ offset r' = offset r
      /\ snd (WriteRawBlock E r contents type)
         = mkBlockHandle (offset r) (size contents)).
Proof.
  intros H1 H2. split; intros Hf; unfold WriteRawBlock, Append; rewrite Hf.
  - rewrite H1. cbn [status set_status set_file]. rewrite H1. cbn.
    repeat split.
  - rewrite H2. cbn [status set_status set_file file faults]. rewrite H2, H1.
    cbn [status set_status set_file file faults]. rewrite H1. cbn.
    rewrite !H1. repeat split.
Qed.

Lemma WriteFooter_table_options r mh ih :
  table_options (WriteFooter E r mh ih) = table_options r.
Proof.
  unfold WriteFooter. destruct (Append _ _) as [s f].
  destruct (Status.ok _); reflexivity.
Qed.

(** X25.  No call changes the table options of a builder: after any
    calls of [Add] and [Flush] and after [Finish] they are the ones
    that the constructor stored, with the format version that it
    sanitised. *)
Theorem table_options_are_constant
        ioptions topt cf_id f ctype copts cdict skip_filters cf_name cache r :
  let r0 :=
    BlockBasedTableBuilder_new ioptions topt cf_id f ctype copts cdict
                               skip_filters cf_name cache in
  built E r0 r ->
  table_options r = sanitized_table_options topt
  /\ table_options (snd (Finish E r)) = sanitized_table_options topt.
Proof.
  intros r0 Hb. apply built_table_options in Hb.
  split; [rewrite Hb; reflexivity|].
  unfold Finish, Finish_traced.
  destruct (Finish_blocks E r) as [[[[ret r1] mh] ih] statuses] eqn:HF.
  apply Finish_blocks_table_options in HF.
  destruct ret as [c|]; cbn [snd].
  - rewrite HF, Hb. reflexivity.
  - destruct (ok r1); rewrite ?WriteFooter_table_options, HF, Hb; reflexivity.
Qed.

End BuilderCalls.

Lemma failed_builder_is_inert_witness :
  let r0 := Sample.flat_index_first_append_fails in
  let r := Flush Sample.env (Sample.add "d" "4" r0) in
  status r0 = Status.IOError "append"
  /\ r = r0
  /\ untouched r0 (snd (Finish Sample.env r))
  /\ fst (Finish Sample.env r) = Status.kIOError.
Proof.
  intros r0 r.
  destruct (failed_builder_is_inert Sample.env r0 r) as (Hr & HFinish).
  - apply built_Flush. unfold Sample.add. apply built_Add. apply built_new.
  - vm_compute. reflexivity.
  - destruct HFinish as (Huntouched & Hcode).
    + intros b Hb. vm_compute in Hb. discriminate Hb.
    + split; [vm_compute; reflexivity|]. split; [exact Hr|].
      split; [exact Huntouched|]. rewrite Hcode. vm_compute. reflexivity.
Defined.

Lemma Add_counts_witness :
  let r :=
    Sample.add "b" "2"
      (Sample.add "a" "1"
         (Sample.builder Builder.kBinarySearch 2 kCRC32c false kNoCompression
                         [Status.IOError "append"])) in
  let k := Sample.put_key "c" in
  let v := Sample.bytes_of_string "3" in
  let value_type := ExtractValueType (lib Sample.env) k in
  let r' := snd (Add Sample.env r k v) in
  fst (Add Sample.env r k v) = Status.kOk
  /\ (IsValueType (lib Sample.env) value_type = true ->
      NumEntries r' = wrap64 (NumEntries r + 1)
      /\ raw_key_size (props r') = wrap64 (raw_key_size (props r) + size k)
      /\ raw_value_size (props r')
         = wrap64 (raw_value_size (props r) + size v)
      /\ last_key r' = k
      /\ exists b, data_block r' = b ++ [(k, v)])
  /\ (IsValueType (lib Sample.env) value_type = false ->
      value_type = kTypeRangeDeletion (lib Sample.env) ->
      NumEntries r' = wrap64 (NumEntries r + 1)
      /\ raw_key_size (props r') = wrap64 (raw_key_size (props r) + size k)
      /\ raw_value_size (props r')
         = wrap64 (raw_value_size (props r) + size v)
      /\ range_del_block r' = range_del_block r ++ [(k, v)]
      /\ data_block r' = data_block r /\ file r' = file r)
  /\ (IsValueType (lib Sample.env) value_type = false ->
      value_type <> kTypeRangeDeletion (lib Sample.env) ->
      r' = r).
Proof.
  apply (Add_counts
           Sample.env
           (Sample.add "b" "2"
              (Sample.add "a" "1"
                 (Sample.builder Builder.kBinarySearch 2 kCRC32c false
                                 kNoCompression [Status.IOError "append"])))).
  vm_compute. reflexivity.
Defined.

(** In the witness the [Flush] that [Add] starts fails: [Add] returns
    [kOk] and the status of the builder is the IOError. *)
Example Add_returns_kOk_after_a_failed_Flush :
  let r :=
    Sample.add "b" "2"
      (Sample.add "a" "1"
         (Sample.builder Builder.kBinarySearch 2 kCRC32c false kNoCompression
                         [Status.IOError "append"])) in
  ok r = true
  /\ fst (Add Sample.env r (Sample.put_key "c") (Sample.bytes_of_string "3"))
     = Status.kOk
  /\ status (snd (Add Sample.env r (Sample.put_key "c")
                      (Sample.bytes_of_string "3")))
     = Status.IOError "append".
Proof. vm_compute. repeat split. Qed.

Lemma WriteRawBlock_failed_append_witness :
  let r :=
    Sample.builder Builder.kBinarySearch 2 kCRC32c false kNoCompression
                   [Status.OK; Status.IOError "append"] in
  let r' := fst (WriteRawBlock Sample.env r Sample.sixteen kNoCompression) in
  status r' = Status.IOError "append"
  /\ file r' = mkFile (written (file r) ++ Sample.sixteen) []
  /\ offset r' = offset r
  /\ snd (WriteRawBlock Sample.env r Sample.sixteen kNoCompression)
     = mkBlockHandle (offset r) (size Sample.sixteen).
Proof.
  refine (proj2 (WriteRawBlock_failed_append
                   Sample.env
                   (Sample.builder Builder.kBinarySearch 2 kCRC32c false
                                   kNoCompression
                                   [Status.OK; Status.IOError "append"])
                   Sample.sixteen kNoCompression
                   (Status.IOError "append") Status.OK [] _ _) _);
    reflexivity.
Defined.

Lemma table_options_are_constant_witness :
  let r := Sample.five_keys Builder.kTwoLevelIndexSearch [] in
  table_options r
  = sanitized_table_options
      (Sample.table_options Builder.kTwoLevelIndexSearch 2 kCRC32c false)
  /\ table_options (snd (Finish Sample.env r))
     = sanitized_table_options
         (Sample.table_options Builder.kTwoLevelIndexSearch 2 kCRC32c false).
Proof.
  apply (table_options_are_constant
           Sample.env Sample.ioptions
           (Sample.table_options Builder.kTwoLevelIndexSearch 2 kCRC32c false)
           0 (mkFile [] []) kNoCompression Sample.compression_options None
           true "default"%string None).
  unfold Sample.five_keys, Sample.add. repeat apply built_Add. apply built_new.
Defined.

(** ** The file of a builder only grows *)

Lemma grows_refl w o : grows w o w o.
Proof. split; [exists []; symmetry; apply app_nil_r|auto]. Qed.

Lemma grows_trans w1 o1 w2 o2 w3 o3 :
  grows w1 o1 w2 o2 -> grows w2 o2 w3 o3 -> grows w1 o1 w3 o3.
Proof.
  intros [[m1 H1] O1] [[m2 H2] O2]. split; [|auto].
  exists (m1 ++ m2). rewrite H2, H1, app_assoc. reflexivity.
Qed.

Lemma uint64_wrap64 z : uint64 (wrap64 z).
Proof. apply Z.mod_pos_bound. reflexivity. Qed.

Lemma Append_prefix f data s f' :
  Append f data = (s, f') -> prefix_of (written f) (written f').
Proof.
  intros H. apply Append_written in H. rewrite H.
  destruct (Status.ok s); [exists data|exists []; rewrite app_nil_r];
    reflexivity.
Qed.

Ltac chain_grows :=
  repeat match goal with
    | H : grows ?w ?o ?w1 ?o1 |- grows ?w ?o _ _ =>
        apply (grows_trans _ _ _ _ _ _ H); clear H
    end;
  try apply grows_refl.

Section Growing.
Variable E : Env.

Lemma WriteRawBlock_grows r c t r' h :
  WriteRawBlock E r c t = (r', h) ->
  grows (written (file r)) (offset r) (written (file r')) (offset r').
Proof.
  unfold WriteRawBlock.
  destruct (Append (file r) c) as [s1 f1] eqn:A1.
  apply Append_prefix in A1.
  cbn [status set_status set_file file table_options offset].
  destruct (Status.ok s1).
  2:{ intros H. inversion H; subst. cbn. split; [exact A1|auto]. }
  destruct (Append f1 _) as [s2 f2] eqn:A2.
  apply Append_prefix in A2.
  assert (A12 : prefix_of (written (file r)) (written f2)).
  { destruct A1 as [m1 H1]. destruct A2 as [m2 H2].
    exists (m1 ++ m2). rewrite H2, H1, app_assoc. reflexivity. }
  cbn [status set_status set_file file table_options offset].
  destruct (Status.ok s2).
  2:{ intros H. inversion H; subst. cbn.
      destruct (Status.ok s2); cbn; (split; [exact A12|auto]);
        intros _; apply uint64_wrap64. }
  destruct (InsertBlockInCache E _ c t _) as [s3 r3] eqn:A3.
  apply InsertBlockInCache_io in A3. destruct A3 as (Hf3 & Ho3 & _ & _).
  cbn [status set_status set_file file offset] in Hf3, Ho3.
  cbn [status set_status].
  intros H. inversion H; subst. clear H.
  destruct (Status.ok s3);
    cbn [file offset set_offset set_status]; rewrite ?Hf3, ?Ho3;
    cbn [written]; (split; [exact A12|]); intros Hu;
    [apply uint64_wrap64|exact Hu].
Qed.

Lemma WriteBlock_grows r raw d r' h :
  WriteBlock E r raw d = (r', h) ->
  grows (written (file r)) (offset r) (written (file r')) (offset r').
Proof.
  unfold WriteBlock. intros H. break_hyps; invert_pairs;
    match goal with
    | Hw : WriteRawBlock E _ _ _ = _ |- _ =>
        apply WriteRawBlock_grows in Hw; cbn in Hw
    end; cbn; assumption.
Qed.

Lemma Flush_grows r :
  grows (written (file r)) (offset r)
        (written (file (Flush E r))) (offset (Flush E r)).
Proof.
  unfold Flush. destruct (negb (ok r)); [apply grows_refl|].
  destruct (BlockBuilder_empty (data_block r)); [apply grows_refl|].
  destruct (WriteBlock E r _ true) as [r1 h1] eqn:Ew.
  apply WriteBlock_grows in Ew.
  destruct (filter_builder _); cbn; exact Ew.
Qed.

Lemma Add_grows r k v :
  grows (written (file r)) (offset r)
        (written (file (snd (Add E r k v)))) (offset (snd (Add E r k v))).
Proof.
  destruct (Add_io E r k v)
    as (r1 & Hf1 & Ho1 & _ & [(Hf & Ho & _)|(Hf & Ho & _)]);
    rewrite Hf, Ho.
  - rewrite Hf1, Ho1. apply grows_refl.
  - rewrite <- Hf1, <- Ho1. apply Flush_grows.
Qed.

Lemma built_grows r0 r :
  built E r0 r ->
  grows (written (file r0)) (offset r0) (written (file r)) (offset r).
Proof.
  induction 1 as [|r k v _ IH|r _ IH]; [apply grows_refl| |];
    (eapply grows_trans; [exact IH|]); [apply Add_grows|apply Flush_grows].
Qed.

Lemma WriteFilterBlocks_grows rounds : forall r fb h r' h',
  WriteFilterBlocks E rounds r fb h = (r', h') ->
  grows (written (file r)) (offset r) (written (file r')) (offset r').
Proof.
  induction rounds as [|rounds IH]; intros r fb h r' h' H;
    cbn [WriteFilterBlocks] in H.
  - inversion H; subst. apply grows_refl.
  - destruct (FilterBlockBuilder_Finish E fb h) as [[content s] fb'].
    destruct (WriteRawBlock E _ content kNoCompression) as [r1 h1] eqn:Ew.
    apply WriteRawBlock_grows in Ew. cbn in Ew.
    destruct (Status.IsIncomplete s).
    + apply IH in H. eapply grows_trans; eassumption.
    + inversion H; subst. cbn. exact Ew.
Qed.

Lemma WriteMetaBlocks_grows items : forall r m r' m',
  WriteMetaBlocks E r items m = (r', m') ->
  grows (written (file r)) (offset r) (written (file r')) (offset r').
Proof.
  induction items as [|item items IH]; intros r m r' m' H;
    cbn [WriteMetaBlocks] in H.
  - inversion H; subst. apply grows_refl.
  - destruct (WriteBlock E r (snd item) false) as [r1 h1] eqn:Ew.
    apply WriteBlock_grows in Ew. apply IH in H.
    eapply grows_trans; eassumption.
Qed.

Lemma WriteIndexPartitions_grows rounds :
  forall r blocks h s ret r' h' statuses,
    WriteIndexPartitions E rounds r blocks h s = (ret, r', h', statuses) ->
    grows (written (file r)) (offset r) (written (file r')) (offset r').
Proof.
  induction rounds as [|rounds IH]; intros r blocks h s ret r' h' statuses H;
    cbn [WriteIndexPartitions] in H.
  - inversion H; subst. apply grows_refl.
  - destruct (Status.IsIncomplete s);
      [|inversion H; subst; apply grows_refl].
    destruct (IndexBuilder_Finish E (index_builder r) blocks h)
      as [[s1 blocks1] ib1].
    destruct (negb (Status.ok s1) && negb (Status.IsIncomplete s1)).
    + inversion H; subst. apply grows_refl.
    + destruct (WriteBlock E _ (index_block_contents blocks1) false)
        as [r1 h1] eqn:Ew.
      apply WriteBlock_grows in Ew. cbn in Ew.
      destruct (WriteIndexPartitions E rounds r1 blocks1 h1 s1)
        as [[[ret2 r2] h2] st2] eqn:El.
      apply IH in El. inversion H; subst.
      eapply grows_trans; eassumption.
Qed.

Ltac use_grows :=
  repeat match goal with
    | Hw : WriteRawBlock E _ _ _ = _ |- _ =>
        apply WriteRawBlock_grows in Hw; cbn in Hw
    | Hw : WriteBlock E _ _ _ = _ |- _ =>
        apply WriteBlock_grows in Hw; cbn in Hw
    | Hw : WriteFilterBlocks E _ _ _ _ = _ |- _ =>
        apply WriteFilterBlocks_grows in Hw; cbn in Hw
    | Hw : WriteMetaBlocks E _ _ _ = _ |- _ =>
        apply WriteMetaBlocks_grows in Hw; cbn in Hw
    | Hw : WriteIndexPartitions E _ _ _ _ _ = _ |- _ =>
        apply WriteIndexPartitions_grows in Hw; cbn in Hw
    end.

Lemma Finish_data_grows r :
  grows (written (file r)) (offset r)
        (written (file (Finish_data E r))) (offset (Finish_data E r)).
Proof.
  unfold Finish_data. repeat break_match; cbn; apply Flush_grows.
Qed.

Lemma Finish_filter_grows r r' h :
  Finish_filter E r = (r', h) ->
  grows (written (file r)) (offset r) (written (file r')) (offset r').
Proof.
  unfold Finish_filter. intros H.
  break_hyps; invert_pairs; use_grows; chain_grows.
Qed.

Lemma Finish_meta_grows r blocks fh r' m :
  Finish_meta E r blocks fh = (r', m) ->
  grows (written (file r)) (offset r) (written (file r')) (offset r').
Proof.
  unfold Finish_meta. intros H.
  break_hyps; invert_pairs; use_grows; chain_grows.
Qed.

Lemma Finish_index_grows rounds r m blocks s ret r' mh ih statuses :
  Finish_index E rounds r m blocks s = (ret, r', mh, ih, statuses) ->
  grows (written (file r)) (offset r) (written (file r')) (offset r').
Proof.
  unfold Finish_index. intros H.
  break_hyps; invert_pairs; use_grows; chain_grows.
Qed.

Lemma Finish_blocks_grows r ret r' mh ih statuses :
  Finish_blocks E r = (ret, r', mh, ih, statuses) ->
  grows (written (file r)) (offset r) (written (file r')) (offset r').
Proof.
  unfold Finish_blocks. intros H.
  pose proof (Finish_data_grows r) as HD.
  break_hyps; invert_pairs;
    repeat match goal with
      | Hw : Finish_filter E _ = _ |- _ => apply Finish_filter_grows in Hw
      | Hw : Finish_meta E _ _ _ = _ |- _ =>
          apply Finish_meta_grows in Hw; cbn in Hw
      | Hw : Finish_index E _ _ _ _ _ = _ |- _ =>
          apply Finish_index_grows in Hw
      end;
    cbn [file offset set_index_builder]; chain_grows.
Qed.

Lemma WriteFooter_grows r mh ih :
  grows (written (file r)) (offset r)
        (written (file (WriteFooter E r mh ih)))
        (offset (WriteFooter E r mh ih)).
Proof.
  unfold WriteFooter. destruct (Append _ _) as [s f] eqn:A.
  apply Append_prefix in A.
  destruct (Status.ok _); cbn; (split; [exact A|]); intros Hu;
    [apply uint64_wrap64|exact Hu].
Qed.

Lemma Finish_grows r :
  grows (written (file r)) (offset r)
        (written (file (snd (Finish E r)))) (offset (snd (Finish E r))).
Proof.
  unfold Finish, Finish_traced.
  destruct (Finish_blocks E r) as [[[[ret r1] mh] ih] statuses] eqn:HF.
  apply Finish_blocks_grows in HF.
  destruct ret as [c|]; cbn [snd]; [exact HF|].
  destruct (ok r1); [|exact HF].
  eapply grows_trans; [exact HF|apply WriteFooter_grows].
Qed.

(** X26.  The builder only appends.  Whatever the appends and the
    other steps come to, the file after any calls of [Add] and
    [Flush] and after [Finish] begins with the file as the constructor
    got it: nothing that was written is taken back or written over,
    also not after a failure. *)
Theorem builder_only_appends r0 r :
  built E r0 r ->
  prefix_of (written (file r0)) (written (file r))
  /\ prefix_of (written (file r)) (written (file (snd (Finish E r))))
  /\ prefix_of (written (file r0)) (written (file (snd (Finish E r)))).
Proof.
  intros Hb. pose proof (built_grows r0 r Hb) as H1.
  pose proof (Finish_grows r) as H2.
  pose proof (grows_trans _ _ _ _ _ _ H1 H2) as H3.
  repeat split; [apply H1|apply H2|apply H3].
Qed.

End Growing.

Lemma builder_only_appends_witness :
  let r0 :=
    Sample.builder Builder.kBinarySearch 2 kCRC32c false kNoCompression
                   [Status.OK; Status.OK; Status.OK; Status.OK;
                    Status.IOError "append"] in
  let r := Sample.add "a" "1" r0 in
  prefix_of (written (file r0)) (written (file r))
  /\ prefix_of (written (file r)) (written (file (snd (Finish Sample.env r))))
  /\ prefix_of (written (file r0))
               (written (file (snd (Finish Sample.env r)))).
Proof.
  apply builder_only_appends. unfold Sample.add. apply built_Add.
  apply built_new.
Defined.

(** ** [Finish] on a file whose appends succeed *)

Lemma last_app_singleton {A : Type} (l : list A) (a d : A) :
  last (l ++ [a]) d = a.
Proof. apply last_last. Qed.

Lemma prefix_of_size (p s : bytes) : prefix_of p s -> size p <= size s.
Proof.
  intros [rest ->]. rewrite size_app. pose proof (size_nonneg rest). lia.
Qed.

Lemma handle_in_grows h r r' :
  handle_in h r ->
  grows (written (file r)) (offset r) (written (file r')) (offset r') ->
  handle_in h r'.
Proof.
  intros [Ho Hs] [Hp _]. apply prefix_of_size in Hp.
  split; [exact Ho|lia].
Qed.

Section HealthyFinish.
Variable E : Env.

Lemma IndexBuilder_Finish_first_status ib blocks s blocks' ib' :
  IndexBuilder_Finish_first E ib blocks = (s, blocks', ib') ->
  s = Status.OK
  \/ (s = Status.Incomplete
      /\ exists b n,
          ib' = Partitioned b /\ finishing_indexes b = true
          /\ List.length (entries_ b) = S n
          /\ (S n <= S (IndexBuilder_partitions ib))%nat).
Proof.
  unfold IndexBuilder_Finish_first. destruct ib as [b|b|b];
    cbn [IndexBuilder_Finish ShortenedIndexBuilder_Finish];
    try (intros H; inversion H; left; reflexivity).
  unfold PartitionedIndexBuilder_Finish, ShortenedIndexBuilder_Finish.
  cbn [IndexBuilder_partitions].
  destruct (finishing_indexes b) eqn:Hf;
    destruct (entries_ b) as [|e [|e' es]] eqn:He;
    cbn; rewrite ?He; cbn; intros H; inversion H; subst;
    try (left; reflexivity); right; (split; [reflexivity|]);
    eexists; eexists; (split; [reflexivity|]); cbn;
    (split; [reflexivity|]); (split; [reflexivity|]); lia.
Qed.

Lemma WriteRawBlock_handle_eq r c t :
  snd (WriteRawBlock E r c t) = mkBlockHandle (offset r) (size c).
Proof.
  unfold WriteRawBlock. destruct (Append (file r) c) as [s1 f1].
  destruct (Status.ok _); [|reflexivity].
  destruct (Append _ _) as [s2 f2]. reflexivity.
Qed.

Lemma WriteRawBlock_handle r c t r' h :
  WriteRawBlock E r c t = (r', h) -> ok r' = true -> uint64 (offset r) ->
  handle_in h r'.
Proof.
  intros H Hok Hu.
  pose proof (WriteRawBlock_handle_eq r c t) as Hh.
  pose proof (WriteRawBlock_steps E r c t) as (_ & _ & Hs).
  rewrite H in Hh, Hs. cbn [fst snd] in Hh, Hs.
  destruct (Hs Hok) as [Hw _]. subst h. split; [exact Hu|]. cbn [size_].
  rewrite Hw, !size_app.
  pose proof (size_nonneg (written (file r))).
  pose proof (size_nonneg c).
  pose proof (size_nonneg
                (byte.of_Z t
                   :: trailer_checksum E (checksum (table_options r)) c
                                       (byte.of_Z t))).
  lia.
Qed.

Lemma WriteBlock_handle r raw d r' h :
  WriteBlock E r raw d = (r', h) -> ok r' = true -> uint64 (offset r) ->
  handle_in h r'.
Proof.
  unfold WriteBlock. intros H Hok Hu. break_hyps; invert_pairs;
    match goal with
    | Hw : WriteRawBlock E _ _ _ = _ |- _ =>
        apply WriteRawBlock_handle in Hw;
        [exact Hw|exact Hok|exact Hu]
    end.
Qed.

Lemma WriteIndexPartitions_healthy rounds :
  forall r blocks h s ret r' h' statuses,
    healthy r -> ok r = true -> uint64 (offset r) -> handle_in h r ->
    WriteIndexPartitions E rounds r blocks h s = (ret, r', h', statuses) ->
    healthy r' /\ ok r' = true /\ handle_in h' r'.
Proof.
  induction rounds as [|rounds IH];
    intros r blocks h s ret r' h' statuses Hr Hok Hu Hh H;
    cbn [WriteIndexPartitions] in H.
  - inversion H; subst. auto.
  - destruct (Status.IsIncomplete s); [|inversion H; subst; auto].
    destruct (IndexBuilder_Finish E (index_builder r) blocks h)
      as [[s1 blocks1] ib1].
    destruct (negb (Status.ok s1) && negb (Status.IsIncomplete s1)).
    + inversion H; subst. unfold healthy, ok, handle_in in *. cbn. auto.
    + destruct (WriteBlock E _ (index_block_contents blocks1) false)
        as [r1 h1] eqn:Ew.
      pose proof Ew as Eh. pose proof Ew as Eg.
      apply WriteBlock_healthy in Ew;
        [|unfold healthy in *; cbn; exact Hr].
      destruct Ew as (Hr1 & Hok1 & _).
      apply WriteBlock_handle in Eh; [|exact Hok1|exact Hu].
      apply WriteBlock_grows in Eg. cbn in Eg.
      destruct (WriteIndexPartitions E rounds r1 blocks1 h1 s1)
        as [[[ret2 r2] h2] st2] eqn:El.
      apply IH in El; try assumption; [|apply Eg; exact Hu].
      inversion H; subst. exact El.
Qed.

Lemma Finish_data_healthy r :
  healthy r -> ok r = true ->
  healthy (Finish_data E r) /\ ok (Finish_data E r) = true.
Proof.
  intros Hr Hok. destruct (Flush_sound E r Hr Hok) as (Hr1 & Hok1 & _).
  unfold Finish_data. unfold healthy, ok in *.
  repeat break_match; cbn; auto.
Qed.

(** [Finish] up to the footer, for a builder that nothing can fail:
    no early return, the builder stays healthy, the two handles are
    handles of the file, and the index builder had the last word with
    OK. *)
Lemma Finish_blocks_healthy r :
  healthy r -> ok r = true -> uint64 (offset r) ->
  exists r1 mh ih statuses,
    Finish_blocks E r = (None, r1, mh, ih, statuses)
    /\ healthy r1 /\ ok r1 = true
    /\ handle_in mh r1 /\ handle_in ih r1
    /\ last statuses Status.Incomplete = Status.OK.
Proof.
  intros Hr Hok Hu. unfold Finish_blocks.
  destruct (Finish_data_healthy r Hr Hok) as [Hr1 Hok1].
  pose proof (Finish_data_grows E r) as G1.
  set (r1 := Finish_data E r) in *.
  destruct (Finish_filter E r1) as [r2 fh] eqn:Ef.
  pose proof (Finish_filter_grows E _ _ _ Ef) as G2.
  apply Finish_filter_sound in Ef; [|exact Hr1|exact Hok1].
  destruct Ef as (Hr2 & Hok2 & _).
  destruct (IndexBuilder_Finish_first E (index_builder r2) (mkIndexBlocks [] []))
    as [[s blocks] ib] eqn:Efirst.
  pose proof (IndexBuilder_Finish_first_status _ _ _ _ _ Efirst) as Hs.
  assert (Hcont : negb (Status.IsIncomplete s) && negb (Status.ok s) = false)
    by (destruct Hs as [->|[-> _]]; reflexivity).
  rewrite Hcont.
  set (r3 := set_index_builder r2 ib).
  assert (Hr3 : healthy r3) by exact Hr2.
  assert (Hok3 : ok r3 = true) by exact Hok2.
  destruct (Finish_meta E r3 blocks fh) as [r4 mi] eqn:Em.
  pose proof (Finish_meta_grows E _ _ _ _ _ Em) as G4.
  apply Finish_meta_sound in Em; [|exact Hr3|exact Hok3].
  destruct Em as (Hr4 & Hok4 & Hib4).
  assert (Hu4 : uint64 (offset r4)).
  { apply G4. change (offset r3) with (offset r2). apply G2. apply G1.
    exact Hu. }
  unfold Finish_index. rewrite Hok4.
  destruct (WriteRawBlock E r4 _ kNoCompression) as [r5 mh] eqn:E5.
  pose proof (WriteRawBlock_grows E _ _ _ _ _ E5) as G5.
  pose proof (WriteRawBlock_healthy E _ _ _ _ _ Hr4 E5) as (Hr5 & Hok5 & Hib5).
  pose proof (WriteRawBlock_handle _ _ _ _ _ E5 Hok5 Hu4) as Hmh.
  assert (Hu5 : uint64 (offset r5)) by (apply G5; exact Hu4).
  destruct (WriteBlock E r5 (index_block_contents blocks) false)
    as [r6 ih0] eqn:E6.
  pose proof (WriteBlock_grows E _ _ _ _ _ E6) as G6.
  pose proof (WriteBlock_healthy E _ _ _ _ _ Hr5 E6) as (Hr6 & Hok6 & Hib6).
  pose proof (WriteBlock_handle _ _ _ _ _ E6 Hok6 Hu5) as Hih0.
  assert (Hu6 : uint64 (offset r6)) by (apply G6; exact Hu5).
  assert (Hib : index_builder r6 = ib)
    by (rewrite Hib6, Hib5, Hib4; reflexivity).
  destruct (WriteIndexPartitions
              E (S (IndexBuilder_partitions (index_builder r2))) r6 blocks
              ih0 s) as [[[ret r7] ih] statuses] eqn:E7.
  pose proof (WriteIndexPartitions_grows E _ _ _ _ _ _ _ _ _ E7) as G7.
  pose proof (WriteIndexPartitions_healthy _ _ _ _ _ _ _ _ _
                Hr6 Hok6 Hu6 Hih0 E7) as (Hr7 & Hok7 & Hih).
  assert (Hloop : ret = None
                  /\ last (s :: statuses) Status.Incomplete = Status.OK).
  { destruct Hs as [->|(-> & b & n & -> & Hf & Hlen & Hrounds)].
    - rewrite WriteIndexPartitions_done in E7 by reflexivity.
      inversion E7; subst. split; reflexivity.
    - destruct (WriteIndexPartitions_partitioned
                  E n (S (IndexBuilder_partitions (index_builder r2)))
                  r6 blocks ih0 b Hrounds Hib Hf Hlen) as (r' & h' & Hw).
      rewrite Hw in E7. inversion E7; subst. split; [reflexivity|].
      change (Status.Incomplete :: repeat Status.Incomplete n ++ [Status.OK])
        with ((Status.Incomplete :: repeat Status.Incomplete n)
                ++ [Status.OK]).
      apply last_last. }
  destruct Hloop as [-> Hlast].
  exists r7, mh, ih, (s :: statuses).
  split; [reflexivity|]. split; [exact Hr7|]. split; [exact Hok7|].
  split; [|split; [exact Hih|exact Hlast]].
  apply (handle_in_grows mh r5); [exact Hmh|].
  eapply grows_trans; eassumption.
Qed.

End HealthyFinish.

Lemma WriteFooter_healthy E r mh ih :
  healthy r ->
  status (WriteFooter E r mh ih) = Status.OK
  /\ written (file (WriteFooter E r mh ih))
     = written (file r)
       ++ Footer_EncodeTo (magic E) (MakeFooter (table_options r) mh ih) [].
Proof.
  intros [Hf _]. unfold WriteFooter. rewrite (Append_succeeds _ _ Hf).
  cbn. split; reflexivity.
Qed.

Lemma MakeFooter_valid M topt mh ih :
  MagicNumbers_ok M ->
  uint32 (format_version topt) ->
  valid_checksum (checksum topt) ->
  (checksum topt =? kCRC32c) || negb (format_version topt =? 0) = true ->
  valid_handle mh -> valid_handle ih ->
  valid_footer M (if format_version topt =? 0 then Legacy else Versioned)
               (MakeFooter topt mh ih).
Proof.
  intros HM Hv Hc Ha Hmh Hih. unfold MakeFooter, valid_footer, layout_of.
  cbn [table_magic_number_ version_ checksum_ metaindex_handle_ index_handle_
       set_checksum set_index_handle set_metaindex_handle Footer_new].
  destruct (Z.eqb_spec (format_version topt) 0) as [E0|E0].
  - assert (HL : IsLegacyFooterFormat M kLegacyBlockBasedTableMagicNumber
                 = true)
      by (unfold IsLegacyFooterFormat; rewrite Z.eqb_refl; reflexivity).
    rewrite HL. rewrite orb_false_r in Ha. apply Z.eqb_eq in Ha.
    repeat split; try apply Hmh; try apply Hih; assumption.
  - rewrite (not_legacy_block_based M HM), Z.eqb_refl.
    repeat split; try apply Hmh; try apply Hih; try apply Hv; assumption.
Qed.

(** The last [kMaxEncodedLength] bytes of a file that ends in a
    footer. *)
Lemma reader_of_footer_window (before encoding : bytes) :
  size encoding <= kMaxEncodedLength ->
  kMaxEncodedLength <= size (before ++ encoding) < 2 ^ 64 ->
  exists pre,
    reader_of (before ++ encoding)
              (wrap64 (size (before ++ encoding) - kMaxEncodedLength))
              kMaxEncodedLength
    = (Status.OK, pre ++ encoding).
Proof.
  assert (HK : kMaxEncodedLength = 65) by reflexivity. rewrite HK.
  intros He Hs. unfold reader_of.
  rewrite wrap64_small by lia.
  set (k := Z.to_nat (size (before ++ encoding) - 65)).
  assert (Hk : (k <= List.length before)%nat).
  { subst k. rewrite size_app in *. unfold size in *. lia. }
  exists (skipn k before).
  rewrite skipn_app.
  replace (k - List.length before)%nat with 0%nat by lia.
  cbn [skipn]. f_equal. apply firstn_all2.
  rewrite length_app, length_skipn. subst k.
  rewrite size_app in *. unfold size in *. lia.
Qed.

Section FinishedTables.
Variable E : Env.
Hypothesis magic_ok : MagicNumbers_ok (magic E).

(** X27.  On a builder that nothing fails for, [Finish] returns [kOk]
    with the status OK; the index builder has the last word with OK,
    so that the loop over the index partitions ends by itself; and the
    file ends in a footer that [ReadFooterFromFile] reads back from an
    extent that the file fills: with the magic number of the current
    format, also for the legacy layout, with the format version and
    the checksum type of the table options, and with two handles of
    blocks of the file. *)
Theorem Finish_footer_reads_back r footer0 :
  healthy r -> ok r = true -> uint64 (offset r) ->
  uint32 (format_version (table_options r)) ->
  valid_checksum (checksum (table_options r)) ->
  Finish_footer_assert r = true ->
  let r' := snd (Builder.Finish E r) in
  let extent := written (file r') in
  kMaxEncodedLength <= size extent < 2 ^ 64 ->
  fst (Builder.Finish E r) = Status.kOk
  /\ status r' = Status.OK
  /\ last (snd (Finish_traced E r)) Status.Incomplete = Status.OK
  /\ exists g,
      ReadFooterFromFile (magic E) (size extent) (reader_of extent)
                         (size extent) footer0 0
      = Returned (Status.OK, g)
      /\ table_magic_number_ g = kBlockBasedTableMagicNumber
      /\ version_ g = format_version (table_options r)
      /\ checksum_ g = checksum (table_options r)
      /\ handle_in (metaindex_handle_ g) r'
      /\ handle_in (index_handle_ g) r'.
Proof.
  intros Hr Hok Hu Hv Hc Ha. cbv zeta.
  destruct (Finish_blocks_healthy E r Hr Hok Hu)
    as (r1 & mh & ih & statuses & HF & Hr1 & Hok1 & Hmh & Hih & Hlast).
  pose proof (Finish_blocks_table_options E _ _ _ _ _ _ HF) as Ht.
  unfold Builder.Finish, Finish_traced. rewrite HF, Hok1. cbn [fst snd].
  destruct (WriteFooter_healthy E r1 mh ih Hr1) as [Hs Hw].
  pose proof (WriteFooter_grows E r1 mh ih) as Gf.
  set (r' := WriteFooter E r1 mh ih) in *.
  intros Hsize.
  split; [rewrite Hs; reflexivity|]. split; [exact Hs|].
  split; [exact Hlast|].
  set (footer := MakeFooter (table_options r1) mh ih) in *.
  assert (Hbound : size (written (file r1)) <= size (written (file r'))).
  { apply prefix_of_size. apply Gf. }
  assert (Hvalid : valid_footer
                     (magic E)
                     (if format_version (table_options r1) =? 0
                      then Legacy else Versioned) footer).
  { apply MakeFooter_valid; try assumption; rewrite ?Ht; try assumption.
    - destruct Hmh as [Ho [H0 H1]]. split; [exact Ho|].
      split; [exact H0|lia].
    - destruct Hih as [Ho [H0 H1]]. split; [exact Ho|].
      split; [exact H0|lia]. }
  assert (Henc : size (Footer_EncodeTo (magic E) footer [])
                 <= kMaxEncodedLength).
  { rewrite (proj2 (Footer_EncodeTo_size_fact (magic E) footer [])).
    unfold kMaxEncodedLength, kVersion3EncodedLength, kVersion0EncodedLength,
      kNewVersionsEncodedLength, BlockHandle_kMaxEncodedLength.
    cbn [size List.length Z.of_nat].
    destruct (IsLegacyFooterFormat _ _); [lia|].
    destruct (table_magic_number_ footer =? kBlockBasedTableMagicNumber);
      lia. }
  rewrite Hw in Hsize |- *.
  destruct (reader_of_footer_window _ _ Henc Hsize) as (pre & Hread).
  rewrite <- (proj1 (Footer_EncodeTo_size_fact (magic E) footer pre)) in Hread.
  set (extent := written (file r1) ++ Footer_EncodeTo (magic E) footer [])
    in *.
  destruct (ReadFooterFromFile_of_encoding
              (magic E) (size extent) _ footer (reader_of extent)
              (size extent) footer0 0 pre magic_ok Hvalid)
    as (g & Hg & Hsame).
  - unfold kMinEncodedLength, kMaxEncodedLength, kVersion3EncodedLength,
      kVersion0EncodedLength, BlockHandle_kMaxEncodedLength in *. lia.
  - exact Hread.
  - left. reflexivity.
  - exists g. split; [exact Hg|].
    destruct Hsame as (Hm & Hver & Hck & Hmh' & Hih' & _).
    rewrite canonical_magic_Upconvert in Hm.
    subst footer. unfold MakeFooter in Hm, Hver, Hck, Hmh', Hih'.
    cbn [table_magic_number_ version_ checksum_ metaindex_handle_
         index_handle_ set_checksum set_index_handle set_metaindex_handle
         Footer_new] in Hm, Hver, Hck, Hmh', Hih'.
    rewrite Hver, Hck, Hmh', Hih', Ht.
    split; [|split; [reflexivity|split; [reflexivity|]]].
    + rewrite Hm. destruct (format_version (table_options r1) =? 0).
      * unfold IsLegacyFooterFormat, UpconvertLegacyFooterFormat.
        rewrite Z.eqb_refl. reflexivity.
      * rewrite (not_legacy_block_based (magic E) magic_ok). reflexivity.
    + split; apply (handle_in_grows _ r1); assumption.
Qed.

End FinishedTables.

Lemma Finish_footer_reads_back_witness :
  let r := Sample.five_keys Builder.kTwoLevelIndexSearch [] in
  let r' := snd (Builder.Finish Sample.env r) in
  let extent := written (file r') in
  fst (Builder.Finish Sample.env r) = Status.kOk
  /\ status r' = Status.OK
  /\ last (snd (Finish_traced Sample.env r)) Status.Incomplete = Status.OK
  /\ exists g,
      ReadFooterFromFile (magic Sample.env) (size extent) (reader_of extent)
                         (size extent) (Footer_new 0 0) 0
      = Returned (Status.OK, g)
      /\ table_magic_number_ g = kBlockBasedTableMagicNumber
      /\ version_ g = format_version (table_options r)
      /\ checksum_ g = checksum (table_options r)
      /\ handle_in (metaindex_handle_ g) r'
      /\ handle_in (index_handle_ g) r'.
Proof.
  apply (Finish_footer_reads_back
           Sample.env Sample_magic_ok
           (Sample.five_keys Builder.kTwoLevelIndexSearch [])
           (Footer_new 0 0)).
  - split; reflexivity.
  - vm_compute. reflexivity.
  - vm_compute. split; congruence.
  - vm_compute. split; congruence.
  - right. left. reflexivity.
  - reflexivity.
  - vm_compute. split; congruence.
Defined.

(** ** The partitions of the partitioned index builder *)

Lemma fold_entries_app (es : list Entry) (e : Entry) :
  fold_right (fun e n => List.length (index_block_builder_ (value e)) + n)%nat
             O (es ++ [e])
  = (fold_right
       (fun e n => List.length (index_block_builder_ (value e)) + n)%nat
       O es
     + List.length (index_block_builder_ (value e)))%nat.
Proof.
  induction es as [|e' es IH]; cbn; [lia|]. rewrite IH. lia.
Qed.

(** X28.  [PartitionedIndexBuilder::AddIndexEntry] keeps every index
    entry: a call adds exactly one entry to the entries that the
    sealed partitions and the partition in the making hold, whether it
    cuts a partition or not; no partition is ever empty; the top-level
    index is not touched before [Finish]; and the call for the last
    block seals the partition in the making and asks for the filter
    block to be cut. *)
Theorem AddIndexEntry_keeps_entries E b last_key next handle :
  let b' :=
    fst (PartitionedIndexBuilder_AddIndexEntry E b last_key next handle) in
  index_entries b' = S (index_entries b)
  /\ (no_empty_partition b -> no_empty_partition b')
  /\ top_index_block_builder_ b' = top_index_block_builder_ b
  /\ (next = None ->
      sub_index_builder_ b' = None /\ cut_filter_block b' = true
      /\ List.length (entries_ b') = S (List.length (entries_ b))).
Proof.
  cbv zeta. unfold PartitionedIndexBuilder_AddIndexEntry,
    ShortenedIndexBuilder_AddIndexEntry, MakeNewSubIndexBuilder,
    BlockBuilder_Add, index_entries, no_empty_partition.
  destruct next as [next|].
  - destruct (sub_index_builder_ b) as [sub|] eqn:Hsub.
    + destruct (flush_policy_Update E b sub last_key _) eqn:Hflush;
        cbn [fst entries_ sub_index_builder_ top_index_block_builder_
             index_block_builder_ value cut_filter_block].
      * rewrite fold_entries_app. cbn [value index_block_builder_].
        rewrite !length_app. cbn [List.length].
        split; [lia|]. split; [|split; [reflexivity|discriminate]].
        intros [Hall Hs]. split.
        -- apply Forall_app. split; [exact Hall|].
           constructor; [|constructor]. cbn. apply (Hs sub). reflexivity.
        -- intros sub' H. inversion H; subst. cbn. discriminate.
      * rewrite !length_app. cbn [List.length].
        split; [lia|]. split; [|split; [reflexivity|discriminate]].
        intros [Hall Hs]. split; [exact Hall|].
        intros sub' H. inversion H; subst. cbn.
        intros Hnil. apply app_eq_nil in Hnil. destruct Hnil as [_ Hnil].
        discriminate Hnil.
    + cbn [fst entries_ sub_index_builder_ top_index_block_builder_
           index_block_builder_ value cut_filter_block].
      cbn [app List.length].
      split; [lia|]. split; [|split; [reflexivity|discriminate]].
      intros [Hall Hs]. split; [exact Hall|].
      intros sub' H. inversion H; subst. cbn. discriminate.
  - cbn [fst entries_ sub_index_builder_ top_index_block_builder_
         index_block_builder_ value cut_filter_block].
    rewrite fold_entries_app. cbn [value index_block_builder_].
    rewrite !length_app. cbn [List.length].
    split; [destruct (sub_index_builder_ b); cbn; rewrite ?length_app; cbn; lia|].
    split; [|split; [reflexivity|intros _; repeat split; lia]].
    intros [Hall Hs]. split.
    + apply Forall_app. split; [exact Hall|].
      constructor; [|constructor]. cbn.
      intros Hnil. apply app_eq_nil in Hnil. destruct Hnil as [_ Hnil].
      discriminate Hnil.
    + intros sub' H. discriminate H.
Qed.

Lemma AddIndexEntry_keeps_entries_witness :
  let b :=
    mkPartitioned [] None [] [] false false
                  (Sample.table_options Builder.kTwoLevelIndexSearch 2 kCRC32c
                                        false) in
  let b' :=
    fst (PartitionedIndexBuilder_AddIndexEntry
           Sample.env b (Sample.put_key "a") None Sample.handle1) in
  index_entries b' = S (index_entries b)
  /\ (no_empty_partition b -> no_empty_partition b')
  /\ top_index_block_builder_ b' = top_index_block_builder_ b
  /\ (@None bytes = None ->
      sub_index_builder_ b' = None /\ cut_filter_block b' = true
      /\ List.length (entries_ b') = S (List.length (entries_ b))).
Proof.
  apply (AddIndexEntry_keeps_entries
           Sample.env
           (mkPartitioned [] None [] [] false false
                          (Sample.table_options Builder.kTwoLevelIndexSearch 2
                                                kCRC32c false))
           (Sample.put_key "a") None Sample.handle1).
Defined.

(** ** The properties collector of the internal keys *)

Import Collector CollectorWording.

Lemma find_insert_same props name val :
  find (insert props name val) name
  = match find props name with Some old => Some old | None => Some val end.
Proof.
  unfold insert. destruct (find props name) as [old|] eqn:Hf; [exact Hf|].
  induction props as [|[k v] props IH]; cbn in *.
  - rewrite String.eqb_refl. reflexivity.
  - destruct (String.eqb k name); [discriminate Hf|]. apply IH. exact Hf.
Qed.

Lemma find_insert_other props name val name' :
  name <> name' -> find (insert props name val) name' = find props name'.
Proof.
  intros Hne. unfold insert. destruct (find props name); [reflexivity|].
  induction props as [|[k v] props IH]; cbn.
  - destruct (String.eqb_spec name name'); [contradiction|reflexivity].
  - destruct (String.eqb k name'); [reflexivity|exact IH].
Qed.

Lemma kDeletedKeys_kMergeOperands : kDeletedKeys <> kMergeOperands.
Proof. discriminate. Qed.

Lemma GetUint64Property_varint props name v :
  uint64 v -> find props name = Some (PutVarint64 [] v) ->
  GetUint64Property props name = (v, true).
Proof.
  intros Hv Hf. unfold GetUint64Property. rewrite Hf.
  unfold PutVarint64. cbn [app].
  rewrite <- (app_nil_r (EncodeVarint64 v)).
  rewrite (GetVarint64_EncodeVarint64 v [] Hv). reflexivity.
Qed.

(** X29.  What [InternalKeyPropertiesCollector::Finish] stores,
    [GetDeletedKeys] and [GetMergeOperands] read back: on properties
    that do not have the two names yet, as [Finish] asserts, the two
    counters come back, the merge operands as present, and no other
    property is touched.  A name that is there already keeps its old
    value, and a property that is missing reads as 0 and not
    present. *)
Theorem Finish_properties_read_back c properties :
  uint64 (deleted_keys_ c) -> uint64 (merge_operands_ c) ->
  let properties' := snd (Finish c properties) in
  fst (Finish c properties) = Status.OK
  /\ (Finish_assert properties = true ->
      GetDeletedKeys properties' = deleted_keys_ c
      /\ GetMergeOperands properties' = (merge_operands_ c, true))
  /\ (forall name,
         name <> kDeletedKeys -> name <> kMergeOperands ->
         find properties' name = find properties name)
  /\ (forall old,
         find properties kDeletedKeys = Some old ->
         find properties' kDeletedKeys = Some old)
  /\ (find properties kMergeOperands = None ->
      GetMergeOperands properties = (0, false)).
Proof.
  intros Hd Hm. cbv zeta. unfold Finish. cbn [fst snd].
  split; [reflexivity|]. split; [|split; [|split]].
  - unfold Finish_assert. intros Ha.
    destruct (find properties kDeletedKeys) eqn:Fd; [discriminate Ha|].
    destruct (find properties kMergeOperands) eqn:Fm; [discriminate Ha|].
    split.
    + unfold GetDeletedKeys.
      rewrite (GetUint64Property_varint _ _ (deleted_keys_ c) Hd);
        [reflexivity|].
      rewrite find_insert_other by (intros H; symmetry in H;
                                    exact (kDeletedKeys_kMergeOperands H)).
      rewrite find_insert_same, Fd. reflexivity.
    + unfold GetMergeOperands.
      apply (GetUint64Property_varint _ _ (merge_operands_ c) Hm).
      rewrite find_insert_same.
      rewrite find_insert_other by exact kDeletedKeys_kMergeOperands.
      rewrite Fm. reflexivity.
  - intros name H1 H2.
    rewrite !find_insert_other by (intros H; symmetry in H; contradiction).
    reflexivity.
  - intros old Hold.
    rewrite find_insert_other by (intros H; symmetry in H;
                                  exact (kDeletedKeys_kMergeOperands H)).
    rewrite find_insert_same, Hold. reflexivity.
  - intros Hnone. unfold GetMergeOperands, GetUint64Property.
    rewrite Hnone. reflexivity.
Qed.

Lemma Finish_properties_read_back_witness :
  let c := mkCollector 300 2 in
  let properties := [("rocksdb.comparator"%string, [Byte.x01])] in
  let properties' := snd (Finish c properties) in
  fst (Finish c properties) = Status.OK
  /\ (Finish_assert properties = true ->
      GetDeletedKeys properties' = deleted_keys_ c
      /\ GetMergeOperands properties' = (merge_operands_ c, true))
  /\ (forall name,
         name <> kDeletedKeys -> name <> kMergeOperands ->
         find properties' name = find properties name)
  /\ (forall old,
         find properties kDeletedKeys = Some old ->
         find properties' kDeletedKeys = Some old)
  /\ (find properties kMergeOperands = None ->
      GetMergeOperands properties = (0, false)).
Proof.
  apply (Finish_properties_read_back
           (mkCollector 300 2) [("rocksdb.comparator"%string, [Byte.x01])]);
    vm_compute; split; congruence.
Defined.

Section CountingKeys.
Variable V : ValueTypes.
Variable ParseInternalKey : bytes -> option ParsedInternalKey.

Lemma InternalAdd_all_cons c kv keys :
  InternalAdd_all V ParseInternalKey c (kv :: keys)
  = InternalAdd_all V ParseInternalKey
      (snd (InternalAdd V ParseInternalKey c (fst kv) (snd kv) 0)) keys.
Proof. reflexivity. Qed.

Lemma wrap64_idem z : wrap64 (wrap64 z) = wrap64 z.
Proof. unfold wrap64. apply Z.mod_mod. discriminate. Qed.

Lemma InternalAdd_all_counts_from keys : forall c,
  ValueTypes_distinct V ->
  let c' := InternalAdd_all V ParseInternalKey c keys in
  wrap64 (deleted_keys_ c')
  = wrap64 (deleted_keys_ c
            + count_keys ParseInternalKey (is_deletion V) keys)
  /\ wrap64 (merge_operands_ c')
     = wrap64 (merge_operands_ c
               + count_keys ParseInternalKey (is_merge V) keys).
Proof.
  induction keys as [|kv keys IH]; intros c HV.
  - cbn. rewrite !Z.add_0_r. split; reflexivity.
  - cbv zeta. rewrite InternalAdd_all_cons.
    destruct (IH (snd (InternalAdd V ParseInternalKey c (fst kv) (snd kv) 0))
                 HV) as [IHd IHm].
    rewrite IHd, IHm. clear IHd IHm IH.
    unfold count_keys, InternalAdd. cbn [filter].
    destruct (ParseInternalKey (fst kv)) as [ikey|]; [|split; reflexivity].
    unfold is_deletion, is_merge. destruct HV as [HV1 HV2].
    destruct (Z.eqb_spec (type ikey) (kTypeDeletion V)) as [Ed|Ed];
      [|destruct (Z.eqb_spec (type ikey) (kTypeSingleDeletion V)) as [Es|Es]];
      cbn [orb snd deleted_keys_ merge_operands_ List.length].
    + destruct (Z.eqb_spec (type ikey) (kTypeMerge V)) as [Em|_];
        [congruence|].
      rewrite wrap64_add_l. split; [f_equal; lia|reflexivity].
    + destruct (Z.eqb_spec (type ikey) (kTypeMerge V)) as [Em|_];
        [congruence|].
      rewrite wrap64_add_l. split; [f_equal; lia|reflexivity].
    + destruct (Z.eqb_spec (type ikey) (kTypeMerge V)) as [Em|_];
        cbn [snd deleted_keys_ merge_operands_ List.length].
      * rewrite wrap64_add_l. split; [reflexivity|f_equal; lia].
      * split; reflexivity.
Qed.

(** X30.  [InternalKeyPropertiesCollector::InternalAdd] counts: after
    one call for each key of a list, the deleted keys have grown by
    the number of keys of the list that parse and are a deletion or a
    single deletion, and the merge operands by the number of those
    that parse and are a merge, both as 64-bit counters; a key that
    does not parse counts for nothing. *)
Theorem InternalAdd_counts c keys :
  ValueTypes_distinct V ->
  uint64 (deleted_keys_ c) -> uint64 (merge_operands_ c) ->
  let c' := InternalAdd_all V ParseInternalKey c keys in
  deleted_keys_ c'
  = wrap64 (deleted_keys_ c
            + count_keys ParseInternalKey (is_deletion V) keys)
  /\ merge_operands_ c'
     = wrap64 (merge_operands_ c
               + count_keys ParseInternalKey (is_merge V) keys).
Proof.
  intros HV Hd Hm.
  assert (Hrange : forall keys c,
             uint64 (deleted_keys_ c) -> uint64 (merge_operands_ c) ->
             uint64 (deleted_keys_
                       (InternalAdd_all V ParseInternalKey c keys))
             /\ uint64 (merge_operands_
                          (InternalAdd_all V ParseInternalKey c keys))).
  { clear. induction keys as [|kv keys IH]; intros c Hd Hm; [split; assumption|].
    rewrite InternalAdd_all_cons. unfold InternalAdd.
    assert (Hw : forall z, uint64 (wrap64 z))
      by (intros z; apply Z.mod_pos_bound; reflexivity).
    destruct (ParseInternalKey (fst kv)) as [ikey|]; [|apply IH; assumption].
    destruct (_ || _); [apply IH; cbn; auto|].
    destruct (_ =? _); apply IH; cbn; auto. }
  destruct (Hrange keys c Hd Hm) as [Rd Rm].
  destruct (InternalAdd_all_counts_from keys c HV) as [Cd Cm].
  cbv zeta. unfold wrap64 in Cd at 1, Cm at 1.
  rewrite Z.mod_small in Cd by exact Rd.
  rewrite Z.mod_small in Cm by exact Rm.
  split; assumption.
Qed.

End CountingKeys.

Lemma InternalAdd_counts_witness :
  let c' :=
    InternalAdd_all CollectorSample.value_types CollectorSample.parse
                    (mkCollector (2 ^ 64 - 1) 0) CollectorSample.keys in
  deleted_keys_ c'
  = wrap64 (deleted_keys_ (mkCollector (2 ^ 64 - 1) 0)
            + count_keys CollectorSample.parse
                         (is_deletion CollectorSample.value_types)
                         CollectorSample.keys)
  /\ merge_operands_ c'
     = wrap64 (merge_operands_ (mkCollector (2 ^ 64 - 1) 0)
               + count_keys CollectorSample.parse
                            (is_merge CollectorSample.value_types)
                            CollectorSample.keys).
Proof.
  apply (InternalAdd_counts
           CollectorSample.value_types CollectorSample.parse
           (mkCollector (2 ^ 64 - 1) 0) CollectorSample.keys).
  - split; vm_compute; congruence.
  - vm_compute. split; congruence.
  - vm_compute. split; congruence.
Defined.
